(** * calculadora-aporte: the numeric core of [src/lib/finance.ts]

    A shallow embedding of the projection engine (the reading of a number
    from a text, rate conversion, the projection simulator, the horizon
    solver and the contribution solver) and the properties the
    specification states of it, followed by further properties that the
    code itself shows.

    Numbers.  A TypeScript [number] is an IEEE 754 binary64 value, which is
    Rocq's primitive [float]: [+], [-], [*], [/], [<], [<=] are the same
    operations, rounded to nearest, with [NaN], the infinities and the two
    zeros.  What the source takes from the JavaScript library is modelled
    beside it: [Math.max], [Math.min] and [Number.isFinite] from their
    ECMA-262 definitions.  [Math.pow], which ECMA-262 leaves
    implementation-approximated, is a parameter of the development:
    [Math_pow] at the integral loop counters of the simulator and of the
    horizon solver, [Math_pow_frac] at the exponent [1 / 12] of
    [annualToMonthlyRate].

    Texts.  A string is its sequence of UTF-16 code units; [trim] and the
    three [replace] steps of [parseNumberBR] are modelled on it, and
    [Number], the host's conversion of the cleaned text, is a parameter.

    Counters.  [months], [maxMonths] and the loop counters [m] hold
    integers; they are modelled as [Z] and converted with [Z2num] where the
    source uses them in floating-point arithmetic ([m / 12],
    [(target - pv) / months]).  The conversion is exact below 2^53, the
    range in which the source's [m++] is exact as well.

    Plan.  The program; the auxiliary definitions of the statements; the
    facts of binary64 arithmetic the statements rest on (an operation on
    finite numbers rounds its exact result to nearest, and rounding to
    nearest keeps the order, infinities included); then the properties,
    component by component. *)

From Stdlib Require Import ZArith NArith List Bool Lia Floats Reals Lra.
Import ListNotations.

#[local] Set Warnings "-inexact-float".
#[local] Open Scope float_scope.

(** * The program *)

(** ** Numbers *)

Definition num := float.

(** An integer counter used as a [number]. *)
Definition Z2num (z : Z) : num :=
  if (z <? 0)%Z then - of_uint63 (Uint63.of_Z (- z))
  else of_uint63 (Uint63.of_Z z).

(** [Number.isFinite]: neither [NaN] nor an infinity. *)
Definition Number_isFinite (x : num) : bool := is_finite x.

(** [x] is the value [+0]; [x] is the value [-0]. *)
Definition is_pos_zero (x : num) : bool := is_zero x && negb (get_sign x).
Definition is_neg_zero (x : num) : bool := is_zero x && get_sign x.

(** [Math.max (a, b)], ECMA-262 21.3.2.24: [NaN] if an argument is [NaN];
    otherwise [highest] starts at -Infinity and takes each argument that is
    greater, [+0] counting as greater than [-0]. *)
Definition max_step (highest number : num) : num :=
  if is_pos_zero number && is_neg_zero highest then zero
  else if highest <? number then number else highest.

Definition Math_max (a b : num) : num :=
  if is_nan a || is_nan b then nan
  else max_step (max_step neg_infinity a) b.

(** [Math.min (a, b)], ECMA-262 21.3.2.25, the mirror image. *)
Definition min_step (lowest number : num) : num :=
  if is_neg_zero number && is_pos_zero lowest then neg_zero
  else if number <? lowest then number else lowest.

Definition Math_min (a b : num) : num :=
  if is_nan a || is_nan b then nan
  else min_step (min_step infinity a) b.

(** ** The data model *)

Inductive ContributionIndexation := inflationAdjusted | fixedNominal.
Inductive ContributionTiming := timingEnd | timingBegin.

Record SimulationPoint := mkPoint {
  month : Z;
  age : num;
  inflFactor : num;
  balanceReal : num;
  balanceNominal : num;
  contributionNominal : num;
  contributionReal : num
}.

(** The parameter object of [simulateProjection] and [finalBalanceReal]. *)
Record SimParams := mkSimParams {
  pvToday : num;
  pmt0 : num;
  months : Z;
  ageNow : num;
  realMonthlyRate : num;
  inflationMonthlyRate : num;
  indexation : ContributionIndexation;
  timing : ContributionTiming
}.

(** The parameter object of [monthsToTarget]; [maxMonths] is optional. *)
Record TargetParams := mkTargetParams {
  t_pvToday : num;
  t_pmt0 : num;
  t_targetToday : num;
  t_ageNow : num;
  t_realMonthlyRate : num;
  t_inflationMonthlyRate : num;
  t_indexation : ContributionIndexation;
  t_timing : ContributionTiming;
  t_maxMonths : option Z
}.

(** The parameter object of [solveRequiredPmt]. *)
Record SolveParams := mkSolveParams {
  s_pvToday : num;
  s_targetToday : num;
  s_months : Z;
  s_ageNow : num;
  s_realMonthlyRate : num;
  s_inflationMonthlyRate : num;
  s_indexation : ContributionIndexation;
  s_timing : ContributionTiming
}.

(** [{ ...params, pmt0 }] *)
Definition with_pmt0 (p : SolveParams) (c : num) : SimParams :=
  mkSimParams (s_pvToday p) c (s_months p) (s_ageNow p) (s_realMonthlyRate p)
    (s_inflationMonthlyRate p) (s_indexation p) (s_timing p).

(** ** Reading a number *)

(** A string is a sequence of UTF-16 code units. *)
Definition code_unit := N.
Definition jsstring := list code_unit.

(** [WhiteSpace] and [LineTerminator] of ECMA-262, the code units that
    [trim] removes: TAB, LF, VT, FF, CR, SP, NBSP, the space separators of
    Unicode, LS, PS and ZWNBSP. *)
Definition is_whitespace (c : code_unit) : bool :=
  ((9 <=? c) && (c <=? 13) || (c =? 32) || (c =? 160) || (c =? 0x1680) ||
   (0x2000 <=? c) && (c <=? 0x200A) || (c =? 0x2028) || (c =? 0x2029) ||
   (c =? 0x202F) || (c =? 0x205F) || (c =? 0x3000) || (c =? 0xFEFF))%N.

Fixpoint trimStart (s : jsstring) : jsstring :=
  match s with
  | [] => []
  | c :: r => if is_whitespace c then trimStart r else s
  end.

Definition trimEnd (s : jsstring) : jsstring := rev (trimStart (rev s)).

Definition trim (s : jsstring) : jsstring := trimEnd (trimStart s).

(** [.replace (/\./g, empty)]: every full stop goes. *)
Definition remove_dots (s : jsstring) : jsstring :=
  filter (fun c => negb (c =? 46)%N) s.

(** [.replace (comma, full stop)]: the first comma only. *)
Fixpoint replace_comma (s : jsstring) : jsstring :=
  match s with
  | [] => []
  | c :: r => if (c =? 44)%N then 46%N :: r else c :: replace_comma r
  end.

(** [\d]: the ten digits. *)
Definition is_digit (c : code_unit) : bool := ((48 <=? c) && (c <=? 57))%N.

(** [.replace (/[^\d.-]/g, empty)]: digits, full stops and hyphens stay. *)
Definition keep_numeric (s : jsstring) : jsstring :=
  filter (fun c => is_digit c || (c =? 46)%N || (c =? 45)%N) s.

(** The [v] of [parseNumberBR]. *)
Definition cleaned (value : jsstring) : jsstring :=
  keep_numeric (replace_comma (remove_dots (trim value))).

Section Parse.

(** [Number (v)], the host's conversion of a text to a number. *)
Variable Number : jsstring -> num.

Definition parseNumberBR (value : jsstring) : num :=
  let v := cleaned value in
  let n := Number v in
  if Number_isFinite n then n else 0.

(** The amounts that [App] reads from its text fields ([pvToday], [ageNow],
    [targetToday], [meuAporteNum]): [Math.max (0, parseNumberBR (text))]. *)
Definition amount (text : jsstring) : num := Math_max 0 (parseNumberBR text).

End Parse.

(** ** Rate conversion *)

(** [Math.min (max, Math.max (min, n))] *)
Definition clamp (n lo hi : num) : num := Math_min hi (Math_max lo n).

Section Annual.

(** [Math.pow (base, exponent)] at a fractional exponent, as the host
    implements it. *)
Variable Math_pow_frac : num -> num -> num.

Definition annualToMonthlyRate (annualRate : num) : num :=
  if annualRate <=? -1 then -0.999999
  else Math_pow_frac (1 + annualRate) (1 / 12) - 1.

End Annual.

Definition realMonthlyRateFromGross (grossMonthlyRate taxOnGainsRate
    inflationMonthlyRate : num) : num :=
  let g := grossMonthlyRate in
  let tax := clamp taxOnGainsRate 0 1 in
  let infl := inflationMonthlyRate in
  let netNominal := 1 + g * (1 - tax) in
  let real := netNominal / (1 + infl) - 1 in
  clamp real (-0.99) 10.

(** ** The simulator and the two solvers *)

(** The body both loops share: one period of the real balance. *)
Definition advance (t : ContributionTiming) (r balance contribution : num) : num :=
  match t with
  | timingBegin => (balance + contribution) * (1 + r)
  | timingEnd => balance * (1 + r) + contribution
  end.

Section Engine.

(** [Math.pow (base, m)] for an integral [m], as the host implements it. *)
Variable Math_pow : num -> Z -> num.

Section Simulate.
Variable p : SimParams.

(** The snapshot pushed at month [m] with running balance [b]. *)
Definition snapshot (m : Z) (b : num) : SimulationPoint :=
  let inflFactor := Math_pow (1 + inflationMonthlyRate p) m in
  let contributionNominal :=
    match indexation p with
    | inflationAdjusted => pmt0 p * inflFactor
    | fixedNominal => pmt0 p
    end in
  let contributionReal :=
    match indexation p with
    | inflationAdjusted => pmt0 p
    | fixedNominal => pmt0 p / inflFactor
    end in
  let balanceNominal := b * inflFactor in
  mkPoint m (ageNow p + Z2num m / 12) inflFactor b balanceNominal
    contributionNominal contributionReal.

(** [for (let m = 0; m <= months; m++) { ... }], [n] iterations left. *)
Fixpoint simulate_loop (n : nat) (m : Z) (b : num) : list SimulationPoint :=
  match n with
  | O => []
  | S n' =>
    if (m <=? months p)%Z then
      let pt := snapshot m b in
      if (m =? months p)%Z then [pt]
      else
        let b' := advance (timing p) (realMonthlyRate p) b (contributionReal pt) in
        if negb (Number_isFinite b') then [pt]
        else pt :: simulate_loop n' (m + 1) b'
    else []
  end.

(** The running balance after [k] periods, when no check stops the loop. *)
Fixpoint balance_at (k : nat) : num :=
  match k with
  | O => Math_max 0 (pvToday p)
  | S k' =>
    advance (timing p) (realMonthlyRate p) (balance_at k')
      (contributionReal (snapshot (Z.of_nat k') (balance_at k')))
  end.

Definition simulateProjection : list SimulationPoint :=
  simulate_loop (Z.to_nat (months p + 1)) 0 (Math_max 0 (pvToday p)).

(** [pts.length ? pts[pts.length - 1].balanceReal : NaN] *)
Definition finalBalanceReal : num :=
  match simulateProjection with
  | [] => nan
  | pt :: pts => balanceReal (last pts pt)
  end.
End Simulate.

Section MonthsToTarget.
Variable q : TargetParams.

(** The real contribution of period [m], from the factor of [m - 1]. *)
Definition target_contribution (m : Z) : num :=
  let inflFactorPrev := Math_pow (1 + t_inflationMonthlyRate q) (m - 1) in
  match t_indexation q with
  | inflationAdjusted => t_pmt0 q
  | fixedNominal => t_pmt0 q / inflFactorPrev
  end.

(** [for (let m = 1; m <= maxMonths; m++) { ... }], [n] iterations left. *)
Fixpoint target_loop (maxMonths : Z) (n : nat) (m : Z) (b : num) : option Z :=
  match n with
  | O => None
  | S n' =>
    if (m <=? maxMonths)%Z then
      let b' := advance (t_timing q) (t_realMonthlyRate q) b (target_contribution m) in
      if negb (Number_isFinite b') then None
      else if t_targetToday q <=? b' then Some m
      else target_loop maxMonths n' (m + 1) b'
    else None
  end.

(** The running balance after [k] periods, when no check stops the loop. *)
Fixpoint target_balance_at (k : nat) : num :=
  match k with
  | O => Math_max 0 (t_pvToday q)
  | S k' =>
    advance (t_timing q) (t_realMonthlyRate q) (target_balance_at k')
      (target_contribution (Z.of_nat k' + 1))
  end.

Definition monthsToTarget : option Z :=
  let maxMonths := match t_maxMonths q with Some k => k | None => 2400%Z end in
  if t_targetToday q <=? t_pvToday q then Some 0%Z
  else target_loop maxMonths (Z.to_nat maxMonths) 1 (Math_max 0 (t_pvToday q)).
End MonthsToTarget.

Section Solve.
Variable s : SolveParams.

Definition reaches (c : num) : bool :=
  let e := finalBalanceReal (with_pmt0 s c) in
  Number_isFinite e && (s_targetToday s <=? e).

(** [while (!reaches(high) && guard < 60) { high *= 2; if (high > 1e9)
    return null; guard++; }], with [n = 60 - guard]; [None] is the
    [return null]. *)
Fixpoint bracket (n : nat) (high : num) : option num :=
  match n with
  | O => Some high
  | S n' =>
    if negb (reaches high) then
      let high' := high * 2 in
      if 1e9 <? high' then None else bracket n' high'
    else Some high
  end.

(** [for (let i = 0; i < 70; i++) { ... }], [n = 70 - i]. *)
Fixpoint bisect (n : nat) (low high : num) : num * num :=
  match n with
  | O => (low, high)
  | S n' =>
    let mid := (low + high) / 2 in
    if reaches mid then bisect n' low mid else bisect n' mid high
  end.

Definition initial_high : num :=
  Math_max 1 ((s_targetToday s - s_pvToday s) / Z2num (s_months s)).

Definition solveRequiredPmt : option num :=
  if (s_months s <=? 0)%Z then None
  else if s_targetToday s <=? s_pvToday s then Some 0
  else
    match bracket 60 initial_high with
    | None => None
    | Some high => Some (Math_max 0 (snd (bisect 70 0 high)))
    end.
End Solve.

End Engine.

(** * Auxiliary definitions of the statements *)

(** A reference [Math.pow] for integral exponents, by repeated
    multiplication: exact at the exponents 0 and 1, as every engine is, and
    within rounding of the engines' results beyond. *)
Fixpoint pow_nat (b : num) (n : nat) : num :=
  match n with
  | O => 1
  | S n' => pow_nat b n' * b
  end.

Definition pow_ref (b : num) (m : Z) : num :=
  if (m <? 0)%Z then 1 / pow_nat b (Z.to_nat (- m)) else pow_nat b (Z.to_nat m).

(** [{ ...p, pmt0: c }] *)
Definition set_pmt0 (p : SimParams) (c : num) : SimParams :=
  mkSimParams (pvToday p) c (months p) (ageNow p) (realMonthlyRate p)
    (inflationMonthlyRate p) (indexation p) (timing p).

(** [{ ...p, pvToday: v }] *)
Definition set_pvToday (p : SimParams) (v : num) : SimParams :=
  mkSimParams v (pmt0 p) (months p) (ageNow p) (realMonthlyRate p)
    (inflationMonthlyRate p) (indexation p) (timing p).

(** [{ ...q, maxMonths: cap }] *)
Definition set_maxMonths (q : TargetParams) (cap : option Z) : TargetParams :=
  mkTargetParams (t_pvToday q) (t_pmt0 q) (t_targetToday q) (t_ageNow q)
    (t_realMonthlyRate q) (t_inflationMonthlyRate q) (t_indexation q)
    (t_timing q) cap.

(** The [maxMonths] in force: [params.maxMonths ?? 2400]. *)
Definition cap_of (q : TargetParams) : Z :=
  match t_maxMonths q with Some k => k | None => 2400%Z end.

(** The balances of the horizon solver as the specification words them
    under [fixedNominal]: period [m >= 1] adds [pmt0] deflated by the
    inflation factor of the period before, [(1 + inflation)^(m - 1)]. *)
Fixpoint offset_balance (Math_pow : num -> Z -> num) (q : TargetParams)
    (k : nat) : num :=
  match k with
  | O => Math_max 0 (t_pvToday q)
  | S k' =>
    let m := (Z.of_nat k' + 1)%Z in
    advance (t_timing q) (t_realMonthlyRate q) (offset_balance Math_pow q k')
      (t_pmt0 q / Math_pow (1 + t_inflationMonthlyRate q) (m - 1)%Z)
  end.

(** The projection over [m] months with the parameters of a horizon query. *)
Definition projection_of (q : TargetParams) (m : Z) : SimParams :=
  mkSimParams (t_pvToday q) (t_pmt0 q) m (t_ageNow q) (t_realMonthlyRate q)
    (t_inflationMonthlyRate q) (t_indexation q) (t_timing q).

(** The horizon query with the parameters of a contribution query, the
    contribution [c] and the horizon as the cap. *)
Definition horizon_query (s : SolveParams) (c : num) : TargetParams :=
  mkTargetParams (s_pvToday s) c (s_targetToday s) (s_ageNow s)
    (s_realMonthlyRate s) (s_inflationMonthlyRate s) (s_indexation s)
    (s_timing s) (Some (s_months s)).

(** [{ ...p, months: m }] *)
Definition set_months (p : SimParams) (m : Z) : SimParams :=
  mkSimParams (pvToday p) (pmt0 p) m (ageNow p) (realMonthlyRate p)
    (inflationMonthlyRate p) (indexation p) (timing p).

(** [{ ...q, pmt0: c }] *)
Definition set_t_pmt0 (q : TargetParams) (c : num) : TargetParams :=
  mkTargetParams (t_pvToday q) c (t_targetToday q) (t_ageNow q)
    (t_realMonthlyRate q) (t_inflationMonthlyRate q) (t_indexation q)
    (t_timing q) (t_maxMonths q).

(** The characters of a text that [parseNumberBR] reads: digits, commas and
    hyphens. *)
Definition significant (c : code_unit) : bool :=
  is_digit c || (c =? 44)%N || (c =? 45)%N.

(** The digits and hyphens of a text, in order. *)
Definition digits_and_hyphens (s : jsstring) : jsstring :=
  filter (fun c => is_digit c || (c =? 45)%N) s.

(** A reference for [Math.pow (b, 1 / 12)], the one fractional power the
    source takes: the twelfth root of [b >= 0] by bisection between 0 and
    [max (1, b)]. *)
Fixpoint root_bisect (b : num) (n : nat) (lo hi : num) : num :=
  match n with
  | O => lo
  | S n' =>
    let mid := (lo + hi) / 2 in
    if pow_nat mid 12 <=? b then root_bisect b n' mid hi
    else root_bisect b n' lo mid
  end.

Definition twelfth_root (b : num) : num := root_bisect b 200 0 (Math_max 1 b).

Definition pow_frac_ref (b e : num) : num := twelfth_root b.

(** 1 after [k] rounds of halving. *)
Definition halved (k : nat) : num := Nat.iter k (fun x => x / 2) 1.

(** [high] after [k] rounds of [high *= 2]. *)
Definition doubled (k : nat) (high : num) : num := Nat.iter k (fun x => x * 2) high.

(** The tests' [toBeCloseTo (expected, 2)]: within half a unit of the
    second decimal. *)
Definition closeTo (received expected : num) : bool :=
  PrimFloat.abs (expected - received) <? 0.005.

(** ** Concrete inputs *)

(** The scenario of the test suite: 1000 today, 500 a month, two months. *)
Definition scenario : SimParams :=
  mkSimParams 1000 500 2 30 0.01 0.002 inflationAdjusted timingEnd.

(** A horizon of zero months with the target already met. *)
Definition met_no_horizon : SolveParams :=
  mkSolveParams 1000 500 0 30 0.005 0.002 inflationAdjusted timingEnd.

Definition met_target : TargetParams :=
  mkTargetParams 1000 100 500 30 0.005 0.002 fixedNominal timingBegin None.

(** The test suite's fixed-nominal run towards 5000. *)
Definition fixed_nominal_run : SimParams :=
  mkSimParams 0 100 3 25 0.01 0.002 fixedNominal timingBegin.

Definition fixed_nominal_target : TargetParams :=
  mkTargetParams 0 100 5000 25 0.01 0.002 fixedNominal timingBegin (Some 200%Z).

Definition met_solve : SolveParams :=
  mkSolveParams 1000 500 12 30 0.005 0.002 inflationAdjusted timingEnd.

(** The test suite's contribution query: from 5000 to 50000 in 120 months. *)
Definition solve_case : SolveParams :=
  mkSolveParams 5000 50000 120 30 0.005 0.002 inflationAdjusted timingEnd.

(** A target that the second [high], 2e12, would reach, beyond the
    ceiling of 1e9: half of every contribution is lost in the one month. *)
Definition beyond_ceiling : SolveParams :=
  mkSolveParams 0 1e12 1 30 (-0.5) 0.002 inflationAdjusted timingBegin.

(** The test suite's horizon query that finds no month within the cap. *)
Definition impossible_target : TargetParams :=
  mkTargetParams 0 10 10000000 25 0 0.01 fixedNominal timingEnd (Some 120%Z).

(** A horizon query under [inflationAdjusted]. *)
Definition adjusted_target : TargetParams :=
  mkTargetParams 1000 500 5000 30 0.01 0.002 inflationAdjusted timingEnd None.

(** Queries with a target that is not a number, and with a return that is
    not finite. *)
Definition nan_target : TargetParams :=
  mkTargetParams 0 100 nan 25 0.01 0.002 fixedNominal timingBegin None.

Definition nan_solve : SolveParams :=
  mkSolveParams 5000 nan 120 30 0.005 0.002 inflationAdjusted timingEnd.

Definition infinite_return : SolveParams :=
  mkSolveParams 5000 50000 120 30 infinity 0.002 inflationAdjusted timingEnd.

(** The texts [R$ 1.234] and [56]. *)
Definition text_reais : jsstring := [82; 36; 32; 49; 46; 50; 51; 52]%N.
Definition text_centavos : jsstring := [53; 54]%N.

(** An inflation of -50% a month over one month. *)
Definition deflation : SimParams :=
  mkSimParams 0 1 1 30 0 (-0.5) inflationAdjusted timingEnd.

(** A target beyond reach: every contribution is wiped out each month. *)
Definition wipeout : SolveParams :=
  mkSolveParams 0 1e300 1 30 (-1) 0.002 inflationAdjusted timingBegin.

(** A monthly return of -300%. *)
Definition negative_return : SimParams :=
  mkSimParams 0 1 2 30 (-3) 0 inflationAdjusted timingEnd.

(** ** The value of a binary64 number

    The specification of the primitive operations, [SpecFloat], computes
    on mantissas and exponents.  The definitions below give it a meaning
    in the reals: the value of a number, the position of a real between two
    consecutive mantissas, and what it is to be rounded to nearest. *)

#[local] Open Scope R_scope.

(** The power [2^e]. *)
Definition bpow (e : Z) : R := powerRZ 2 e.

Arguments bpow : simpl never.

(** A value [t] in the unit interval above [m], with round and sticky bits. *)
Definition inloc (t : R) (mrs : shr_record) : Prop :=
  (0 <= shr_m mrs)%Z /\
  IZR (shr_m mrs) <= t < IZR (shr_m mrs) + 1 /\
  (shr_r mrs = true <-> IZR (shr_m mrs) + /2 <= t) /\
  (shr_s mrs = false <-> (t = IZR (shr_m mrs) \/ t = IZR (shr_m mrs) + /2)).

Abbreviation fexp := (SpecFloat.fexp prec emax).

(** The position of [t] in the unit interval above [m]. *)
Definition located (t : R) (m : Z) (l : location) : Prop :=
  (0 <= m)%Z /\
  match l with
  | loc_Exact => t = IZR m
  | loc_Inexact Lt => IZR m < t < IZR m + /2
  | loc_Inexact Eq => t = IZR m + /2
  | loc_Inexact Gt => IZR m + /2 < t < IZR m + 1
  end.

Definition sgn (s : bool) : R := if s then -1 else 1.

(** The value of a number; an infinity counts as [2^1024], the first power
    of two beyond the finite range, which keeps the order. *)
Definition SF2R (x : spec_float) : R :=
  match x with
  | S754_finite s m e => sgn s * IZR (Z.pos m) * bpow e
  | S754_infinity s => sgn s * bpow 1024
  | _ => 0
  end.

(** [k * 2^E] is within half a unit of [v] at the exponent [E] that
    binary64 gives to [v]: [-1074] below [2^-1021] (subnormal), and
    otherwise the one that leaves 53 binary digits. *)
Definition Rnd (v : R) (k E : Z) : Prop :=
  (0 <= k)%Z /\ (-1074 <= E)%Z /\
  - /2 <= IZR k - v / bpow E <= /2 /\
  ((E = (-1074)%Z /\ v < bpow (-1021)) \/ bpow (E + 52) <= v < bpow (E + 53)).

(** The end of [binary_round_aux]: renormalise and test for overflow. *)
Definition finish (sx : bool) (k E : Z) : spec_float :=
  let '(mrs, e) := shr_fexp prec emax k E loc_Exact in
  match shr_m mrs with
  | Z0 => S754_zero sx
  | Zpos m => if Z.leb e (Z.sub emax prec) then S754_finite sx m e else S754_infinity sx
  | _ => S754_nan
  end.

(** The numbers of binary64 among the values of [spec_float]. *)
Definition valid (x : spec_float) : Prop := SpecFloat.valid_binary prec emax x = true.

(** The comparison of two positive finite numbers, as [SFcompare] makes it. *)
Definition mag_compare (m1 : positive) (e1 : Z) (m2 : positive) (e2 : Z) : comparison :=
  match Z.compare e1 e2 with
  | Lt => Lt
  | Gt => Gt
  | Eq => Pos.compare_cont Eq m1 m2
  end.

Definition cmp_prop (c : comparison) (a b : R) : Prop :=
  match c with Lt => a < b | Eq => a = b | Gt => b < a end.

(** [f] is the exact value [v] rounded to nearest, infinite when the
    rounded magnitude reaches [2^1024].  (Which neighbour a tie goes to is
    left open: the order does not depend on it.) *)
Definition rounded (v : R) (f : spec_float) : Prop :=
  f <> S754_nan /\
  ((v = 0 /\ SF2R f = 0) \/
   (0 < v /\ exists k E, Rnd v k E /\ SF2R f = Rmin (IZR k * bpow E) (bpow 1024)) \/
   (v < 0 /\ exists k E, Rnd (- v) k E /\ SF2R f = - Rmin (IZR k * bpow E) (bpow 1024))).

(** Zero or finite: what [Number.isFinite] accepts. *)
Definition is_fin (x : spec_float) : bool :=
  match x with S754_zero _ | S754_finite _ _ _ => true | _ => false end.

(** The value of a primitive float. *)
Definition F2R (x : float) : R := SF2R (Prim2SF x).

#[local] Close Scope R_scope.

(** * Binary64 arithmetic: rounding to nearest keeps the order *)

Section Binary64.
#[local] Open Scope R_scope.

Lemma bpow_pos e : 0 < bpow e.
Proof. apply powerRZ_lt; lra. Qed.

Lemma bpow_add a b : bpow (a + b) = bpow a * bpow b.
Proof. apply powerRZ_add; lra. Qed.

Lemma bpow_0 : bpow 0 = 1.
Proof. reflexivity. Qed.

Lemma bpow_1 : bpow 1 = 2.
Proof. unfold bpow; simpl; lra. Qed.

Lemma bpow_succ e : bpow (e + 1) = 2 * bpow e.
Proof. rewrite bpow_add, bpow_1; lra. Qed.

Lemma bpow_IZR (n : Z) : (0 <= n)%Z -> bpow n = IZR (2 ^ n).
Proof.
  intros Hn. pattern n. apply natlike_ind; auto.
  intros x Hx IH. unfold Z.succ. rewrite bpow_succ, IH, Z.pow_add_r by lia.
  rewrite mult_IZR. change (2 ^ 1)%Z with 2%Z. lra.
Qed.

Lemma bpow_ge_1 n : (0 <= n)%Z -> 1 <= bpow n.
Proof.
  intros Hn. rewrite bpow_IZR by auto. apply IZR_le.
  assert (0 < 2 ^ n)%Z by (apply Z.pow_pos_nonneg; lia). lia.
Qed.

Lemma bpow_le a b : (a <= b)%Z -> bpow a <= bpow b.
Proof.
  intros H. replace b with (a + (b - a))%Z by lia. rewrite bpow_add.
  pose proof (bpow_pos a). pose proof (bpow_ge_1 (b - a) ltac:(lia)). nra.
Qed.

Lemma bpow_lt a b : (a < b)%Z -> bpow a < bpow b.
Proof.
  intros H. apply Rlt_le_trans with (bpow (a + 1)).
  - rewrite bpow_succ. pose proof (bpow_pos a). lra.
  - apply bpow_le. lia.
Qed.

Lemma bpow_lt_inv a b : bpow a < bpow b -> (a < b)%Z.
Proof.
  intros H. destruct (Z_lt_le_dec a b) as [|Hle]; auto.
  apply bpow_le in Hle. lra.
Qed.

(** Number of binary digits. *)
Lemma digits2_pos_size p : digits2_pos p = Pos.size p.
Proof. induction p; simpl; congruence. Qed.

Lemma digits2_bounds p :
  bpow (Z.pos (digits2_pos p) - 1) <= IZR (Z.pos p) < bpow (Z.pos (digits2_pos p)).
Proof.
  rewrite digits2_pos_size.
  pose proof (Pos.size_gt p) as Hgt. pose proof (Pos.size_le p) as Hle.
  assert (Hp : (2 ^ Z.pos (Pos.size p) <= 2 * Z.pos p)%Z).
  { rewrite <- Pos2Z.inj_pow. apply Pos2Z.pos_le_pos in Hle. exact Hle. }
  assert (Hq : (Z.pos p < 2 ^ Z.pos (Pos.size p))%Z).
  { rewrite <- Pos2Z.inj_pow. apply Pos2Z.pos_lt_pos in Hgt. exact Hgt. }
  clear Hgt Hle. generalize dependent (Pos.size p). intros d Hp Hq.
  split.
  - assert (H2 : 2 * bpow (Z.pos d - 1) = bpow (Z.pos d)).
    { rewrite <- bpow_succ. f_equal. lia. }
    rewrite (bpow_IZR (Z.pos d)) in H2 by lia. apply IZR_le in Hp. rewrite mult_IZR in Hp. lra.
  - rewrite bpow_IZR by lia. now apply IZR_lt.
Qed.

Lemma Zdigits2_bounds m : (0 < m)%Z ->
  bpow (Zdigits2 m - 1) <= IZR m < bpow (Zdigits2 m).
Proof. destruct m; try lia. intros _. apply digits2_bounds. Qed.

Lemma shr_1_inloc t mrs : inloc t mrs -> inloc (t / 2) (shr_1 mrs).
Proof.
  destruct mrs as [m r s]. unfold inloc. simpl. intros (Hm & Ht & Hr & Hs).
  assert (Hrs : orb r s = false <-> t = IZR m).
  { destruct r, s; simpl; split; intros H; try discriminate; auto.
    - exfalso. assert (true = false) by (apply Hs; auto). discriminate.
    - exfalso. assert (IZR m + / 2 <= t) by (apply Hr; auto). lra.
    - exfalso. assert (true = false) by (apply Hs; auto). discriminate.
    - destruct Hs as [Hs _]. destruct (Hs eq_refl) as [E|E]; auto.
      exfalso. assert (false = true) by (apply Hr; lra). discriminate. }
  assert (E1 : forall p, IZR (Z.pos p~1) = 2 * IZR (Z.pos p) + 1).
  { intros p. change (Z.pos p~1) with (2 * Z.pos p + 1)%Z. rewrite plus_IZR, mult_IZR. lra. }
  assert (E0 : forall p, IZR (Z.pos p~0) = 2 * IZR (Z.pos p)).
  { intros p. change (Z.pos p~0) with (2 * Z.pos p)%Z. rewrite mult_IZR. lra. }
  clear Hr Hs.
  destruct m as [|[p|p|]|p]; try lia; simpl shr_m; simpl shr_r; simpl shr_s;
    try rewrite E1 in *; try rewrite E0 in *;
    (split; [lia|]); (split; [lra|]); split; split;
    try (intros; reflexivity); try (intros; discriminate);
    try (intros; lra);
    try (intros H; apply Hrs in H; ((left; lra) || (right; lra)));
    try (intros [H|H]; first [apply Hrs; lra | exfalso; lra]).
Qed.

Lemma iter_pos_shr_1_inloc n : forall t mrs,
  inloc t mrs -> inloc (t / bpow (Z.pos n)) (SpecFloat.iter_pos shr_1 n mrs).
Proof.
  induction n as [n IH|n IH|]; intros t mrs H; simpl SpecFloat.iter_pos.
  - apply shr_1_inloc in H. apply IH in H. apply IH in H.
    replace (t / bpow (Z.pos n~1)) with (t / 2 / bpow (Z.pos n) / bpow (Z.pos n)); auto.
    replace (Z.pos n~1) with (Z.pos n + Z.pos n + 1)%Z by lia. rewrite !bpow_add, bpow_1.
    pose proof (bpow_pos (Z.pos n)). field. lra.
  - apply IH in H. apply IH in H.
    replace (t / bpow (Z.pos n~0)) with (t / bpow (Z.pos n) / bpow (Z.pos n)); auto.
    replace (Z.pos n~0) with (Z.pos n + Z.pos n)%Z by lia. rewrite !bpow_add.
    pose proof (bpow_pos (Z.pos n)). field. lra.
  - apply shr_1_inloc in H. now rewrite bpow_1.
Qed.

Lemma fexp_eq e : fexp e = Z.max (e - 53) (-1074).
Proof. reflexivity. Qed.

Lemma located_inloc t m l : located t m l -> inloc t (shr_record_of_loc m l).
Proof.
  intros [Hm Hl]. unfold inloc.
  destruct l as [|[| |]]; simpl; (split; [lia|]); (split; [lra|]); split; split;
    try (intros; reflexivity); try (intros; discriminate); try (intros; lra);
    try (intros; left; lra); try (intros; right; lra);
    try (intros [H|H]; exfalso; lra).
Qed.

Lemma inloc_located t mrs : inloc t mrs -> located t (shr_m mrs) (loc_of_shr_record mrs).
Proof.
  destruct mrs as [m r s]. unfold inloc, located. simpl. intros (Hm & Ht & Hr & Hs).
  split; auto.
  destruct r, s.
  - assert (IZR m + /2 <= t) by (apply Hr; auto).
    destruct (Req_dec t (IZR m + /2)) as [E|E].
    + assert (true = false) by (apply Hs; auto). discriminate.
    + lra.
  - assert (IZR m + /2 <= t) by (apply Hr; auto).
    destruct Hs as [Hs _]. destruct (Hs eq_refl); lra.
  - destruct (Rle_dec (IZR m + /2) t) as [E|E].
    + assert (false = true) by (apply Hr; auto). discriminate.
    + destruct (Req_dec t (IZR m)) as [E'|E'].
      * assert (true = false) by (apply Hs; auto). discriminate.
      * lra.
  - destruct Hs as [Hs _]. destruct (Hs eq_refl) as [E|E]; auto.
    assert (false = true) by (apply Hr; lra). discriminate.
Qed.

Lemma round_nearest_even_spec t m l : located t m l ->
  (0 <= round_nearest_even m l)%Z /\
  - /2 <= IZR (round_nearest_even m l) - t <= /2.
Proof.
  intros [Hm Hl]. destruct l as [|[| |]]; simpl.
  - split; [lia|lra].
  - destruct (Z.even m); [split; [lia|lra]|]. rewrite plus_IZR. split; [lia|lra].
  - split; [lia|lra].
  - rewrite plus_IZR. split; [lia|lra].
Qed.

Lemma shr_inloc t mrs e n : inloc t mrs ->
  snd (shr mrs e n) = (e + Z.max n 0)%Z /\
  inloc (t / bpow (Z.max n 0)) (fst (shr mrs e n)).
Proof.
  intros H. destruct n as [|p|p]; unfold shr; cbn [fst snd].
  - split; [lia|]. change (Z.max 0 0) with 0%Z. rewrite bpow_0.
    now replace (t / 1) with t by field.
  - split; [lia|]. replace (Z.max (Z.pos p) 0) with (Z.pos p) by lia.
    now apply iter_pos_shr_1_inloc.
  - split; [lia|]. change (Z.max (Z.neg p) 0) with 0%Z. rewrite bpow_0.
    now replace (t / 1) with t by field.
Qed.

Lemma shr_nonpos mrs e n : (n <= 0)%Z -> shr mrs e n = (mrs, e).
Proof. destruct n; try reflexivity. lia. Qed.

Lemma bpow_53 : bpow 53 = IZR (2 ^ 53).
Proof. apply bpow_IZR. lia. Qed.

Lemma bpow_52 : bpow 52 = IZR (2 ^ 52).
Proof. apply bpow_IZR. lia. Qed.

Lemma finish_spec sx k E :
  (0 <= k <= 2 ^ 53)%Z -> (-1074 <= E)%Z -> ((972 <= E)%Z -> (2 ^ 52 <= k)%Z) ->
  finish sx k E <> S754_nan /\
  SF2R (finish sx k E) = sgn sx * Rmin (IZR k * bpow E) (bpow 1024).
Proof.
  intros Hk HE Hbig. unfold finish, shr_fexp.
  assert (H1024 : forall e, (e <= 971)%Z -> bpow 53 * bpow e <= bpow 1024).
  { intros e He. rewrite <- bpow_add. apply bpow_le. lia. }
  assert (H1024' : forall e, (972 <= e)%Z -> bpow 1024 <= bpow 52 * bpow e).
  { intros e He. rewrite <- bpow_add. apply bpow_le. lia. }
  destruct (Z.eq_dec k 0) as [->|Hk0].
  { rewrite shr_nonpos by (simpl Zdigits2; rewrite fexp_eq; lia). simpl.
    split; [discriminate|]. rewrite Rmin_left; [lra|].
    pose proof (bpow_pos 1024). lra. }
  destruct (Z.eq_dec k (2 ^ 53)) as [->|Hk53].
  { replace (fexp (Zdigits2 (2 ^ 53) + E) - E)%Z with 1%Z
      by (change (Zdigits2 (2 ^ 53)) with 54%Z; rewrite fexp_eq; lia).
    cbn -[bpow Z.add IZR]. change (emax - prec)%Z with 971%Z.
    change (IZR 9007199254740992) with (IZR (2 ^ 53)). rewrite <- bpow_53.
    assert (E53 : bpow 53 = 2 * bpow 52) by (rewrite <- bpow_succ; reflexivity).
    destruct (Z.leb_spec (E + 1) 971) as [Hle|Hgt].
    - split; [discriminate|]. cbn [SF2R].
      rewrite Rmin_left.
      + rewrite bpow_succ. change (IZR 4503599627370496) with (IZR (2 ^ 52)).
        rewrite <- bpow_52. rewrite E53. ring.
      + apply H1024. lia.
    - split; [discriminate|]. cbn [SF2R]. rewrite Rmin_right; [reflexivity|].
      rewrite <- bpow_add. apply bpow_le. lia. }
  assert (Hd : (Zdigits2 k <= 53)%Z).
  { pose proof (Zdigits2_bounds k ltac:(lia)) as [Hlo _].
    assert (IZR k < bpow 53) by (rewrite bpow_53; apply IZR_lt; lia).
    assert (bpow (Zdigits2 k - 1) < bpow 53) by lra.
    apply bpow_lt_inv in H0. lia. }
  rewrite shr_nonpos by (rewrite fexp_eq; lia).
  destruct k as [|p|p]; try lia. cbn [shr_record_of_loc shr_m].
  assert (Hp : IZR (Z.pos p) < bpow 53) by (rewrite bpow_53; apply IZR_lt; lia).
  assert (Hp0 : 0 < IZR (Z.pos p)) by (apply IZR_lt; lia).
  pose proof (bpow_pos E).
  destruct (Z.leb_spec E (emax - prec)) as [Hle|Hgt]; change (emax - prec)%Z with 971%Z in *.
  - split; [discriminate|]. cbn [SF2R]. rewrite Rmin_left; [ring|].
    specialize (H1024 E Hle). nra.
  - split; [discriminate|]. cbn [SF2R]. rewrite Rmin_right; [reflexivity|].
    specialize (H1024' E ltac:(lia)).
    assert (bpow 52 <= IZR (Z.pos p)) by (rewrite bpow_52; apply IZR_le; lia).
    nra.
Qed.

Lemma div_lt_bpow v E a : v < bpow (E + a) -> v / bpow E < bpow a.
Proof.
  intros H. rewrite bpow_add in H. pose proof (bpow_pos E).
  apply Rmult_lt_reg_r with (bpow E); auto.
  replace (v / bpow E * bpow E) with v by (field; lra). lra.
Qed.

Lemma div_ge_bpow v E a : bpow (E + a) <= v -> bpow a <= v / bpow E.
Proof.
  intros H. rewrite bpow_add in H. pose proof (bpow_pos E).
  apply Rmult_le_reg_r with (bpow E); auto.
  replace (v / bpow E * bpow E) with v by (field; lra). lra.
Qed.

Lemma binary_round_aux_finish sx mx ex lx :
  binary_round_aux prec emax sx mx ex lx =
  finish sx
    (round_nearest_even (shr_m (fst (shr_fexp prec emax mx ex lx)))
       (loc_of_shr_record (fst (shr_fexp prec emax mx ex lx))))
    (snd (shr_fexp prec emax mx ex lx)).
Proof.
  unfold binary_round_aux, finish.
  destruct (shr_fexp prec emax mx ex lx) as [mrs e]. reflexivity.
Qed.

Lemma located_bounds t m l : located t m l -> IZR m <= t < IZR m + 1.
Proof. intros H. apply located_inloc in H. destruct H as (_ & H & _).
  now destruct l as [|[| |]]. Qed.

Lemma Rnd_bounds v k E : Rnd v k E ->
  (k <= 2 ^ 53)%Z /\ ((972 <= E)%Z -> (2 ^ 52 <= k)%Z).
Proof.
  intros (Hk0 & HE & Hk & Hbr).
  assert (Hlt : v / bpow E < bpow 53).
  { apply div_lt_bpow. destruct Hbr as [[-> H]|H]; [exact H|apply H]. }
  split.
  - rewrite bpow_53 in Hlt.
    assert (IZR k < IZR (2 ^ 53 + 1)) by (rewrite plus_IZR; lra).
    apply lt_IZR in H. lia.
  - intros Hbig. destruct Hbr as [[-> H]|[H _]]; [lia|].
    apply div_ge_bpow in H. rewrite bpow_52 in H.
    assert (IZR (2 ^ 52 - 1) < IZR k) by (rewrite minus_IZR; lra).
    apply lt_IZR in H0. lia.
Qed.

Lemma binary_round_aux_spec sx mx ex lx t :
  located t mx lx -> (ex <= fexp (Zdigits2 mx + ex))%Z ->
  exists k E, Rnd (t * bpow ex) k E /\
    binary_round_aux prec emax sx mx ex lx <> S754_nan /\
    SF2R (binary_round_aux prec emax sx mx ex lx)
    = sgn sx * Rmin (IZR k * bpow E) (bpow 1024).
Proof.
  intros Hloc Hpre. rewrite binary_round_aux_finish. unfold shr_fexp.
  set (n := (fexp (Zdigits2 mx + ex) - ex)%Z).
  destruct (shr_inloc t _ ex n (located_inloc _ _ _ Hloc)) as [He Hin].
  replace (Z.max n 0) with n in * by lia.
  rewrite He.
  apply inloc_located in Hin. apply round_nearest_even_spec in Hin as [Hk0 Hk].
  set (k := round_nearest_even _ _) in *.
  set (E := (ex + n)%Z).
  assert (HE : E = fexp (Zdigits2 mx + ex)) by (unfold E, n; lia).
  assert (Hmin : (-1074 <= E)%Z) by (rewrite HE, fexp_eq; lia).
  assert (Hv : t / bpow n = t * bpow ex / bpow E).
  { unfold E. rewrite bpow_add. pose proof (bpow_pos ex). pose proof (bpow_pos n).
    field. lra. }
  rewrite Hv in Hk.
  assert (HR : Rnd (t * bpow ex) k E).
  { split; [exact Hk0|]. split; [exact Hmin|]. split; [exact Hk|].
    pose proof (located_bounds _ _ _ Hloc) as Ht. destruct Hloc as [Hm _].
    pose proof (bpow_pos ex) as Hex.
    destruct (Z.eq_dec mx 0) as [->|Hm0].
    - left. simpl Zdigits2 in *. rewrite fexp_eq in HE, Hpre.
      split; [lia|].
      assert (bpow ex <= bpow (-1074)) by (apply bpow_le; lia).
      assert (bpow (-1074) < bpow (-1021)) by (apply bpow_lt; lia).
      simpl in Ht. nra.
    - pose proof (Zdigits2_bounds mx ltac:(lia)) as [Hlo Hhi].
      assert (Hd : (0 < Zdigits2 mx)%Z) by (destruct mx; simpl; lia).
      assert (Hhi' : IZR mx + 1 <= bpow (Zdigits2 mx)).
      { rewrite bpow_IZR in * by lia. apply lt_IZR in Hhi.
        rewrite <- plus_IZR. apply IZR_le. lia. }
      assert (H1 : bpow (Zdigits2 mx - 1 + ex) <= t * bpow ex) by (rewrite bpow_add; nra).
      assert (H2 : t * bpow ex < bpow (Zdigits2 mx + ex)) by (rewrite bpow_add; nra).
      rewrite fexp_eq in HE.
      destruct (Z_le_gt_dec (-1074) (Zdigits2 mx + ex - 53)).
      + right. replace (E + 52)%Z with (Zdigits2 mx - 1 + ex)%Z by lia.
        replace (E + 53)%Z with (Zdigits2 mx + ex)%Z by lia. lra.
      + left. split; [lia|].
        assert (bpow (Zdigits2 mx + ex) <= bpow (-1021)) by (apply bpow_le; lia). lra. }
  exists k, E. split; [exact HR|].
  apply Rnd_bounds in HR as [Hk53 Hbig].
  apply finish_spec; auto; lia.
Qed.

(** ** Valid numbers and their order *)

Lemma valid_finite s m e : valid (S754_finite s m e) ->
  (-1074 <= e <= 971)%Z /\ IZR (Z.pos m) < bpow 53 /\
  (e = (-1074)%Z \/ bpow 52 <= IZR (Z.pos m)).
Proof.
  unfold valid, SpecFloat.valid_binary, SpecFloat.bounded, canonical_mantissa.
  intros H. apply andb_true_iff in H as [Hc He].
  apply Z.eqb_eq in Hc. apply Z.leb_le in He. change (emax - prec)%Z with 971%Z in He.
  rewrite fexp_eq in Hc.
  pose proof (digits2_bounds m) as [Hlo Hhi].
  split; [lia|]. split.
  - apply Rlt_le_trans with (1 := Hhi). apply bpow_le. lia.
  - destruct (Z.eq_dec e (-1074)) as [|Hne]; [now left|right].
    apply Rle_trans with (2 := Hlo). apply bpow_le. lia.
Qed.

Lemma valid_finite_pos s m e : valid (S754_finite s m e) ->
  0 < IZR (Z.pos m) * bpow e < bpow 1024.
Proof.
  intros H. apply valid_finite in H as (He & Hm & _).
  assert (0 < IZR (Z.pos m)) by (apply IZR_lt; lia).
  pose proof (bpow_pos e).
  assert (bpow 53 * bpow e <= bpow 1024) by (rewrite <- bpow_add; apply bpow_le; lia).
  split; nra.
Qed.

Lemma mag_lt m1 e1 m2 e2 :
  valid (S754_finite false m1 e1) -> valid (S754_finite false m2 e2) ->
  (e1 < e2)%Z -> IZR (Z.pos m1) * bpow e1 < IZR (Z.pos m2) * bpow e2.
Proof.
  intros H1 H2 He. apply valid_finite in H1 as (He1 & Hm1 & _).
  apply valid_finite in H2 as (He2 & _ & [Hm2|Hm2]); [lia|].
  pose proof (bpow_pos e1). pose proof (bpow_pos e2).
  assert (bpow 53 * bpow e1 <= bpow 52 * bpow e2)
    by (rewrite <- !bpow_add; apply bpow_le; lia).
  nra.
Qed.

Lemma mag_compare_spec m1 e1 m2 e2 :
  valid (S754_finite false m1 e1) -> valid (S754_finite false m2 e2) ->
  cmp_prop (mag_compare m1 e1 m2 e2) (IZR (Z.pos m1) * bpow e1) (IZR (Z.pos m2) * bpow e2).
Proof.
  intros H1 H2. unfold mag_compare.
  destruct (Z.compare_spec e1 e2) as [->|Hlt|Hgt].
  - change (Pos.compare_cont Eq m1 m2) with (Pos.compare m1 m2).
    pose proof (bpow_pos e2).
    destruct (Pos.compare_spec m1 m2) as [->|Hlt|Hgt]; simpl.
    + reflexivity.
    + assert (IZR (Z.pos m1) < IZR (Z.pos m2)) by (apply IZR_lt; lia). nra.
    + assert (IZR (Z.pos m2) < IZR (Z.pos m1)) by (apply IZR_lt; lia). nra.
  - simpl. now apply mag_lt.
  - simpl. now apply mag_lt.
Qed.

Lemma SFcompare_spec x y : valid x -> valid y -> x <> S754_nan -> y <> S754_nan ->
  exists c, SFcompare x y = Some c /\ cmp_prop c (SF2R x) (SF2R y).
Proof.
  intros Hx Hy Nx Ny.
  pose proof (bpow_pos 1024) as HB.
  destruct x as [sx|sx| |sx mx ex]; try congruence;
  destruct y as [sy|sy| |sy my ey]; try congruence;
  try (pose proof (valid_finite_pos _ _ _ Hx)); try (pose proof (valid_finite_pos _ _ _ Hy));
  try (destruct sx); try (destruct sy); cbn [SFcompare SF2R sgn];
  try (eexists; split; [reflexivity|cbn [cmp_prop]; lra]).
  - pose proof (mag_compare_spec mx ex my ey Hx Hy) as H1. unfold mag_compare in H1.
    eexists; split; [reflexivity|].
    destruct (Z.compare ex ey); [destruct (Pos.compare_cont Eq mx my)| |];
      cbn [cmp_prop CompOpp] in *; lra.
  - pose proof (mag_compare_spec mx ex my ey Hx Hy) as H1. unfold mag_compare in H1.
    eexists; split; [reflexivity|].
    destruct (Z.compare ex ey); [destruct (Pos.compare_cont Eq mx my)| |];
      cbn [cmp_prop CompOpp] in *; lra.
Qed.

Lemma SFleb_spec x y : valid x -> valid y -> x <> S754_nan -> y <> S754_nan ->
  (SFleb x y = true <-> SF2R x <= SF2R y).
Proof.
  intros Hx Hy Nx Ny. destruct (SFcompare_spec x y Hx Hy Nx Ny) as (c & Hc & Hp).
  unfold SFleb. rewrite Hc. destruct c; cbn [cmp_prop] in Hp; split; intros; try lra;
    auto; try discriminate.
Qed.

Lemma SFltb_spec x y : valid x -> valid y -> x <> S754_nan -> y <> S754_nan ->
  (SFltb x y = true <-> SF2R x < SF2R y).
Proof.
  intros Hx Hy Nx Ny. destruct (SFcompare_spec x y Hx Hy Nx Ny) as (c & Hc & Hp).
  unfold SFltb. rewrite Hc. destruct c; cbn [cmp_prop] in Hp; split; intros; try lra;
    auto; try discriminate.
Qed.

(** ** Rounding to nearest preserves the order *)

Lemma Rnd_normal v k E : Rnd v k E -> (-1074 < E)%Z -> (2 ^ 52 <= k)%Z.
Proof.
  intros (Hk0 & HE & Hk & Hbr) Hbig. destruct Hbr as [[-> H]|[H _]]; [lia|].
  apply div_ge_bpow in H. rewrite bpow_52 in H.
  assert (IZR (2 ^ 52 - 1) < IZR k) by (rewrite minus_IZR; lra).
  apply lt_IZR in H0. lia.
Qed.

Lemma Rnd_upper v k E : Rnd v k E -> v < bpow (E + 53).
Proof. intros (_ & _ & _ & [[-> H]|[_ H]]); exact H. Qed.

Lemma Rnd_mono v1 k1 E1 v2 k2 E2 :
  Rnd v1 k1 E1 -> Rnd v2 k2 E2 -> v1 < v2 ->
  IZR k1 * bpow E1 <= IZR k2 * bpow E2.
Proof.
  intros H1 H2 Hv.
  assert (HE : (E1 <= E2)%Z).
  { destruct (Z_le_gt_dec E1 E2) as [|Hgt]; auto. exfalso.
    pose proof (Rnd_upper _ _ _ H2) as Hu.
    destruct H1 as (_ & HE1 & _ & [[-> _]|[Hl _]]).
    - destruct H2 as (_ & HE2 & _). lia.
    - assert (bpow (E2 + 53) <= bpow (E1 + 52)) by (apply bpow_le; lia). lra. }
  destruct (Z.eq_dec E1 E2) as [->|Hne].
  - pose proof (bpow_pos E2) as HbE.
    destruct H1 as (_ & _ & Hk1 & _). destruct H2 as (_ & _ & Hk2 & _).
    assert (v1 / bpow E2 < v2 / bpow E2).
    { unfold Rdiv. apply Rmult_lt_compat_r; auto. now apply Rinv_0_lt_compat. }
    assert (IZR k1 < IZR (k2 + 1)) by (rewrite plus_IZR; lra).
    apply lt_IZR in H0. assert (IZR k1 <= IZR k2) by (apply IZR_le; lia). nra.
  - pose proof (Rnd_normal _ _ _ H2 ltac:(destruct H1 as (_ & ? & _); lia)) as Hk2.
    pose proof (Rnd_bounds _ _ _ H1) as [Hk1 _].
    destruct H1 as (Hk10 & _). apply IZR_le in Hk1, Hk2, Hk10.
    rewrite <- bpow_53 in Hk1. rewrite <- bpow_52 in Hk2.
    pose proof (bpow_pos E1). pose proof (bpow_pos E2).
    assert (bpow 53 * bpow E1 <= bpow 52 * bpow E2)
      by (rewrite <- !bpow_add; apply bpow_le; lia).
    nra.
Qed.

Lemma Rnd_nonneg v k E : Rnd v k E -> 0 <= Rmin (IZR k * bpow E) (bpow 1024).
Proof.
  intros (Hk & _). apply IZR_le in Hk. pose proof (bpow_pos E). pose proof (bpow_pos 1024).
  apply Rmin_glb; nra.
Qed.

Lemma rounded_mono v1 f1 v2 f2 :
  rounded v1 f1 -> rounded v2 f2 -> v1 < v2 -> SF2R f1 <= SF2R f2.
Proof.
  intros [_ H1] [_ H2] Hv.
  destruct H1 as [[Hv1 ->]|[(Hv1 & k1 & E1 & R1 & ->)|(Hv1 & k1 & E1 & R1 & ->)]];
  destruct H2 as [[Hv2 ->]|[(Hv2 & k2 & E2 & R2 & ->)|(Hv2 & k2 & E2 & R2 & ->)]];
  try lra;
  try (pose proof (Rnd_nonneg _ _ _ R1)); try (pose proof (Rnd_nonneg _ _ _ R2)); try lra.
  - apply Rle_min_compat_r. eapply Rnd_mono; eauto.
  - apply Ropp_le_contravar. apply Rle_min_compat_r. eapply Rnd_mono; eauto; lra.
Qed.

Lemma valid_Rnd s m e : valid (S754_finite s m e) ->
  Rnd (IZR (Z.pos m) * bpow e) (Z.pos m) e.
Proof.
  intros Hv. pose proof (valid_finite_pos _ _ _ Hv) as Hpos.
  pose proof (valid_finite _ _ _ Hv) as (He & Hm & Hn).
  pose proof (bpow_pos e) as Hbe.
  split; [lia|]. split; [lia|]. split.
  - replace (IZR (Z.pos m) * bpow e / bpow e) with (IZR (Z.pos m)) by (field; lra). lra.
  - destruct Hn as [->|Hn].
    + left. split; auto. change (-1021)%Z with (53 + -1074)%Z. rewrite bpow_add. nra.
    + right. rewrite !bpow_add. nra.
Qed.

Lemma valid_rounded x : valid x -> is_fin x = true -> rounded (SF2R x) x.
Proof.
  intros Hv Hf. destruct x as [s|s| |s m e]; try discriminate.
  - split; [discriminate|]. left. now split.
  - pose proof (valid_finite_pos _ _ _ Hv) as Hpos.
    pose proof (valid_Rnd _ _ _ Hv) as HR.
    assert (Hmin : Rmin (IZR (Z.pos m) * bpow e) (bpow 1024) = IZR (Z.pos m) * bpow e)
      by (apply Rmin_left; lra).
    split; [discriminate|]. destruct s; cbn [SF2R sgn].
    + right; right. split; [lra|]. exists (Z.pos m), e.
      replace (- (-1 * IZR (Z.pos m) * bpow e)) with (IZR (Z.pos m) * bpow e) by ring.
      split; auto. rewrite Hmin. ring.
    + right; left. split; [lra|]. exists (Z.pos m), e.
      replace (1 * IZR (Z.pos m) * bpow e) with (IZR (Z.pos m) * bpow e) by ring.
      split; auto.
Qed.

Lemma rounded_of_aux sx v f : 0 < v ->
  (exists k E, Rnd v k E /\ f <> S754_nan /\
     SF2R f = sgn sx * Rmin (IZR k * bpow E) (bpow 1024)) ->
  rounded (sgn sx * v) f.
Proof.
  intros Hv (k & E & HR & Hn & Hf). split; auto. destruct sx; cbn [sgn] in *.
  - right; right. split; [lra|]. exists k, E.
    replace (- (-1 * v)) with v by ring. split; auto. rewrite Hf. ring.
  - right; left. split; [lra|]. exists k, E.
    replace (1 * v) with v by ring. split; auto. rewrite Hf. ring.
Qed.

(** ** The operations round the exact result *)

Lemma iter_xO_val m d : Z.pos (Pos.iter xO m d) = (Z.pos m * 2 ^ Z.pos d)%Z.
Proof.
  induction d as [|d IH] using Pos.peano_ind.
  - simpl. lia.
  - rewrite Pos.iter_succ, Pos2Z.inj_xO, IH, Pos2Z.inj_succ, Z.pow_succ_r; lia.
Qed.

Lemma iter_xO_digits m d :
  Z.pos (digits2_pos (Pos.iter xO m d)) = (Z.pos (digits2_pos m) + Z.pos d)%Z.
Proof.
  induction d as [|d IH] using Pos.peano_ind.
  - simpl. lia.
  - rewrite Pos.iter_succ. simpl digits2_pos. rewrite Pos2Z.inj_succ, IH. lia.
Qed.

Lemma shl_align_spec mx ex e' :
  snd (shl_align mx ex e') = Z.min ex e' /\
  IZR (Z.pos (fst (shl_align mx ex e'))) * bpow (snd (shl_align mx ex e'))
    = IZR (Z.pos mx) * bpow ex /\
  (Z.pos (digits2_pos (fst (shl_align mx ex e'))) + snd (shl_align mx ex e')
    = Z.pos (digits2_pos mx) + ex)%Z.
Proof.
  unfold shl_align. destruct (e' - ex)%Z as [|d|d] eqn:Hd; cbn [fst snd].
  - split; [lia|]. split; auto.
  - split; [lia|]. split; auto.
  - split; [lia|]. split.
    + rewrite iter_xO_val, mult_IZR, <- bpow_IZR by lia.
      rewrite Rmult_assoc, <- bpow_add. do 2 f_equal. lia.
    + rewrite iter_xO_digits. lia.
Qed.

Lemma binary_round_rounded sx m e :
  rounded (sgn sx * (IZR (Z.pos m) * bpow e)) (binary_round prec emax sx m e).
Proof.
  unfold binary_round.
  pose proof (shl_align_spec m e (fexp (Z.pos (digits2_pos m) + e))) as (H1 & H2 & H3).
  destruct (shl_align m e (fexp (Z.pos (digits2_pos m) + e))) as [mz ez].
  cbn [fst snd] in *.
  assert (0 < IZR (Z.pos m)) by (apply IZR_lt; lia). pose proof (bpow_pos e).
  apply rounded_of_aux; [nra|]. rewrite <- H2.
  apply binary_round_aux_spec.
  - split; [lia|reflexivity].
  - cbn [Zdigits2]. rewrite H3. lia.
Qed.

Lemma binary_normalize_rounded m e sz :
  rounded (IZR m * bpow e) (binary_normalize prec emax m e sz).
Proof.
  destruct m as [|p|p]; cbn [binary_normalize].
  - split; [discriminate|]. left. split; [ring|reflexivity].
  - replace (IZR (Z.pos p) * bpow e) with (sgn false * (IZR (Z.pos p) * bpow e))
      by (cbn [sgn]; ring).
    apply binary_round_rounded.
  - replace (IZR (Z.neg p) * bpow e) with (sgn true * (IZR (Z.pos p) * bpow e)).
    + apply binary_round_rounded.
    + cbn [sgn]. change (Z.neg p) with (- Z.pos p)%Z. rewrite opp_IZR. ring.
Qed.

Lemma cond_Zopp_IZR s m : IZR (cond_Zopp s m) = sgn s * IZR m.
Proof. destruct s; cbn [cond_Zopp sgn]; [rewrite opp_IZR|]; ring. Qed.

Lemma SFadd_rounded x y : valid x -> valid y -> is_fin x = true -> is_fin y = true ->
  rounded (SF2R x + SF2R y) (SFadd prec emax x y).
Proof.
  intros Vx Vy Fx Fy.
  destruct x as [sx|sx| |sx mx ex]; try discriminate;
  destruct y as [sy|sy| |sy my ey]; try discriminate.
  - split; [destruct sx, sy; discriminate|]. left. cbn [SF2R]. split; [ring|].
    destruct sx, sy; reflexivity.
  - replace (SF2R (S754_zero sx) + SF2R (S754_finite sy my ey))
      with (SF2R (S754_finite sy my ey)) by (cbn [SF2R]; ring).
    now apply valid_rounded.
  - replace (SF2R (S754_finite sx mx ex) + SF2R (S754_zero sy))
      with (SF2R (S754_finite sx mx ex)) by (cbn [SF2R]; ring).
    now apply valid_rounded.
  - cbn [SFadd SF2R].
    pose proof (shl_align_spec mx ex (Z.min ex ey)) as (X1 & X2 & _).
    pose proof (shl_align_spec my ey (Z.min ex ey)) as (Y1 & Y2 & _).
    replace (Z.min ex (Z.min ex ey)) with (Z.min ex ey) in X1 by lia.
    replace (Z.min ey (Z.min ex ey)) with (Z.min ex ey) in Y1 by lia.
    rewrite X1 in X2. rewrite Y1 in Y2.
    match goal with |- rounded ?v (binary_normalize _ _ ?m ?e _) =>
      replace v with (IZR m * bpow e) end.
    + apply binary_normalize_rounded.
    + rewrite plus_IZR, !cond_Zopp_IZR. rewrite Rmult_plus_distr_r, !Rmult_assoc, X2, Y2. ring.
Qed.

Lemma SFsub_rounded x y : valid x -> valid y -> is_fin x = true -> is_fin y = true ->
  rounded (SF2R x - SF2R y) (SFsub prec emax x y).
Proof.
  intros Vx Vy Fx Fy.
  destruct x as [sx|sx| |sx mx ex]; try discriminate;
  destruct y as [sy|sy| |sy my ey]; try discriminate.
  - split; [destruct sx, sy; discriminate|]. left. cbn [SF2R]. split; [ring|].
    destruct sx, sy; reflexivity.
  - replace (SF2R (S754_zero sx) - SF2R (S754_finite sy my ey))
      with (SF2R (S754_finite (negb sy) my ey))
      by (cbn [SF2R]; destruct sy; cbn [negb sgn]; ring).
    cbn [SFsub]. apply valid_rounded; [exact Vy|reflexivity].
  - replace (SF2R (S754_finite sx mx ex) - SF2R (S754_zero sy))
      with (SF2R (S754_finite sx mx ex)) by (cbn [SF2R]; ring).
    now apply valid_rounded.
  - cbn [SFsub SF2R].
    pose proof (shl_align_spec mx ex (Z.min ex ey)) as (X1 & X2 & _).
    pose proof (shl_align_spec my ey (Z.min ex ey)) as (Y1 & Y2 & _).
    replace (Z.min ex (Z.min ex ey)) with (Z.min ex ey) in X1 by lia.
    replace (Z.min ey (Z.min ex ey)) with (Z.min ex ey) in Y1 by lia.
    rewrite X1 in X2. rewrite Y1 in Y2.
    match goal with |- rounded ?v (binary_normalize _ _ ?m ?e _) =>
      replace v with (IZR m * bpow e) end.
    + apply binary_normalize_rounded.
    + rewrite minus_IZR, !cond_Zopp_IZR. unfold Rminus.
      rewrite Rmult_plus_distr_r, Ropp_mult_distr_l_reverse, !Rmult_assoc, X2, Y2. ring.
Qed.

Lemma sgn_xorb a b : sgn (xorb a b) = sgn a * sgn b.
Proof. destruct a, b; cbn [xorb sgn]; ring. Qed.

Lemma SFmul_rounded x y : valid x -> valid y -> is_fin x = true -> is_fin y = true ->
  rounded (SF2R x * SF2R y) (SFmul prec emax x y).
Proof.
  intros Vx Vy Fx Fy.
  destruct x as [sx|sx| |sx mx ex]; try discriminate;
  destruct y as [sy|sy| |sy my ey]; try discriminate;
  try (split; [discriminate|]; left; cbn [SF2R SFmul]; split; [ring|reflexivity]).
  cbn [SFmul SF2R].
  assert (Hx0 : 1 <= IZR (Z.pos mx)) by (apply IZR_le; lia).
  assert (Hy0 : 1 <= IZR (Z.pos my)) by (apply IZR_le; lia).
  pose proof (bpow_pos ex). pose proof (bpow_pos ey).
  replace (sgn sx * IZR (Z.pos mx) * bpow ex * (sgn sy * IZR (Z.pos my) * bpow ey))
    with (sgn (xorb sx sy) * (IZR (Z.pos (mx * my)) * bpow (ex + ey)))
    by (rewrite sgn_xorb, Pos2Z.inj_mul, mult_IZR, bpow_add; ring).
  apply rounded_of_aux.
  - rewrite Pos2Z.inj_mul, mult_IZR, bpow_add.
    apply Rmult_lt_0_compat; apply Rmult_lt_0_compat; lra.
  - apply binary_round_aux_spec.
    + split; [lia|reflexivity].
    + pose proof (valid_finite _ _ _ Vx) as (Hex & Hmx & Hnx).
      pose proof (valid_finite _ _ _ Vy) as (Hey & Hmy & Hny).
      rewrite fexp_eq.
      assert (Hd : bpow 52 <= IZR (Z.pos (mx * my)) ->
                   (53 <= Zdigits2 (Z.pos (mx * my)))%Z).
      { intros Hge. pose proof (Zdigits2_bounds (Z.pos (mx * my)) ltac:(lia)) as [_ Hhi].
        assert (Hlt : bpow 52 < bpow (Zdigits2 (Z.pos (mx * my)))) by lra.
        apply bpow_lt_inv in Hlt. lia. }
      rewrite Pos2Z.inj_mul, mult_IZR in Hd.
      destruct Hnx as [->|Hnx]; [destruct Hny as [->|Hny]|].
      * lia.
      * assert (53 <= Zdigits2 (Z.pos (mx * my)))%Z by (apply Hd; nra). lia.
      * assert (53 <= Zdigits2 (Z.pos (mx * my)))%Z by (apply Hd; nra). lia.
Qed.

Lemma new_location_spec nb k q : (0 <= q)%Z -> (0 <= k < nb)%Z ->
  located (IZR q + IZR k / IZR nb) q (new_location nb k).
Proof.
  intros Hq Hk. split; auto.
  assert (Hnb : 0 < IZR nb) by (apply IZR_lt; lia).
  set (f := IZR k / IZR nb).
  assert (Hf : f * IZR nb = IZR k) by (unfold f; field; lra).
  assert (H0 : (k = 0)%Z -> f = 0) by (intros ->; unfold f, Rdiv; ring).
  assert (H1 : (0 < k)%Z -> 0 < f).
  { intros H. apply IZR_lt in H. unfold f. apply Rdiv_lt_0_compat; auto. }
  assert (H2 : f < 1).
  { assert (IZR k < IZR nb) by (apply IZR_lt; lia). nra. }
  assert (Hlt : (2 * k < nb)%Z -> f < /2).
  { intros H. apply IZR_lt in H. rewrite mult_IZR in H. nra. }
  assert (Heq : (2 * k = nb)%Z -> f = /2).
  { intros H. apply (f_equal IZR) in H. rewrite mult_IZR in H. nra. }
  assert (Hgt : (nb < 2 * k)%Z -> /2 < f).
  { intros H. apply IZR_lt in H. rewrite mult_IZR in H. nra. }
  unfold new_location.
  destruct (Z.even nb) eqn:Hev; unfold new_location_even, new_location_odd;
    (destruct (Z.eqb_spec k 0) as [E|E]; [rewrite (H0 E); lra|]);
    assert (0 < f) by (apply H1; lia).
  - destruct (Z.compare_spec (2 * k) nb) as [C|C|C].
    + rewrite (Heq C). lra.
    + specialize (Hlt C). lra.
    + specialize (Hgt C). lra.
  - assert (Hodd : Z.odd nb = true) by (rewrite <- Z.negb_even, Hev; reflexivity).
    apply Z.odd_spec in Hodd as [h Hh].
    destruct (Z.compare_spec (2 * k + 1) nb) as [C|C|C].
    + specialize (Hlt ltac:(lia)). lra.
    + specialize (Hlt ltac:(lia)). lra.
    + specialize (Hgt ltac:(lia)). lra.
Qed.

Lemma SFdiv_core_spec mx ex my ey :
  exists t,
    0 < t /\
    located t (fst (fst (SFdiv_core_binary prec emax (Z.pos mx) ex (Z.pos my) ey)))
              (snd (SFdiv_core_binary prec emax (Z.pos mx) ex (Z.pos my) ey)) /\
    t * bpow (snd (fst (SFdiv_core_binary prec emax (Z.pos mx) ex (Z.pos my) ey)))
      = (IZR (Z.pos mx) * bpow ex) / (IZR (Z.pos my) * bpow ey) /\
    (snd (fst (SFdiv_core_binary prec emax (Z.pos mx) ex (Z.pos my) ey))
     <= fexp (Zdigits2 (fst (fst (SFdiv_core_binary prec emax (Z.pos mx) ex (Z.pos my) ey)))
              + snd (fst (SFdiv_core_binary prec emax (Z.pos mx) ex (Z.pos my) ey))))%Z.
Proof.
  unfold SFdiv_core_binary.
  set (d1 := Zdigits2 (Z.pos mx)). set (d2 := Zdigits2 (Z.pos my)).
  set (e' := Z.min (fexp (d1 + ex - (d2 + ey))) (ex - ey)).
  set (s := (ex - ey - e')%Z).
  assert (Hs : (0 <= s)%Z) by (unfold s, e'; lia).
  set (m' := match s with Z.pos _ => Z.shiftl (Z.pos mx) s | Z0 => Z.pos mx | Z.neg _ => 0%Z end).
  assert (Hm' : m' = (Z.pos mx * 2 ^ s)%Z).
  { unfold m'. destruct s as [|p|p] eqn:E; try lia.
    rewrite Z.shiftl_mul_pow2 by lia. reflexivity. }
  pose proof (Z_div_mod m' (Z.pos my) ltac:(lia)) as Hdiv.
  destruct (Z.div_eucl m' (Z.pos my)) as [q r]. destruct Hdiv as [Hqr Hr].
  cbn [fst snd].
  assert (H2s : (0 < 2 ^ s)%Z) by (apply Z.pow_pos_nonneg; lia).
  assert (Hq : (0 <= q)%Z) by nia.
  assert (Hmy : 0 < IZR (Z.pos my)) by (apply IZR_lt; lia).
  assert (Hmx : 0 < IZR (Z.pos mx)) by (apply IZR_lt; lia).
  assert (HmR : IZR m' = IZR (Z.pos mx) * bpow s)
    by (rewrite Hm', mult_IZR, <- bpow_IZR by lia; reflexivity).
  assert (HqrR : IZR m' = IZR (Z.pos my) * IZR q + IZR r)
    by (rewrite Hqr, plus_IZR, mult_IZR; reflexivity).
  pose proof (bpow_pos s). pose proof (bpow_pos ex). pose proof (bpow_pos ey).
  pose proof (bpow_pos e').
  exists (IZR q + IZR r / IZR (Z.pos my)).
  assert (Ht : IZR q + IZR r / IZR (Z.pos my) = IZR m' / IZR (Z.pos my))
    by (rewrite HqrR; field; lra).
  split; [|split; [|split]].
  - rewrite Ht, HmR. apply Rdiv_lt_0_compat; nra.
  - apply new_location_spec; lia.
  - rewrite Ht, HmR.
    assert (Hb : bpow s * bpow e' * bpow ey = bpow ex).
    { rewrite <- !bpow_add. f_equal. unfold s. lia. }
    apply Rmult_eq_reg_r with (IZR (Z.pos my) * bpow ey); [|nra].
    replace (IZR (Z.pos mx) * bpow ex / (IZR (Z.pos my) * bpow ey) * (IZR (Z.pos my) * bpow ey))
      with (IZR (Z.pos mx) * bpow ex) by (field; lra).
    rewrite <- Hb. field. lra.
  - pose proof (Zdigits2_bounds (Z.pos mx) ltac:(lia)) as [Hlo1 Hhi1].
    pose proof (Zdigits2_bounds (Z.pos my) ltac:(lia)) as [Hlo2 Hhi2].
    fold d1 in Hlo1, Hhi1. fold d2 in Hlo2, Hhi2.
    assert (Hr' : IZR r < IZR (Z.pos my)) by (apply IZR_lt; lia).
    assert (Hq' : 0 <= IZR q) by (apply IZR_le; lia).
    (* (q + 1) * 2^d2 > m' >= 2^(d1 - 1 + s) *)
    assert (Ha : bpow (d1 - 1 + s - d2) < IZR q + 1).
    { assert (Hx : bpow (d1 - 1 + s - d2) * bpow d2 = bpow (d1 - 1) * bpow s).
      { rewrite <- !bpow_add. f_equal. lia. }
      pose proof (bpow_pos d2). 
      assert (bpow (d1 - 1) * bpow s <= IZR m') by (rewrite HmR; nra).
      assert (IZR m' < (IZR q + 1) * bpow d2) by nra.
      apply Rmult_lt_reg_r with (bpow d2); auto. lra. }
    assert (He' : (e' <= Z.max (d1 + ex - (d2 + ey) - 53) (-1074))%Z)
      by (unfold e'; rewrite fexp_eq; lia).
    assert (Hse : (s = ex - ey - e')%Z) by reflexivity.
    rewrite fexp_eq. clearbody s e'. clear m' Hm' Hqr HmR HqrR Ht.
    destruct (Z.eq_dec q 0) as [->|Hq0].
    + replace (0 + 1) with (bpow 0) in Ha by (rewrite bpow_0; ring).
      apply bpow_lt_inv in Ha. cbn [Zdigits2]. lia.
    + pose proof (Zdigits2_bounds q ltac:(lia)) as [_ Hhiq].
      assert (Hdq : (0 < Zdigits2 q)%Z) by (destruct q; simpl; lia).
      assert (Hq1 : IZR q + 1 <= bpow (Zdigits2 q)).
      { rewrite bpow_IZR in * by lia. apply lt_IZR in Hhiq.
        rewrite <- plus_IZR. apply IZR_le. lia. }
      assert (Hlt : bpow (d1 - 1 + s - d2) < bpow (Zdigits2 q)) by lra.
      apply bpow_lt_inv in Hlt. lia.
Qed.

Lemma SFdiv_rounded x y : valid x -> valid y -> is_fin x = true ->
  (exists s m e, y = S754_finite s m e) ->
  rounded (SF2R x / SF2R y) (SFdiv prec emax x y).
Proof.
  intros Vx Vy Fx (sy & my & ey & ->).
  destruct x as [sx|sx| |sx mx ex]; try discriminate.
  - split; [discriminate|]. left. cbn [SF2R SFdiv]. split; [|reflexivity].
    unfold Rdiv. ring.
  - cbn [SFdiv SF2R].
    destruct (SFdiv_core_spec mx ex my ey) as (t & Ht0 & Hloc & Hval & Hpre).
    destruct (SFdiv_core_binary prec emax (Z.pos mx) ex (Z.pos my) ey) as [[mz ez] lz].
    cbn [fst snd] in *.
    assert (Hmy : 0 < IZR (Z.pos my)) by (apply IZR_lt; lia).
    pose proof (bpow_pos ey). pose proof (bpow_pos ez).
    replace (sgn sx * IZR (Z.pos mx) * bpow ex / (sgn sy * IZR (Z.pos my) * bpow ey))
      with (sgn (xorb sx sy) * (t * bpow ez)).
    + apply rounded_of_aux; [nra|]. now apply binary_round_aux_spec.
    + rewrite Hval, sgn_xorb. destruct sx, sy; cbn [sgn]; field; nra.
Qed.

(** ** Exactness on representable values; equal values *)

Lemma Rnd_exponent v k1 E1 k2 E2 : Rnd v k1 E1 -> Rnd v k2 E2 -> (E1 <= E2)%Z.
Proof.
  intros H1 H2. destruct (Z_le_gt_dec E1 E2) as [|Hgt]; auto. exfalso.
  pose proof (Rnd_upper _ _ _ H2) as Hu.
  destruct H1 as (_ & HE1 & _ & [[-> _]|[Hl _]]).
  - destruct H2 as (_ & HE2 & _). lia.
  - assert (bpow (E2 + 53) <= bpow (E1 + 52)) by (apply bpow_le; lia). lra.
Qed.

Lemma Rnd_exact m e k E :
  Rnd (IZR m * bpow e) m e -> Rnd (IZR m * bpow e) k E ->
  IZR k * bpow E = IZR m * bpow e.
Proof.
  intros H1 H2.
  assert (E = e) by (pose proof (Rnd_exponent _ _ _ _ _ H1 H2);
                     pose proof (Rnd_exponent _ _ _ _ _ H2 H1); lia).
  subst E. destruct H2 as (_ & _ & Hk & _). pose proof (bpow_pos e).
  replace (IZR m * bpow e / bpow e) with (IZR m) in Hk by (field; lra).
  assert (IZR (m - 1) < IZR k) by (rewrite minus_IZR; lra).
  assert (IZR k < IZR (m + 1)) by (rewrite plus_IZR; lra).
  apply lt_IZR in H0, H2. replace k with m by lia. reflexivity.
Qed.

Lemma rounded_exact g f : valid g -> is_fin g = true ->
  rounded (SF2R g) f -> SF2R f = SF2R g.
Proof.
  intros Vg Fg [_ Hf].
  destruct g as [s|s| |s m e]; try discriminate.
  - destruct Hf as [[_ H]|[[H _]|[H _]]]; cbn [SF2R] in *; auto; lra.
  - pose proof (valid_finite_pos _ _ _ Vg) as Hpos. pose proof (valid_Rnd _ _ _ Vg) as Rm.
    cbn [SF2R] in *. destruct s; cbn [sgn] in *.
    + destruct Hf as [[Hf _]|[[Hf _]|(_ & k2 & E2 & R2 & V2)]]; try lra.
      replace (- (-1 * IZR (Z.pos m) * bpow e)) with (IZR (Z.pos m) * bpow e) in * by ring.
      rewrite V2, (Rnd_exact _ _ _ _ Rm R2), Rmin_left; lra.
    + destruct Hf as [[Hf _]|[(_ & k2 & E2 & R2 & V2)|[Hf _]]]; try lra.
      replace (1 * IZR (Z.pos m) * bpow e) with (IZR (Z.pos m) * bpow e) in * by ring.
      rewrite V2, (Rnd_exact _ _ _ _ Rm R2), Rmin_left; lra.
Qed.

Lemma SF2R_inj x y : valid x -> valid y -> is_fin x = true -> is_fin y = true ->
  SF2R x = SF2R y ->
  x = y \/ (exists s1 s2, x = S754_zero s1 /\ y = S754_zero s2).
Proof.
  intros Vx Vy Fx Fy E.
  destruct x as [sx|sx| |sx mx ex]; try discriminate;
  destruct y as [sy|sy| |sy my ey]; try discriminate;
  try (pose proof (valid_finite_pos _ _ _ Vx)); try (pose proof (valid_finite_pos _ _ _ Vy));
  cbn [SF2R] in E.
  - right. eauto.
  - exfalso. destruct sy; cbn [sgn] in E; lra.
  - exfalso. destruct sx; cbn [sgn] in E; lra.
  - left.
    assert (sx = sy) by (destruct sx, sy; cbn [sgn] in E; auto; lra). subst sy.
    assert (EM : IZR (Z.pos mx) * bpow ex = IZR (Z.pos my) * bpow ey)
      by (destruct sx; cbn [sgn] in E; lra).
    pose proof (mag_compare_spec mx ex my ey Vx Vy) as Hc. unfold mag_compare in Hc.
    destruct (Z.compare_spec ex ey) as [->|Hlt|Hgt]; cbn [cmp_prop] in Hc; try lra.
    change (Pos.compare_cont Eq mx my) with (Pos.compare mx my) in Hc.
    destruct (Pos.compare_spec mx my) as [->|Hlt|Hgt]; cbn [cmp_prop] in Hc; try lra.
    reflexivity.
Qed.

(** ** Monotonicity of the operations on finite numbers *)

Lemma rounded_zero f : rounded 0 f -> SF2R f = 0.
Proof. intros [_ [[_ H]|[[H _]|[H _]]]]; auto; lra. Qed.

Lemma SFadd_zero_l s y : is_fin y = true -> SF2R (SFadd prec emax (S754_zero s) y) = SF2R y.
Proof. destruct y as [sy|sy| |sy my ey]; try discriminate; intros _; [destruct s, sy|]; reflexivity. Qed.

Lemma SFadd_zero_r s x : is_fin x = true -> SF2R (SFadd prec emax x (S754_zero s)) = SF2R x.
Proof. destruct x as [sx|sx| |sx mx ex]; try discriminate; intros _; [destruct s, sx|]; reflexivity. Qed.

Lemma SFmul_zero_l s y : is_fin y = true -> SF2R (SFmul prec emax (S754_zero s) y) = 0.
Proof. destruct y; try discriminate; reflexivity. Qed.

Lemma SFmul_zero_r s x : is_fin x = true -> SF2R (SFmul prec emax x (S754_zero s)) = 0.
Proof. destruct x; try discriminate; reflexivity. Qed.

Section Mono.
Variables x1 x2 y : spec_float.
Hypothesis (V1 : valid x1) (V2 : valid x2) (Vy : valid y).
Hypothesis (F1 : is_fin x1 = true) (F2 : is_fin x2 = true) (Fy : is_fin y = true).
Hypothesis Hle : SF2R x1 <= SF2R x2.

Lemma SFadd_mono_l : SF2R (SFadd prec emax x1 y) <= SF2R (SFadd prec emax x2 y).
Proof.
  destruct Hle as [Hlt|Heq].
  - apply rounded_mono with (SF2R x1 + SF2R y) (SF2R x2 + SF2R y);
      try apply SFadd_rounded; auto; lra.
  - destruct (SF2R_inj x1 x2 V1 V2 F1 F2 Heq) as [->|(s1 & s2 & -> & ->)]; [lra|].
    rewrite !SFadd_zero_l by auto. lra.
Qed.

Lemma SFadd_mono_r : SF2R (SFadd prec emax y x1) <= SF2R (SFadd prec emax y x2).
Proof.
  destruct Hle as [Hlt|Heq].
  - apply rounded_mono with (SF2R y + SF2R x1) (SF2R y + SF2R x2);
      try apply SFadd_rounded; auto; lra.
  - destruct (SF2R_inj x1 x2 V1 V2 F1 F2 Heq) as [->|(s1 & s2 & -> & ->)]; [lra|].
    rewrite !SFadd_zero_r by auto. lra.
Qed.

Lemma SFmul_mono_l : 0 <= SF2R y ->
  SF2R (SFmul prec emax x1 y) <= SF2R (SFmul prec emax x2 y).
Proof.
  intros Hy.
  pose proof (SFmul_rounded x1 y V1 Vy F1 Fy) as R1.
  pose proof (SFmul_rounded x2 y V2 Vy F2 Fy) as R2.
  destruct Hy as [Hy|Hy].
  - destruct Hle as [Hlt|Heq].
    + apply rounded_mono with (1 := R1) (2 := R2). nra.
    + destruct (SF2R_inj x1 x2 V1 V2 F1 F2 Heq) as [->|(s1 & s2 & -> & ->)]; [lra|].
      rewrite !SFmul_zero_l by auto. lra.
  - rewrite <- Hy, Rmult_0_r in R1, R2.
    rewrite (rounded_zero _ R1), (rounded_zero _ R2). lra.
Qed.

Lemma SFmul_mono_r : 0 <= SF2R y ->
  SF2R (SFmul prec emax y x1) <= SF2R (SFmul prec emax y x2).
Proof.
  intros Hy.
  pose proof (SFmul_rounded y x1 Vy V1 Fy F1) as R1.
  pose proof (SFmul_rounded y x2 Vy V2 Fy F2) as R2.
  destruct Hy as [Hy|Hy].
  - destruct Hle as [Hlt|Heq].
    + apply rounded_mono with (1 := R1) (2 := R2). nra.
    + destruct (SF2R_inj x1 x2 V1 V2 F1 F2 Heq) as [->|(s1 & s2 & -> & ->)]; [lra|].
      rewrite !SFmul_zero_r by auto. lra.
  - rewrite <- Hy, Rmult_0_l in R1, R2.
    rewrite (rounded_zero _ R1), (rounded_zero _ R2). lra.
Qed.

Lemma SFdiv_mono_l : 0 < SF2R y ->
  SF2R (SFdiv prec emax x1 y) <= SF2R (SFdiv prec emax x2 y).
Proof.
  intros Hy.
  assert (Hyf : exists s m e, y = S754_finite s m e).
  { destruct y as [s|s| |s m e]; try discriminate; cbn [SF2R] in Hy; try lra. eauto. }
  pose proof (SFdiv_rounded x1 y V1 Vy F1 Hyf) as R1.
  pose proof (SFdiv_rounded x2 y V2 Vy F2 Hyf) as R2.
  destruct Hle as [Hlt|Heq].
  - apply rounded_mono with (1 := R1) (2 := R2).
    unfold Rdiv. apply Rmult_lt_compat_r; auto. now apply Rinv_0_lt_compat.
  - destruct (SF2R_inj x1 x2 V1 V2 F1 F2 Heq) as [->|(s1 & s2 & -> & ->)]; [lra|].
    destruct Hyf as (s & m & e & ->). cbn [SFdiv SF2R]. lra.
Qed.
End Mono.

(** ** Primitive floats *)

Lemma Prim2SF_valid' x : valid (Prim2SF x).
Proof. apply Prim2SF_valid. Qed.

Lemma SFeqb_refl X : X <> S754_nan -> SFeqb X X = true.
Proof.
  intros H. destruct X as [s|s| |s m e]; try congruence; unfold SFeqb; cbn [SFcompare].
  - reflexivity.
  - now destruct s.
  - rewrite Z.compare_refl, Pos.compare_cont_refl. now destruct s.
Qed.

Lemma is_nan_spec x : is_nan x = true <-> Prim2SF x = S754_nan.
Proof.
  unfold is_nan. rewrite eqb_spec. split.
  - intros H. destruct (Prim2SF x) eqn:E; auto; rewrite SFeqb_refl in H; discriminate.
  - intros ->. reflexivity.
Qed.

Lemma is_nan_false x : is_nan x = false <-> Prim2SF x <> S754_nan.
Proof.
  rewrite <- is_nan_spec. destruct (is_nan x); split; intros; auto; congruence.
Qed.

Lemma is_finite_spec x : is_finite x = is_fin (Prim2SF x).
Proof.
  unfold is_finite, is_nan, is_infinity. rewrite !eqb_spec, abs_spec.
  change (Prim2SF infinity) with (S754_infinity false).
  destruct (Prim2SF x) as [s|s| |s m e] eqn:E.
  - reflexivity.
  - now destruct s.
  - reflexivity.
  - rewrite SFeqb_refl by discriminate. reflexivity.
Qed.

Lemma is_finite_not_nan x : is_finite x = true -> Prim2SF x <> S754_nan.
Proof. rewrite is_finite_spec. intros H E. rewrite E in H. discriminate. Qed.

Lemma leb_F2R x y : (x <=? y)%float = true <->
  (Prim2SF x <> S754_nan /\ Prim2SF y <> S754_nan /\ F2R x <= F2R y).
Proof.
  rewrite leb_spec. unfold F2R. split.
  - intros H.
    assert (Nx : Prim2SF x <> S754_nan) by (intros E; rewrite E in H; discriminate).
    assert (Ny : Prim2SF y <> S754_nan)
      by (intros E; rewrite E in H; destruct (Prim2SF x); discriminate).
    split; auto. split; auto.
    apply SFleb_spec; auto using Prim2SF_valid'.
  - intros (Nx & Ny & H). apply SFleb_spec; auto using Prim2SF_valid'.
Qed.

Lemma ltb_F2R x y : (x <? y)%float = true <->
  (Prim2SF x <> S754_nan /\ Prim2SF y <> S754_nan /\ F2R x < F2R y).
Proof.
  rewrite ltb_spec. unfold F2R. split.
  - intros H.
    assert (Nx : Prim2SF x <> S754_nan) by (intros E; rewrite E in H; discriminate).
    assert (Ny : Prim2SF y <> S754_nan)
      by (intros E; rewrite E in H; destruct (Prim2SF x); discriminate).
    split; auto. split; auto.
    apply SFltb_spec; auto using Prim2SF_valid'.
  - intros (Nx & Ny & H). apply SFltb_spec; auto using Prim2SF_valid'.
Qed.

Lemma add_finite_inv a b : is_finite (a + b)%float = true ->
  is_finite a = true /\ is_finite b = true.
Proof.
  rewrite !is_finite_spec, add_spec. unfold SF64add.
  destruct (Prim2SF a) as [sa|sa| |sa ma ea], (Prim2SF b) as [sb|sb| |sb mb eb];
    cbn [is_fin]; auto; intros H; exfalso; revert H; cbn [SFadd];
    try destruct sa; try destruct sb; discriminate.
Qed.

Lemma mul_finite_inv a b : is_finite (a * b)%float = true ->
  is_finite a = true /\ is_finite b = true.
Proof.
  rewrite !is_finite_spec, mul_spec. unfold SF64mul.
  destruct (Prim2SF a) as [sa|sa| |sa ma ea], (Prim2SF b) as [sb|sb| |sb mb eb];
    cbn [is_fin]; auto; intros H; exfalso; revert H; cbn [SFmul]; discriminate.
Qed.

Lemma div_finite_inv a b : is_finite (a / b)%float = true ->
  is_finite a = true /\ Prim2SF b <> S754_nan.
Proof.
  rewrite !is_finite_spec, div_spec. unfold SF64div.
  destruct (Prim2SF a) as [sa|sa| |sa ma ea], (Prim2SF b) as [sb|sb| |sb mb eb];
    cbn [is_fin]; try (split; [reflexivity|discriminate]);
    intros H; exfalso; revert H; cbn [SFdiv]; discriminate.
Qed.

Lemma add_not_nan a b : is_finite a = true -> is_finite b = true ->
  Prim2SF (a + b)%float <> S754_nan.
Proof.
  rewrite !is_finite_spec, add_spec. intros Fa Fb.
  apply (SFadd_rounded _ _ (Prim2SF_valid' a) (Prim2SF_valid' b) Fa Fb).
Qed.

Lemma mul_not_nan a b : is_finite a = true -> is_finite b = true ->
  Prim2SF (a * b)%float <> S754_nan.
Proof.
  rewrite !is_finite_spec, mul_spec. intros Fa Fb.
  apply (SFmul_rounded _ _ (Prim2SF_valid' a) (Prim2SF_valid' b) Fa Fb).
Qed.

Lemma add_mono x1 x2 y1 y2 :
  is_finite x1 = true -> is_finite x2 = true ->
  is_finite y1 = true -> is_finite y2 = true ->
  (x1 <=? x2)%float = true -> (y1 <=? y2)%float = true ->
  (x1 + y1 <=? x2 + y2)%float = true.
Proof.
  intros Fx1 Fx2 Fy1 Fy2 Hx Hy.
  apply leb_F2R in Hx as (_ & _ & Hx). apply leb_F2R in Hy as (_ & _ & Hy).
  apply leb_F2R. split; [now apply add_not_nan|]. split; [now apply add_not_nan|].
  rewrite is_finite_spec in *. unfold F2R in *. rewrite !add_spec. unfold SF64add.
  apply Rle_trans with (SF2R (SFadd prec emax (Prim2SF x2) (Prim2SF y1))).
  - apply SFadd_mono_l; auto using Prim2SF_valid'.
  - apply SFadd_mono_r; auto using Prim2SF_valid'.
Qed.

Lemma mul_mono_l x1 x2 k :
  is_finite x1 = true -> is_finite x2 = true -> is_finite k = true ->
  (0 <=? k)%float = true -> (x1 <=? x2)%float = true ->
  (x1 * k <=? x2 * k)%float = true.
Proof.
  intros Fx1 Fx2 Fk Hk Hx.
  apply leb_F2R in Hx as (_ & _ & Hx). apply leb_F2R in Hk as (_ & _ & Hk).
  apply leb_F2R. split; [now apply mul_not_nan|]. split; [now apply mul_not_nan|].
  rewrite is_finite_spec in *. unfold F2R in *. rewrite !mul_spec. unfold SF64mul.
  change (SF2R (Prim2SF 0)) with 0 in Hk.
  apply SFmul_mono_l; auto using Prim2SF_valid'.
Qed.

Lemma mul_mono_r k x1 x2 :
  is_finite x1 = true -> is_finite x2 = true -> is_finite k = true ->
  (0 <=? k)%float = true -> (x1 <=? x2)%float = true ->
  (k * x1 <=? k * x2)%float = true.
Proof.
  intros Fx1 Fx2 Fk Hk Hx.
  apply leb_F2R in Hx as (_ & _ & Hx). apply leb_F2R in Hk as (_ & _ & Hk).
  apply leb_F2R. split; [now apply mul_not_nan|]. split; [now apply mul_not_nan|].
  rewrite is_finite_spec in *. unfold F2R in *. rewrite !mul_spec. unfold SF64mul.
  change (SF2R (Prim2SF 0)) with 0 in Hk.
  apply SFmul_mono_r; auto using Prim2SF_valid'.
Qed.

Lemma div_mono x1 x2 f :
  is_finite x1 = true -> is_finite x2 = true ->
  (0 <? f)%float = true -> (x1 <=? x2)%float = true ->
  (x1 / f <=? x2 / f)%float = true.
Proof.
  intros Fx1 Fx2 Hf Hx.
  apply leb_F2R in Hx as (_ & _ & Hx). apply ltb_F2R in Hf as (_ & Nf & Hf).
  rewrite is_finite_spec in *. unfold F2R in *.
  change (SF2R (Prim2SF 0)) with 0 in Hf.
  apply leb_F2R. unfold F2R. rewrite !div_spec. unfold SF64div.
  pose proof (Prim2SF_valid' x1) as V1. pose proof (Prim2SF_valid' x2) as V2.
  pose proof (Prim2SF_valid' f) as Vf.
  destruct (Prim2SF f) as [s|s| |s m e] eqn:Ef; try congruence.
  - cbn [SF2R] in Hf. lra.
  - destruct s; [cbn [SF2R sgn] in Hf; pose proof (bpow_pos 1024); lra|].
    destruct (Prim2SF x1), (Prim2SF x2); try discriminate; cbn [SFdiv SF2R];
      repeat split; try discriminate; lra.
  - assert (Hfin : exists s' m' e', S754_finite s m e = S754_finite s' m' e') by eauto.
    split; [apply (SFdiv_rounded _ _ V1 Vf Fx1 Hfin)|].
    split; [apply (SFdiv_rounded _ _ V2 Vf Fx2 Hfin)|].
    apply SFdiv_mono_l; auto.
Qed.

Lemma leb_refl x : is_nan x = false -> (x <=? x)%float = true.
Proof. intros H. apply leb_F2R. apply is_nan_false in H. repeat split; auto. lra. Qed.

Lemma leb_trans x y z : (x <=? y)%float = true -> (y <=? z)%float = true ->
  (x <=? z)%float = true.
Proof.
  intros H1 H2. apply leb_F2R in H1 as (? & ? & ?). apply leb_F2R in H2 as (? & ? & ?).
  apply leb_F2R. repeat split; auto. lra.
Qed.

Lemma ltb_leb_trans x y z : (x <? y)%float = true -> (y <=? z)%float = true ->
  (x <? z)%float = true.
Proof.
  intros H1 H2. apply ltb_F2R in H1 as (? & ? & ?). apply leb_F2R in H2 as (? & ? & ?).
  apply ltb_F2R. repeat split; auto. lra.
Qed.

(** ** More facts on primitive floats *)

Lemma SF2R_range x : valid x -> - bpow 1024 <= SF2R x <= bpow 1024.
Proof.
  intros V. pose proof (bpow_pos 1024).
  destruct x as [s|s| |s m e]; cbn [SF2R]; try lra.
  - destruct s; cbn [sgn]; lra.
  - pose proof (valid_finite_pos _ _ _ V). destruct s; cbn [sgn]; lra.
Qed.

Lemma F2R_range x : - bpow 1024 <= F2R x <= bpow 1024.
Proof. apply SF2R_range, Prim2SF_valid'. Qed.

Lemma eqb_F2R x y : (x =? y)%float = true <->
  (Prim2SF x <> S754_nan /\ Prim2SF y <> S754_nan /\ F2R x = F2R y).
Proof.
  rewrite eqb_spec. unfold F2R, SFeqb. split.
  - intros H.
    assert (Nx : Prim2SF x <> S754_nan) by (intros E; rewrite E in H; discriminate).
    assert (Ny : Prim2SF y <> S754_nan)
      by (intros E; rewrite E in H; destruct (Prim2SF x); discriminate).
    destruct (SFcompare_spec _ _ (Prim2SF_valid' x) (Prim2SF_valid' y) Nx Ny) as (c & Hc & Hp).
    rewrite Hc in H. destruct c; try discriminate. auto.
  - intros (Nx & Ny & E).
    destruct (SFcompare_spec _ _ (Prim2SF_valid' x) (Prim2SF_valid' y) Nx Ny) as (c & Hc & Hp).
    rewrite Hc. destruct c; cbn [cmp_prop] in Hp; auto; lra.
Qed.

Lemma ltb_true_not x y : (x <? y)%float = true -> (y <? x)%float = false.
Proof.
  intros H. apply ltb_F2R in H as (Nx & Ny & H).
  destruct (y <? x)%float eqn:E; auto. apply ltb_F2R in E as (_ & _ & E). lra.
Qed.

(** [Math.max] and [Math.min] on numbers that are not [NaN]. *)
Lemma max_step_spec h n : Prim2SF h <> S754_nan -> Prim2SF n <> S754_nan ->
  Prim2SF (max_step h n) <> S754_nan /\ F2R (max_step h n) = Rmax (F2R h) (F2R n).
Proof.
  intros Nh Nn. unfold max_step, is_pos_zero, is_neg_zero, is_zero.
  destruct (n =? zero)%float eqn:En; cbn [andb].
  - apply eqb_F2R in En as (_ & _ & En). change (F2R zero) with 0 in En.
    destruct (negb (get_sign n)); cbn [andb].
    + destruct (h =? zero)%float eqn:Eh; cbn [andb].
      * apply eqb_F2R in Eh as (_ & _ & Eh). change (F2R zero) with 0 in Eh.
        destruct (get_sign h).
        -- split; [vm_compute; discriminate|]. rewrite En, Eh. change (F2R zero) with 0.
           rewrite Rmax_left; lra.
        -- destruct (h <? n)%float eqn:E.
           ++ apply ltb_F2R in E as (_ & _ & E). lra.
           ++ split; auto. rewrite Rmax_left; lra.
      * destruct (h <? n)%float eqn:E.
        -- apply ltb_F2R in E as (_ & _ & E). split; auto. rewrite Rmax_right; lra.
        -- split; auto. rewrite Rmax_left; auto.
           destruct (Rle_lt_dec (F2R n) (F2R h)) as [|Hlt]; auto.
           assert ((h <? n)%float = true) by (apply ltb_F2R; auto). congruence.
    + destruct (h <? n)%float eqn:E.
      * apply ltb_F2R in E as (_ & _ & E). split; auto. rewrite Rmax_right; lra.
      * split; auto. rewrite Rmax_left; auto.
        destruct (Rle_lt_dec (F2R n) (F2R h)) as [|Hlt]; auto.
        assert ((h <? n)%float = true) by (apply ltb_F2R; auto). congruence.
  - destruct (h <? n)%float eqn:E.
    + apply ltb_F2R in E as (_ & _ & E). split; auto. rewrite Rmax_right; lra.
    + split; auto. rewrite Rmax_left; auto.
      destruct (Rle_lt_dec (F2R n) (F2R h)) as [|Hlt]; auto.
      assert ((h <? n)%float = true) by (apply ltb_F2R; auto). congruence.
Qed.

Lemma Math_max_spec a b : is_nan a = false -> is_nan b = false ->
  is_nan (Math_max a b) = false /\ F2R (Math_max a b) = Rmax (F2R a) (F2R b).
Proof.
  intros Na Nb. unfold Math_max. rewrite Na, Nb. cbn [orb].
  apply is_nan_false in Na, Nb.
  assert (Ninf : Prim2SF neg_infinity <> S754_nan) by (vm_compute; discriminate).
  destruct (max_step_spec neg_infinity a Ninf Na) as [N1 V1].
  destruct (max_step_spec _ b N1 Nb) as [N2 V2].
  split; [now apply is_nan_false|].
  rewrite V2, V1. f_equal.
  change (F2R neg_infinity) with (-1 * bpow 1024).
  pose proof (F2R_range a). rewrite Rmax_right; lra.
Qed.

Lemma min_step_spec l n : Prim2SF l <> S754_nan -> Prim2SF n <> S754_nan ->
  Prim2SF (min_step l n) <> S754_nan /\ F2R (min_step l n) = Rmin (F2R l) (F2R n).
Proof.
  intros Nl Nn. unfold min_step, is_pos_zero, is_neg_zero, is_zero.
  assert (Hgen : Prim2SF (if (n <? l)%float then n else l) <> S754_nan /\
                 F2R (if (n <? l)%float then n else l) = Rmin (F2R l) (F2R n)).
  { destruct (n <? l)%float eqn:E.
    - apply ltb_F2R in E as (_ & _ & E). split; auto. rewrite Rmin_right; lra.
    - split; auto. rewrite Rmin_left; auto.
      destruct (Rle_lt_dec (F2R l) (F2R n)) as [|Hlt]; auto.
      assert ((n <? l)%float = true) by (apply ltb_F2R; auto). congruence. }
  destruct ((n =? zero)%float && get_sign n && ((l =? zero)%float && negb (get_sign l))) eqn:E; auto.
  apply andb_true_iff in E as [E1 E2].
  apply andb_true_iff in E1 as [E1 _]. apply andb_true_iff in E2 as [E2 _].
  apply eqb_F2R in E1 as (_ & _ & E1). apply eqb_F2R in E2 as (_ & _ & E2).
  change (F2R zero) with 0 in *.
  split; [vm_compute; discriminate|]. rewrite E1, E2. change (F2R neg_zero) with 0.
  rewrite Rmin_left; lra.
Qed.

Lemma Math_min_spec a b : is_nan a = false -> is_nan b = false ->
  is_nan (Math_min a b) = false /\ F2R (Math_min a b) = Rmin (F2R a) (F2R b).
Proof.
  intros Na Nb. unfold Math_min. rewrite Na, Nb. cbn [orb].
  apply is_nan_false in Na, Nb.
  assert (Ninf : Prim2SF infinity <> S754_nan) by (vm_compute; discriminate).
  destruct (min_step_spec infinity a Ninf Na) as [N1 V1].
  destruct (min_step_spec _ b N1 Nb) as [N2 V2].
  split; [now apply is_nan_false|].
  rewrite V2, V1. f_equal.
  change (F2R infinity) with (1 * bpow 1024).
  pose proof (F2R_range a). rewrite Rmin_right; lra.
Qed.

Lemma Rnd_value v k E : Rnd v k E -> bpow (-1074) <= v ->
  v / 2 <= IZR k * bpow E <= 3 * v / 2.
Proof.
  intros (Hk0 & HE & Hk & Hbr) Hv. pose proof (bpow_pos E) as HbE.
  assert (Hk' : v - bpow E / 2 <= IZR k * bpow E <= v + bpow E / 2).
  { assert (Ev : v = v / bpow E * bpow E) by (field; lra).
    set (u := v / bpow E) in *.
    assert (0 <= (IZR k - u + /2) * bpow E) by (apply Rmult_le_pos; lra).
    assert (0 <= (/2 - (IZR k - u)) * bpow E) by (apply Rmult_le_pos; lra).
    rewrite Ev. lra. }
  assert (Hh : bpow E / 2 <= v / 2).
  { destruct Hbr as [[-> _]|[Hl _]]; [lra|].
    assert (bpow E <= bpow (E + 52)) by (apply bpow_le; lia). lra. }
  lra.
Qed.

Lemma rounded_finite v f : rounded v f -> bpow (-1074) <= v < bpow 1023 ->
  is_fin f = true /\ 0 < SF2R f.
Proof.
  intros [Nf H] [Hlo Hhi]. pose proof (bpow_pos (-1074)) as Hp.
  assert (HB : bpow 1024 = 2 * bpow 1023) by (rewrite <- bpow_succ; reflexivity).
  destruct H as [[H _]|[(_ & k & E & HR & Hf)|[H _]]]; try lra.
  pose proof (Rnd_value _ _ _ HR Hlo) as [H1 H2].
  rewrite Rmin_left in Hf by lra.
  split; [|lra].
  destruct f as [s|s| |s m e]; try congruence; try reflexivity.
  cbn [SF2R] in Hf. destruct s; cbn [sgn] in Hf; lra.
Qed.

Lemma Z2num_pos z : (0 < z < 2 ^ 63)%Z ->
  is_finite (Z2num z) = true /\ 0 < F2R (Z2num z).
Proof.
  intros Hz. unfold Z2num. destruct (Z.ltb_spec z 0) as [|_]; [lia|].
  rewrite is_finite_spec. unfold F2R. rewrite of_uint63_spec, Uint63.of_Z_spec.
  rewrite Z.mod_small by (change Uint63.wB with (2 ^ 63)%Z; lia).
  apply rounded_finite with (IZR z * bpow 0).
  - apply binary_normalize_rounded.
  - rewrite bpow_0, Rmult_1_r.
    assert (1 <= IZR z) by (apply IZR_le; lia).
    assert (IZR z < IZR (2 ^ 63)) by (apply IZR_lt; lia).
    rewrite <- bpow_IZR in H0 by lia.
    assert (bpow (-1074) <= bpow 0) by (apply bpow_le; lia).
    assert (bpow 63 <= bpow 1023) by (apply bpow_le; lia).
    rewrite bpow_0 in *. lra.
Qed.

Lemma not_finite_inf x : Prim2SF x <> S754_nan -> is_finite x = false ->
  exists s, Prim2SF x = S754_infinity s.
Proof.
  rewrite is_finite_spec. intros N H. destruct (Prim2SF x); try discriminate; try congruence.
  eauto.
Qed.

Lemma sub_lt_not_nan p t : (p <? t)%float = true -> is_nan (t - p)%float = false.
Proof.
  intros H. apply ltb_F2R in H as (Np & Nt & H). apply is_nan_false.
  rewrite sub_spec. unfold F2R, SF64sub in *.
  pose proof (Prim2SF_valid' p) as Vp. pose proof (Prim2SF_valid' t) as Vt.
  pose proof (SF2R_range _ Vp) as Rp. pose proof (SF2R_range _ Vt) as Rt.
  pose proof (bpow_pos 1024).
  destruct (is_fin (Prim2SF t)) eqn:Ft; [destruct (is_fin (Prim2SF p)) eqn:Fp|].
  - apply (SFsub_rounded _ _ Vt Vp Ft Fp).
  - destruct (Prim2SF p) as [s|s| |s m e]; try discriminate; try congruence.
    destruct (Prim2SF t) as [s'|s'| |s' m' e']; try discriminate; cbn [SFsub]; discriminate.
  - destruct (Prim2SF t) as [st|st| |st mt et]; try discriminate; try congruence.
    destruct st; cbn [SF2R sgn] in *; [lra|].
    destruct (Prim2SF p) as [s|s| |s m e]; try congruence; cbn [SFsub]; try discriminate.
    destruct s; [discriminate|]. cbn [SF2R sgn] in H. lra.
Qed.

Lemma div_not_nan d n : is_nan d = false -> is_finite n = true -> 0 < F2R n ->
  is_nan (d / n)%float = false.
Proof.
  intros Nd Fn Hn. apply is_nan_false in Nd. apply is_nan_false.
  rewrite is_finite_spec in Fn. unfold F2R in Hn. rewrite div_spec. unfold SF64div.
  pose proof (Prim2SF_valid' d) as Vd. pose proof (Prim2SF_valid' n) as Vn.
  destruct (Prim2SF n) as [s|s| |s m e] eqn:En; try discriminate.
  - cbn [SF2R] in Hn. lra.
  - destruct (is_fin (Prim2SF d)) eqn:Fd.
    + apply (SFdiv_rounded _ _ Vd Vn Fd). eauto.
    + destruct (Prim2SF d); try discriminate; try congruence.
Qed.

Lemma double_mono c h : is_finite c = true -> (0 <=? c)%float = true ->
  (c <=? h)%float = true -> (c * 2 <=? h * 2)%float = true.
Proof.
  intros Fc Hc Hh. destruct (is_finite h) eqn:Fh.
  - apply mul_mono_l; auto.
  - apply leb_F2R in Hh as (Nc & Nh & Hh). apply leb_F2R in Hc as (_ & _ & Hc).
    change (F2R 0%float) with 0 in Hc.
    destruct (not_finite_inf h Nh Fh) as [s Hs]. unfold F2R in Hh. rewrite Hs in Hh.
    pose proof (bpow_pos 1024).
    destruct s; cbn [SF2R sgn] in Hh; [unfold F2R in Hc; lra|].
    assert (E : Prim2SF (h * 2)%float = S754_infinity false)
      by (rewrite mul_spec, Hs; reflexivity).
    apply leb_F2R. split; [apply mul_not_nan; auto|]. split; [rewrite E; discriminate|].
    unfold F2R at 2. rewrite E. cbn [SF2R sgn]. pose proof (F2R_range (c * 2)%float). lra.
Qed.

Lemma mul_one_r x : is_finite x = true -> F2R (x * 1)%float = F2R x.
Proof.
  intros Fx. rewrite is_finite_spec in Fx. unfold F2R. rewrite mul_spec. unfold SF64mul.
  apply rounded_exact; auto using Prim2SF_valid'.
  replace (SF2R (Prim2SF x)) with (SF2R (Prim2SF x) * SF2R (Prim2SF 1)).
  - apply SFmul_rounded; auto using Prim2SF_valid'.
  - change (SF2R (Prim2SF 1)) with (1 * IZR 4503599627370496 * bpow (-52)).
    change 4503599627370496%Z with (2 ^ 52)%Z. rewrite <- bpow_52.
    rewrite Rmult_1_l, <- bpow_add. change (52 + -52)%Z with 0%Z. rewrite bpow_0. ring.
Qed.

Lemma mul_ge_l P b : (1 <=? P)%float = true -> (1 <=? b)%float = true ->
  (P <=? P * b)%float = true.
Proof.
  intros HP Hb.
  pose proof HP as HP'. pose proof Hb as Hb'.
  apply leb_F2R in HP' as (_ & NP & VP). apply leb_F2R in Hb' as (_ & Nb & Vb).
  change (F2R 1%float) with (1 * IZR 4503599627370496 * bpow (-52)) in *.
  assert (E1 : 1 * IZR 4503599627370496 * bpow (-52) = 1).
  { change 4503599627370496%Z with (2 ^ 52)%Z. rewrite <- bpow_52.
    rewrite Rmult_1_l, <- bpow_add. change (52 + -52)%Z with 0%Z. apply bpow_0. }
  rewrite E1 in *. pose proof (bpow_pos 1024).
  destruct (is_finite P) eqn:FP; [destruct (is_finite b) eqn:Fb|].
  - assert (H1 : (P * 1 <=? P * b)%float = true).
    { apply mul_mono_r; auto. apply leb_F2R. repeat split; auto.
      - vm_compute; discriminate.
      - change (F2R 0%float) with 0. lra. }
    apply leb_F2R in H1 as (_ & N & H1). rewrite mul_one_r in H1 by auto.
    apply leb_F2R. auto.
  - destruct (not_finite_inf b Nb Fb) as [s Hs]. unfold F2R in Vb, VP. rewrite Hs in Vb.
    destruct s; cbn [SF2R sgn] in Vb; [lra|].
    assert (E : Prim2SF (P * b)%float = S754_infinity false).
    { rewrite mul_spec, Hs. unfold SF64mul. rewrite is_finite_spec in FP.
      pose proof (Prim2SF_valid' P) as Vv.
      destruct (Prim2SF P) as [s|s| |s m e]; try discriminate; cbn [SF2R] in VP; try lra.
      destruct s; cbn [sgn] in VP; [|reflexivity].
      pose proof (valid_finite_pos _ _ _ Vv). lra. }
    apply leb_F2R. split; auto. split; [rewrite E; discriminate|].
    unfold F2R at 2. rewrite E. cbn [SF2R sgn]. pose proof (F2R_range P). lra.
  - destruct (not_finite_inf P NP FP) as [s Hs]. unfold F2R in Vb, VP. rewrite Hs in VP.
    destruct s; cbn [SF2R sgn] in VP; [lra|].
    assert (E : Prim2SF (P * b)%float = S754_infinity false).
    { rewrite mul_spec, Hs. unfold SF64mul.
      pose proof (Prim2SF_valid' b) as Vv.
      destruct (Prim2SF b) as [s|s| |s m e]; try congruence; cbn [SF2R] in Vb; try lra.
      - destruct s; cbn [sgn] in Vb; [lra|reflexivity].
      - destruct s; cbn [sgn] in Vb; [|reflexivity].
        pose proof (valid_finite_pos _ _ _ Vv). lra. }
    apply leb_F2R. split; auto. split; [rewrite E; discriminate|].
    unfold F2R. rewrite E, Hs. lra.
Qed.

(** ** Finite results *)

Lemma F2R_finite x : Prim2SF x <> S754_nan -> - bpow 1024 < F2R x < bpow 1024 ->
  is_finite x = true.
Proof.
  intros N H. rewrite is_finite_spec. unfold F2R in H.
  destruct (Prim2SF x) as [s|s| |s m e]; try reflexivity; try congruence.
  destruct s; cbn [SF2R sgn] in H; lra.
Qed.

(** Sums, differences and quotients that cannot be [NaN]. *)
Lemma add_finite_l_not_nan a b : is_finite a = true -> is_nan b = false ->
  is_nan (a + b)%float = false.
Proof.
  intros Fa Nb. apply is_nan_false. destruct (is_finite b) eqn:Fb.
  - now apply add_not_nan.
  - apply is_nan_false in Nb. destruct (not_finite_inf b Nb Fb) as [s Hs].
    rewrite is_finite_spec in Fa. rewrite add_spec, Hs. unfold SF64add.
    destruct (Prim2SF a); try discriminate; cbn [SFadd]; discriminate.
Qed.

Lemma sub_finite_r_not_nan a b : is_nan a = false -> is_finite b = true ->
  is_nan (a - b)%float = false.
Proof.
  intros Na Fb. apply is_nan_false. apply is_nan_false in Na.
  rewrite is_finite_spec in Fb. rewrite sub_spec. unfold SF64sub.
  destruct (is_fin (Prim2SF a)) eqn:Fa.
  - apply (SFsub_rounded _ _ (Prim2SF_valid' a) (Prim2SF_valid' b) Fa Fb).
  - destruct (Prim2SF a); try discriminate; try congruence.
    destruct (Prim2SF b); try discriminate; cbn [SFsub]; discriminate.
Qed.

Lemma div_nonzero_not_nan d n : is_nan d = false -> is_finite n = true ->
  (n =? 0)%float = false -> is_nan (d / n)%float = false.
Proof.
  intros Nd Fn Hn. apply is_nan_false in Nd. apply is_nan_false.
  assert (Hv : F2R n <> 0).
  { intros E. assert ((n =? 0)%float = true); [|congruence].
    apply eqb_F2R. repeat split; auto.
    - now apply is_finite_not_nan.
    - vm_compute; discriminate. }
  rewrite is_finite_spec in Fn. unfold F2R in Hv. rewrite div_spec. unfold SF64div.
  pose proof (Prim2SF_valid' d) as Vd. pose proof (Prim2SF_valid' n) as Vn.
  destruct (Prim2SF n) as [s|s| |s m e] eqn:En; try discriminate.
  - cbn [SF2R] in Hv. lra.
  - destruct (is_fin (Prim2SF d)) eqn:Fd.
    + apply (SFdiv_rounded _ _ Vd Vn Fd). eauto.
    + destruct (Prim2SF d); try discriminate; try congruence.
Qed.

Lemma Rnd_value_upper v k E : Rnd v k E -> 0 <= v ->
  IZR k * bpow E <= 2 * v + bpow (-1074).
Proof.
  intros (Hk0 & HE & Hk & Hbr) Hv. pose proof (bpow_pos E) as HbE.
  assert (Ev : v = v / bpow E * bpow E) by (field; lra).
  set (u := v / bpow E) in *.
  assert (0 <= (/2 - (IZR k - u)) * bpow E) by (apply Rmult_le_pos; lra).
  assert (Hk' : IZR k * bpow E <= v + bpow E / 2) by (rewrite Ev; lra).
  destruct Hbr as [[-> _]|[Hl _]]; [lra|].
  assert (bpow E <= bpow (E + 52)) by (apply bpow_le; lia).
  pose proof (bpow_pos (-1074)). lra.
Qed.

Lemma rounded_small v f : rounded v f -> Rabs v <= bpow 1022 -> is_fin f = true.
Proof.
  intros [Nf H] Hv.
  assert (HB : bpow 1024 = 4 * bpow 1022).
  { change 1024%Z with (1022 + 1 + 1)%Z. rewrite !bpow_succ. ring. }
  assert (Hs : bpow (-1074) <= bpow 1022) by (apply bpow_le; lia).
  pose proof (bpow_pos 1022) as Hp.
  assert (Hval : - bpow 1024 < SF2R f < bpow 1024).
  { destruct H as [[_ ->]|[(Hpos & k & E & HR & ->)|(Hneg & k & E & HR & ->)]].
    - lra.
    - pose proof (Rnd_value_upper _ _ _ HR ltac:(lra)).
      pose proof (Rnd_nonneg _ _ _ HR).
      rewrite Rabs_pos_eq in Hv by lra.
      rewrite Rmin_left by lra. rewrite Rmin_left in H0 by lra. lra.
    - pose proof (Rnd_value_upper _ _ _ HR ltac:(lra)).
      pose proof (Rnd_nonneg _ _ _ HR).
      rewrite Rabs_left in Hv by lra.
      rewrite Rmin_left by lra. rewrite Rmin_left in H0 by lra. lra. }
  destruct f as [s|s| |s m e]; try reflexivity; try congruence.
  destruct s; cbn [SF2R sgn] in Hval; lra.
Qed.

Lemma finite_le_max x : is_finite x = true ->
  - SF2R (S754_finite false 9007199254740991 971) <= F2R x
    <= SF2R (S754_finite false 9007199254740991 971).
Proof.
  rewrite is_finite_spec. unfold F2R. pose proof (Prim2SF_valid' x) as V.
  destruct (Prim2SF x) as [s|s| |s m e]; try discriminate; intros _; cbn [SF2R sgn].
  - assert (0 < IZR 9007199254740991) by (apply IZR_lt; lia).
    pose proof (bpow_pos 971). nra.
  - pose proof (valid_finite _ _ _ V) as (He & Hm & _).
    rewrite bpow_53 in Hm. apply lt_IZR in Hm.
    assert (Hm' : IZR (Z.pos m) <= IZR 9007199254740991) by (apply IZR_le; lia).
    assert (0 < IZR (Z.pos m)) by (apply IZR_lt; lia).
    assert (bpow e <= bpow 971) by (apply bpow_le; lia).
    pose proof (bpow_pos e).
    assert (IZR (Z.pos m) * bpow e <= IZR 9007199254740991 * bpow 971) by nra.
    destruct s; cbn [sgn]; nra.
Qed.

Lemma max_value_lt : SF2R (S754_finite false 9007199254740991 971) < bpow 1024.
Proof.
  cbn [SF2R sgn].
  assert (IZR 9007199254740991 < bpow 53) by (rewrite bpow_53; apply IZR_lt; lia).
  assert (E : bpow 1024 = bpow 53 * bpow 971) by (rewrite <- bpow_add; reflexivity).
  pose proof (bpow_pos 971). rewrite E. nra.
Qed.

Lemma add_one_finite x : is_finite x = true -> is_finite (1 + x)%float = true.
Proof.
  intros Fx. pose proof (finite_le_max x Fx) as [Hlo Hhi].
  pose proof max_value_lt as HB.
  set (M := 1.7976931348623157e308%float).
  assert (EM : F2R M = SF2R (S754_finite false 9007199254740991 971)) by reflexivity.
  assert (EN : F2R (- M)%float = - SF2R (S754_finite false 9007199254740991 971)).
  { change (F2R (- M)%float) with (SF2R (S754_finite true 9007199254740991 971)).
    cbn [SF2R sgn]. ring. }
  assert (Nx : Prim2SF x <> S754_nan) by now apply is_finite_not_nan.
  assert (H1 : (x <=? M)%float = true).
  { apply leb_F2R. split; [exact Nx|]. split; [vm_compute; discriminate|].
    rewrite EM. exact Hhi. }
  assert (H2 : (- M <=? x)%float = true).
  { apply leb_F2R. split; [vm_compute; discriminate|]. split; [exact Nx|].
    rewrite EN. exact Hlo. }
  pose proof (add_mono 1 1 x M eq_refl eq_refl Fx eq_refl eq_refl H1) as H3.
  pose proof (add_mono 1 1 (- M) x eq_refl eq_refl eq_refl Fx eq_refl H2) as H4.
  apply leb_F2R in H3 as (N & _ & H3). apply leb_F2R in H4 as (_ & _ & H4).
  change (1 + M)%float with M in H3. change (1 + - M)%float with (- M)%float in H4.
  apply F2R_finite; auto. lra.
Qed.

Lemma one_le_one_plus i : (0 <=? i) = true -> (1 <=? 1 + i) = true.
Proof.
  intros H. destruct (is_finite i) eqn:Fi.
  - exact (add_mono 1 1 0 i eq_refl eq_refl eq_refl Fi eq_refl H).
  - apply leb_F2R in H as (_ & Ni & H).
    destruct (not_finite_inf i Ni Fi) as [s Hs]. unfold F2R in H. rewrite Hs in H.
    assert (E : Prim2SF (1 + i) = S754_infinity s) by (rewrite add_spec, Hs; reflexivity).
    apply leb_F2R. split; [vm_compute; discriminate|]. split; [rewrite E; discriminate|].
    unfold F2R at 2. rewrite E.
    pose proof (F2R_range 1) as R1. change (SF2R (Prim2SF 0)) with 0%R in H.
    pose proof (bpow_pos 1024).
    destruct s; cbn [SF2R sgn] in *; lra.
Qed.

Lemma ltb_true_leb_false x y : (x <? y) = true -> (y <=? x) = false.
Proof.
  intros H. apply ltb_F2R in H as (_ & _ & H).
  destruct (y <=? x) eqn:E; auto. apply leb_F2R in E as (_ & _ & E). lra.
Qed.

End Binary64.

#[local] Open Scope float_scope.

(** * Binary64 arithmetic: infinities, NaN and signs

    The operations keep the order beyond the finite numbers: an infinity
    stays where it is, and a NaN makes every result NaN and every comparison
    false. *)

Section Infinities.
#[local] Open Scope R_scope.

Lemma finite_lt_bpow x : is_finite x = true -> - bpow 1024 < F2R x < bpow 1024.
Proof.
  intros F. pose proof (finite_le_max x F). pose proof max_value_lt. lra.
Qed.

Lemma le_infinity x y : is_nan x = false -> Prim2SF y = S754_infinity false ->
  (x <=? y)%float = true.
Proof.
  intros N E. apply leb_F2R. split; [now apply is_nan_false|].
  split; [rewrite E; discriminate|].
  unfold F2R at 2. rewrite E. cbn [SF2R sgn]. pose proof (F2R_range x). lra.
Qed.

Lemma neg_infinity_le x y : is_nan y = false -> Prim2SF x = S754_infinity true ->
  (x <=? y)%float = true.
Proof.
  intros N E. apply leb_F2R. split; [rewrite E; discriminate|].
  split; [now apply is_nan_false|].
  unfold F2R at 1. rewrite E. cbn [SF2R sgn]. pose proof (F2R_range y). lra.
Qed.

(** A number that is not finite and not below zero is [+Infinity]. *)
Lemma nonneg_not_finite x : (0 <=? x)%float = true -> is_finite x = false ->
  Prim2SF x = S754_infinity false.
Proof.
  intros H F. apply leb_F2R in H as (_ & N & V).
  destruct (not_finite_inf x N F) as [s Hs]. rewrite Hs.
  destruct s; [|reflexivity].
  unfold F2R in V. rewrite Hs in V. change (SF2R (Prim2SF 0%float)) with 0 in V.
  cbn [SF2R sgn] in V. pose proof (bpow_pos 1024). lra.
Qed.

(** An operation that keeps the order of finite numbers and maps each
    infinity to itself keeps the order of all numbers. *)
Lemma mono_ext (op : float -> float) :
  (forall x y, is_finite x = true -> is_finite y = true ->
     (x <=? y)%float = true -> (op x <=? op y)%float = true) ->
  (forall x s, Prim2SF x = S754_infinity s -> Prim2SF (op x) = S754_infinity s) ->
  (forall x, is_finite x = true -> is_nan (op x) = false) ->
  forall x y, (x <=? y)%float = true -> (op x <=? op y)%float = true.
Proof.
  intros Hfin Hinf Hnan x y H.
  pose proof H as H'. apply leb_F2R in H' as (Nx & Ny & V).
  assert (Nop : forall z, Prim2SF z <> S754_nan -> is_nan (op z) = false).
  { intros z Nz. destruct (is_finite z) eqn:Fz; [now apply Hnan|].
    destruct (not_finite_inf z Nz Fz) as [s Hs].
    apply is_nan_false. rewrite (Hinf z s Hs). discriminate. }
  destruct (is_finite x) eqn:Fx; [destruct (is_finite y) eqn:Fy|].
  - now apply Hfin.
  - destruct (not_finite_inf y Ny Fy) as [s Hs]. destruct s.
    + exfalso. unfold F2R at 2 in V. rewrite Hs in V. cbn [SF2R sgn] in V.
      pose proof (finite_lt_bpow x Fx). lra.
    + apply le_infinity; [now apply Nop|now apply Hinf].
  - destruct (not_finite_inf x Nx Fx) as [s Hs]. destruct s.
    + apply neg_infinity_le; [now apply Nop|now apply Hinf].
    + unfold F2R at 1 in V. rewrite Hs in V. cbn [SF2R sgn] in V.
      destruct (is_finite y) eqn:Fy.
      * exfalso. pose proof (finite_lt_bpow y Fy). lra.
      * destruct (not_finite_inf y Ny Fy) as [s' Hs']. destruct s'.
        -- exfalso. unfold F2R in V. rewrite Hs' in V. cbn [SF2R sgn] in V.
           pose proof (bpow_pos 1024). lra.
        -- apply le_infinity; [|now apply Hinf].
           apply Nop. rewrite Hs. discriminate.
Qed.

Lemma add_zero_l x : is_finite x = true -> F2R (0 + x)%float = F2R x.
Proof.
  intros F. unfold F2R. rewrite add_spec. unfold SF64add.
  change (Prim2SF 0%float) with (S754_zero false).
  apply SFadd_zero_l. now rewrite <- is_finite_spec.
Qed.

Lemma add_zero_r x : is_finite x = true -> F2R (x + 0)%float = F2R x.
Proof.
  intros F. unfold F2R. rewrite add_spec. unfold SF64add.
  change (Prim2SF 0%float) with (S754_zero false).
  apply SFadd_zero_r. now rewrite <- is_finite_spec.
Qed.

Lemma add_infinity_r x y : (0 <=? x)%float = true ->
  Prim2SF y = S754_infinity false -> Prim2SF (x + y)%float = S754_infinity false.
Proof.
  intros H E. apply leb_F2R in H as (_ & N & V).
  rewrite add_spec, E. unfold SF64add. unfold F2R in V.
  change (SF2R (Prim2SF 0%float)) with 0 in V.
  destruct (Prim2SF x) as [s|s| |s m e]; try congruence; try reflexivity.
  destruct s; [|reflexivity]. cbn [SF2R sgn] in V. pose proof (bpow_pos 1024). lra.
Qed.

Lemma add_infinity_l x y : (0 <=? y)%float = true ->
  Prim2SF x = S754_infinity false -> Prim2SF (x + y)%float = S754_infinity false.
Proof.
  intros H E. apply leb_F2R in H as (_ & N & V).
  rewrite add_spec, E. unfold SF64add. unfold F2R in V.
  change (SF2R (Prim2SF 0%float)) with 0 in V.
  destruct (Prim2SF y) as [s|s| |s m e]; try congruence; try reflexivity.
  destruct s; [|reflexivity]. cbn [SF2R sgn] in V. pose proof (bpow_pos 1024). lra.
Qed.

(** Adding a number that is not negative does not lower a number that is
    not negative. *)
Lemma add_ge_r x y : (0 <=? x)%float = true -> (0 <=? y)%float = true ->
  (y <=? x + y)%float = true.
Proof.
  intros Hx Hy.
  pose proof Hx as Hx'. apply leb_F2R in Hx' as (_ & Nx & _).
  pose proof Hy as Hy'. apply leb_F2R in Hy' as (_ & Ny & _).
  apply is_nan_false in Nx, Ny.
  destruct (is_finite x) eqn:Fx; [destruct (is_finite y) eqn:Fy|].
  - assert (H : (0 + y <=? x + y)%float = true).
    { apply add_mono; auto. now apply leb_refl. }
    apply leb_F2R in H as (_ & N & V). rewrite add_zero_l in V by auto.
    apply leb_F2R. split; [now apply is_nan_false|]. auto.
  - apply le_infinity; auto. apply add_infinity_r; auto.
    now apply nonneg_not_finite.
  - apply le_infinity; auto. apply add_infinity_l; auto.
    now apply nonneg_not_finite.
Qed.

Lemma add_ge_l x y : (0 <=? x)%float = true -> (0 <=? y)%float = true ->
  (x <=? x + y)%float = true.
Proof.
  intros Hx Hy.
  pose proof Hx as Hx'. apply leb_F2R in Hx' as (_ & Nx & _).
  pose proof Hy as Hy'. apply leb_F2R in Hy' as (_ & Ny & _).
  apply is_nan_false in Nx, Ny.
  destruct (is_finite x) eqn:Fx; [destruct (is_finite y) eqn:Fy|].
  - assert (H : (x + 0 <=? x + y)%float = true).
    { apply add_mono; auto. now apply leb_refl. }
    apply leb_F2R in H as (_ & N & V). rewrite add_zero_r in V by auto.
    apply leb_F2R. split; [now apply is_nan_false|]. auto.
  - apply le_infinity; auto. apply add_infinity_r; auto.
    now apply nonneg_not_finite.
  - apply le_infinity; auto. apply add_infinity_l; auto.
    now apply nonneg_not_finite.
Qed.

End Infinities.

Lemma add_one_mono x y : (x <=? y) = true -> (1 + x <=? 1 + y) = true.
Proof.
  apply (mono_ext (fun z => 1 + z)).
  - intros a b Fa Fb H. apply add_mono; auto.
  - intros a s E. rewrite add_spec, E. now destruct s.
  - intros a F. apply is_nan_false. now apply add_not_nan.
Qed.

Lemma sub_one_mono x y : (x <=? y) = true -> (x - 1 <=? y - 1) = true.
Proof.
  apply (mono_ext (fun z => z - 1)).
  - intros a b Fa Fb H.
    assert (E : forall z, z - 1 = z + -1).
    { intros z. rewrite <- (SF2Prim_Prim2SF (z - 1)), <- (SF2Prim_Prim2SF (z + -1)).
      rewrite sub_spec, add_spec. reflexivity. }
    rewrite !E. apply add_mono; auto.
  - intros a s E. rewrite sub_spec, E. now destruct s.
  - intros a F. apply sub_finite_r_not_nan; auto.
    apply is_nan_false. now apply is_finite_not_nan.
Qed.

Lemma div_pos_mono f x y : is_finite f = true -> (0 <? f) = true ->
  (x <=? y) = true -> (x / f <=? y / f) = true.
Proof.
  intros Ff Pf.
  assert (Hf : exists m e, Prim2SF f = S754_finite false m e).
  { apply ltb_F2R in Pf as (_ & N & V). rewrite is_finite_spec in Ff.
    unfold F2R in V. change (SF2R (Prim2SF 0)) with 0%R in V.
    pose proof (Prim2SF_valid' f) as Vf.
    destruct (Prim2SF f) as [s|s| |s m e]; try discriminate; cbn [SF2R] in V.
    - lra.
    - destruct s; [|eauto]. pose proof (valid_finite_pos _ _ _ Vf).
      cbn [sgn] in V. lra. }
  destruct Hf as (m & e & Ef).
  apply (mono_ext (fun z => z / f)).
  - intros a b Fa Fb H. now apply div_mono.
  - intros a s E. rewrite div_spec, E, Ef. now destruct s.
  - intros a F. apply div_nonzero_not_nan; auto.
    + apply is_nan_false. now apply is_finite_not_nan.
    + destruct (f =? 0) eqn:Z; auto. apply eqb_F2R in Z as (_ & _ & Z).
      apply ltb_F2R in Pf as (_ & _ & Pf). lra.
Qed.

(** Halving keeps the order, infinities included. *)
Lemma half_mono x y : (x <=? y) = true -> (x / 2 <=? y / 2) = true.
Proof. apply div_pos_mono; reflexivity. Qed.

Lemma leb_false_ltb x y : is_nan x = false -> is_nan y = false ->
  (x <=? y) = false -> (y <? x) = true.
Proof.
  intros Nx Ny H. apply is_nan_false in Nx, Ny. apply ltb_F2R.
  split; auto. split; auto.
  destruct (Rlt_le_dec (F2R y) (F2R x)) as [|Hle]; auto.
  assert ((x <=? y) = true) by (apply leb_F2R; auto). congruence.
Qed.

Lemma ltb_leb x y : (x <? y) = true -> (x <=? y) = true.
Proof.
  intros H. apply ltb_F2R in H as (Nx & Ny & V). apply leb_F2R.
  repeat split; auto. now apply Rlt_le.
Qed.

(** ** NaN operands *)

Lemma leb_nan_l x y : is_nan x = true -> (x <=? y) = false.
Proof.
  intros H. destruct (x <=? y) eqn:E; auto.
  apply leb_F2R in E as (N & _). apply is_nan_spec in H. congruence.
Qed.

Lemma leb_nan_r x y : is_nan y = true -> (x <=? y) = false.
Proof.
  intros H. destruct (x <=? y) eqn:E; auto.
  apply leb_F2R in E as (_ & N & _). apply is_nan_spec in H. congruence.
Qed.

Lemma add_nan_l a b : is_nan a = true -> is_nan (a + b) = true.
Proof.
  intros H. apply is_nan_spec in H. apply is_nan_spec.
  rewrite add_spec, H. unfold SF64add. now destruct (Prim2SF b).
Qed.

Lemma mul_nan_l a b : is_nan a = true -> is_nan (a * b) = true.
Proof.
  intros H. apply is_nan_spec in H. apply is_nan_spec.
  rewrite mul_spec, H. unfold SF64mul. now destruct (Prim2SF b).
Qed.

Lemma sub_nan_l a b : is_nan a = true -> is_nan (a - b) = true.
Proof.
  intros H. apply is_nan_spec in H. apply is_nan_spec.
  rewrite sub_spec, H. unfold SF64sub. now destruct (Prim2SF b).
Qed.

Lemma sub_nan_r a b : is_nan b = true -> is_nan (a - b) = true.
Proof.
  intros H. apply is_nan_spec in H. apply is_nan_spec.
  rewrite sub_spec, H. unfold SF64sub. now destruct (Prim2SF a).
Qed.

Lemma div_nan_l a b : is_nan a = true -> is_nan (a / b) = true.
Proof.
  intros H. apply is_nan_spec in H. apply is_nan_spec.
  rewrite div_spec, H. unfold SF64div. now destruct (Prim2SF b).
Qed.

Lemma nan_not_finite x : is_nan x = true -> is_finite x = false.
Proof.
  intros H. rewrite is_finite_spec. apply is_nan_spec in H. now rewrite H.
Qed.

(** ** Numbers that are not negative *)

Section NonNegative.
#[local] Open Scope R_scope.

Lemma mul_zero_l k : is_finite k = true -> F2R (0 * k)%float = 0.
Proof.
  intros F. unfold F2R. rewrite mul_spec. unfold SF64mul.
  change (Prim2SF 0%float) with (S754_zero false).
  apply SFmul_zero_l. now rewrite <- is_finite_spec.
Qed.

Lemma mul_nonneg x k : is_finite x = true -> is_finite k = true ->
  (0 <=? x)%float = true -> (0 <=? k)%float = true -> (0 <=? x * k)%float = true.
Proof.
  intros Fx Fk Hx Hk.
  assert (H : (0 * k <=? x * k)%float = true) by (apply mul_mono_l; auto).
  apply leb_F2R in H as (_ & N & V). rewrite mul_zero_l in V by auto.
  apply leb_F2R. split; [vm_compute; discriminate|]. split; auto.
Qed.

Lemma add_nonneg x y : is_finite x = true -> is_finite y = true ->
  (0 <=? x)%float = true -> (0 <=? y)%float = true -> (0 <=? x + y)%float = true.
Proof.
  intros Fx Fy Hx Hy.
  assert (H : (0 + 0 <=? x + y)%float = true) by (apply add_mono; auto).
  exact H.
Qed.

Lemma div_zero_l f : (0 <? f)%float = true -> F2R (0 / f)%float = 0.
Proof.
  intros H. apply ltb_F2R in H as (_ & N & V).
  unfold F2R in *. rewrite div_spec. unfold SF64div.
  change (Prim2SF 0%float) with (S754_zero false) in *.
  destruct (Prim2SF f) as [s|s| |s m e]; try congruence; reflexivity.
Qed.

Lemma div_nonneg x f : is_finite x = true ->
  (0 <=? x)%float = true -> (0 <? f)%float = true -> (0 <=? x / f)%float = true.
Proof.
  intros Fx Hx Hf.
  assert (H : (0 / f <=? x / f)%float = true) by (apply div_mono; auto).
  apply leb_F2R in H as (_ & N & V). rewrite div_zero_l in V by auto.
  apply leb_F2R. split; [vm_compute; discriminate|]. split; auto.
Qed.

(** A factor of 1 or more does not lower a number that is not negative. *)
Lemma mul_ge_self x k : is_finite x = true -> is_finite k = true ->
  (0 <=? x)%float = true -> (1 <=? k)%float = true -> (x <=? x * k)%float = true.
Proof.
  intros Fx Fk Hx Hk.
  assert (H : (x * 1 <=? x * k)%float = true) by (apply mul_mono_r; auto).
  apply leb_F2R in H as (_ & N & V). rewrite mul_one_r in V by auto.
  apply leb_F2R. split; [now apply is_finite_not_nan|]. split; auto.
Qed.

End NonNegative.

(** ** Opposites and differences *)

Section Opposite.
#[local] Open Scope R_scope.

Lemma opp_F2R x : F2R (- x)%float = - F2R x.
Proof.
  unfold F2R. rewrite opp_spec.
  destruct (Prim2SF x) as [s|s| |s m e]; cbn [SFopp SF2R]; try lra;
    destruct s; cbn [negb sgn]; lra.
Qed.

Lemma opp_finite x : is_finite (- x)%float = is_finite x.
Proof.
  rewrite !is_finite_spec, opp_spec. now destruct (Prim2SF x).
Qed.

Lemma opp_le x y : (x <=? y)%float = true -> (- y <=? - x)%float = true.
Proof.
  intros H. apply leb_F2R in H as (Nx & Ny & V). apply leb_F2R.
  split; [rewrite opp_spec; now destruct (Prim2SF y)|].
  split; [rewrite opp_spec; now destruct (Prim2SF x)|].
  rewrite !opp_F2R. lra.
Qed.

End Opposite.

Lemma sub_add_opp x y : x - y = x + - y.
Proof.
  rewrite <- (SF2Prim_Prim2SF (x - y)), <- (SF2Prim_Prim2SF (x + - y)).
  rewrite sub_spec, add_spec, opp_spec. f_equal. unfold SF64sub, SF64add.
  destruct (Prim2SF x) as [[|]|[|]| |[|] mx ex], (Prim2SF y) as [[|]|[|]| |[|] my ey];
    reflexivity.
Qed.

Lemma finite_between lo hi c : is_finite lo = true -> is_finite hi = true ->
  (lo <=? c) = true -> (c <=? hi) = true -> is_finite c = true.
Proof.
  intros Fl Fh H0 H1.
  apply leb_F2R in H0 as (_ & N & V0). apply leb_F2R in H1 as (_ & _ & V1).
  apply F2R_finite; auto.
  pose proof (finite_lt_bpow lo Fl). pose proof (finite_lt_bpow hi Fh). lra.
Qed.

(** What is left of a gain after a tax between 0 and 1 is a share between
    0 and 1. *)
Lemma sub_from_one c : (0 <=? c) = true -> (c <=? 1) = true ->
  is_finite (1 - c) = true /\ (0 <=? 1 - c) = true.
Proof.
  intros H0 H1.
  assert (Fc : is_finite c = true) by (apply (finite_between 0 1); auto).
  rewrite sub_add_opp. split.
  - apply add_one_finite. now rewrite opp_finite.
  - change 0 with (1 + - (1)) at 1.
    apply add_mono; auto; try (now rewrite opp_finite).
    now apply opp_le.
Qed.

(** * The library functions *)

Lemma Math_max_0_neg pv : (pv <? 0) = true -> Math_max 0 pv = 0.
Proof.
  intros H. pose proof (ltb_true_not _ _ H) as H'.
  apply ltb_F2R in H as (N & _ & _). apply is_nan_false in N.
  unfold Math_max. rewrite N. change (is_nan 0) with false. cbn [orb].
  change (max_step neg_infinity 0) with 0. unfold max_step.
  change (is_neg_zero 0) with false. rewrite andb_false_r, H'. reflexivity.
Qed.

Section Clamp.
#[local] Open Scope R_scope.

Lemma clamp_spec n lo hi : is_nan n = false -> is_nan lo = false -> is_nan hi = false ->
  is_nan (clamp n lo hi) = false /\
  F2R (clamp n lo hi) = Rmin (F2R hi) (Rmax (F2R lo) (F2R n)).
Proof.
  intros Nn Nlo Nhi. unfold clamp.
  destruct (Math_max_spec lo n Nlo Nn) as [N1 V1].
  destruct (Math_min_spec hi _ Nhi N1) as [N2 V2].
  split; auto. now rewrite V2, V1.
Qed.

Lemma clamp_range n lo hi : is_nan n = false -> (lo <=? hi)%float = true ->
  (lo <=? clamp n lo hi)%float = true /\ (clamp n lo hi <=? hi)%float = true.
Proof.
  intros Nn H. apply leb_F2R in H as (Nlo & Nhi & H).
  apply is_nan_false in Nlo, Nhi.
  destruct (clamp_spec n lo hi Nn Nlo Nhi) as [Nc Vc].
  apply is_nan_false in Nlo, Nhi, Nc.
  split; apply leb_F2R; repeat split; auto; rewrite Vc.
  - apply Rmin_glb; auto. apply Rmax_l.
  - apply Rmin_l.
Qed.

Lemma clamp_nan lo hi n : is_nan n = true -> is_nan (clamp n lo hi) = true.
Proof.
  intros H. unfold clamp, Math_min, Math_max. rewrite H, orb_true_r.
  change (is_nan nan) with true. now rewrite orb_true_r.
Qed.

End Clamp.

(** The reference [Math.pow] is 1 at the exponent 0 and, on bases from 1
    up, does not decrease in the exponent. *)
Lemma pow_ref_0 b : pow_ref b 0 = 1.
Proof. reflexivity. Qed.

Lemma pow_nat_ge_1 b n : (1 <=? b) = true -> (1 <=? pow_nat b n) = true.
Proof.
  intros Hb. induction n as [|n IH]; [reflexivity|].
  cbn [pow_nat]. apply leb_trans with (1 := IH). now apply mul_ge_l.
Qed.

Lemma pow_ref_mono b m : (1 <=? b) = true -> (0 <= m)%Z ->
  (pow_ref b m <=? pow_ref b (m + 1)) = true.
Proof.
  intros Hb Hm. unfold pow_ref.
  destruct (Z.ltb_spec m 0); [lia|]. destruct (Z.ltb_spec (m + 1) 0); [lia|].
  replace (Z.to_nat (m + 1)) with (S (Z.to_nat m)) by lia. cbn [pow_nat].
  apply mul_ge_l; auto. now apply pow_nat_ge_1.
Qed.

(** [Math.max (0, high)] is [high] itself for a positive [high]. *)
Lemma Math_max_0_pos h : (0 <? h) = true -> Math_max 0 h = h.
Proof.
  intros H. unfold Math_max.
  assert (N : is_nan h = false).
  { apply ltb_F2R in H as (_ & N & _). now apply is_nan_false. }
  rewrite N. cbn [orb].
  change (is_nan 0) with false. cbn [orb].
  change (max_step neg_infinity 0) with 0.
  unfold max_step. change (is_neg_zero 0) with false.
  rewrite andb_false_r, H. reflexivity.
Qed.

Lemma Math_max_nan_r a b : is_nan b = true -> Math_max a b = nan.
Proof. intros H. unfold Math_max. now rewrite H, orb_true_r. Qed.

Lemma Math_max_mono a x y : is_nan a = false ->
  (x <=? y) = true -> (Math_max a x <=? Math_max a y) = true.
Proof.
  intros Na H. apply leb_F2R in H as (Nx & Ny & V).
  apply is_nan_false in Nx, Ny.
  destruct (Math_max_spec a x Na Nx) as [N1 V1].
  destruct (Math_max_spec a y Na Ny) as [N2 V2].
  apply leb_F2R. split; [now apply is_nan_false|]. split; [now apply is_nan_false|].
  rewrite V1, V2. apply Rle_max_compat_l. exact V.
Qed.

Lemma Math_max_ge_l a x : is_nan a = false -> is_nan x = false ->
  (a <=? Math_max a x) = true.
Proof.
  intros Na Nx. destruct (Math_max_spec a x Na Nx) as [N V].
  apply leb_F2R. split; [now apply is_nan_false|]. split; [now apply is_nan_false|].
  rewrite V. apply Rmax_l.
Qed.

Section ClampOrder.
#[local] Open Scope R_scope.

Lemma clamp_mono x y lo hi : is_nan lo = false -> is_nan hi = false ->
  (x <=? y)%float = true -> (clamp x lo hi <=? clamp y lo hi)%float = true.
Proof.
  intros Nl Nh H. apply leb_F2R in H as (Nx & Ny & V).
  apply is_nan_false in Nx, Ny.
  destruct (clamp_spec x lo hi Nx Nl Nh) as [N1 V1].
  destruct (clamp_spec y lo hi Ny Nl Nh) as [N2 V2].
  apply leb_F2R. split; [now apply is_nan_false|]. split; [now apply is_nan_false|].
  rewrite V1, V2. apply Rle_min_compat_l. apply Rle_max_compat_l. exact V.
Qed.

End ClampOrder.

(** The reference twelfth root is not negative. *)
Lemma root_bisect_nonneg b n : forall lo hi,
  (0 <=? lo) = true -> (0 <=? hi) = true -> (0 <=? root_bisect b n lo hi) = true.
Proof.
  induction n as [|n IH]; intros lo hi Hl Hh; [exact Hl|]. cbn [root_bisect].
  assert (Hm : (0 <=? (lo + hi) / 2) = true).
  { change 0 with (0 / 2) at 1. apply half_mono.
    apply leb_trans with (1 := Hh). now apply add_ge_r. }
  destruct (pow_nat ((lo + hi) / 2) 12 <=? b); apply IH; auto.
Qed.

Lemma pow_frac_ref_nonneg b e : (0 <=? b) = true -> (0 <=? pow_frac_ref b e) = true.
Proof.
  intros H. unfold pow_frac_ref, twelfth_root.
  apply root_bisect_nonneg; [reflexivity|].
  apply leb_trans with 1; [reflexivity|].
  apply Math_max_ge_l; [reflexivity|].
  apply leb_F2R in H as (_ & N & _). now apply is_nan_false.
Qed.

(** ** [clamp] *)

(** X1. With [min <= max] and a number [n], [clamp] gives [min] for [n] up
    to [min], [max] for [n] from [max] up, and [n] in between (as numbers:
    the sign of a zero may differ). *)
Theorem clamp_saturates n lo hi :
  is_nan n = false -> (lo <=? hi) = true ->
  ((n <=? lo) = true -> (clamp n lo hi =? lo) = true) /\
  ((hi <=? n) = true -> (clamp n lo hi =? hi) = true) /\
  ((lo <=? n) = true -> (n <=? hi) = true -> (clamp n lo hi =? n) = true).
Proof.
  intros Nn H. apply leb_F2R in H as (Nl & Nh & V).
  pose proof Nl as Nl'. pose proof Nh as Nh'. apply is_nan_false in Nl', Nh'.
  destruct (clamp_spec n lo hi Nn Nl' Nh') as [N E]. apply is_nan_false in N.
  repeat split.
  - intros H. apply leb_F2R in H as (_ & _ & H). apply eqb_F2R. repeat split; auto.
    rewrite E. rewrite Rmax_left by exact H. now apply Rmin_right.
  - intros H. apply leb_F2R in H as (_ & _ & H). apply eqb_F2R. repeat split; auto.
    rewrite E. apply Rmin_left. eapply Rle_trans; [exact H|apply Rmax_r].
  - intros H1 H2. apply leb_F2R in H1 as (_ & Nn' & H1). apply leb_F2R in H2 as (_ & _ & H2).
    apply eqb_F2R. repeat split; auto.
    rewrite E. rewrite Rmax_right by exact H1. now apply Rmin_right.
Qed.

Lemma clamp_saturates_witness :
  (clamp (-3) 0 1 =? 0) = true /\ (clamp 1.5 0 1 =? 1) = true /\
  (clamp 0.15 0 1 =? 0.15) = true.
Proof.
  split; [|split].
  - apply (clamp_saturates (-3) 0 1); reflexivity.
  - apply (clamp_saturates 1.5 0 1); reflexivity.
  - apply (clamp_saturates 0.15 0 1); reflexivity.
Defined.

(** X2. With the bounds the wrong way round, [max < min], [clamp] gives
    [max] for every number. *)
Theorem clamp_inverted n lo hi :
  is_nan n = false -> (hi <? lo) = true -> (clamp n lo hi =? hi) = true.
Proof.
  intros Nn H. apply ltb_F2R in H as (Nh & Nl & V).
  pose proof Nl as Nl'. pose proof Nh as Nh'. apply is_nan_false in Nl', Nh'.
  destruct (clamp_spec n lo hi Nn Nl' Nh') as [N E]. apply is_nan_false in N.
  apply eqb_F2R. repeat split; auto.
  rewrite E. apply Rmin_left. eapply Rle_trans; [|apply Rmax_l]. now apply Rlt_le.
Qed.

Lemma clamp_inverted_witness : (clamp 0.5 1 0 =? 0) = true.
Proof. apply (clamp_inverted 0.5 1 0); reflexivity. Defined.

(** * Reading a number *)

Lemma whitespace_not_significant c : is_whitespace c = true -> significant c = false.
Proof.
  unfold is_whitespace, significant, is_digit. intros H.
  repeat match goal with
  | H : (_ || _) = true |- _ => apply orb_true_iff in H as [H|H]
  | H : (_ && _) = true |- _ => apply andb_true_iff in H as [? ?]
  | H : N.eqb _ _ = true |- _ => apply N.eqb_eq in H; subst
  | H : N.leb _ _ = true |- _ => apply N.leb_le in H
  end; try reflexivity;
  repeat match goal with
  | |- (_ || _) = false => apply orb_false_iff; split
  | |- (_ && _) = false => apply andb_false_iff
  | |- N.eqb _ _ = false => apply N.eqb_neq; lia
  end; try (right; apply N.leb_gt; lia); try (left; apply N.leb_gt; lia).
Qed.

Lemma filter_trimStart s : filter significant (trimStart s) = filter significant s.
Proof.
  induction s as [|c s IH]; [reflexivity|].
  cbn [trimStart]. destruct (is_whitespace c) eqn:W; [|reflexivity].
  cbn [filter]. now rewrite (whitespace_not_significant c W).
Qed.

Lemma filter_rev {A} (f : A -> bool) (l : list A) : filter f (rev l) = rev (filter f l).
Proof.
  induction l as [|x l IH]; [reflexivity|].
  cbn [rev filter]. rewrite filter_app, IH. cbn [filter].
  destruct (f x); cbn [rev]; [reflexivity|now rewrite app_nil_r].
Qed.

Lemma filter_trim s : filter significant (trim s) = filter significant s.
Proof.
  unfold trim, trimEnd.
  rewrite filter_rev, filter_trimStart, filter_rev, rev_involutive.
  apply filter_trimStart.
Qed.

Lemma filter_filter {A} (f g : A -> bool) (l : list A) :
  filter f (filter g l) = filter (fun x => g x && f x) l.
Proof.
  induction l as [|x l IH]; [reflexivity|].
  cbn [filter]. destruct (g x); cbn [andb filter]; [destruct (f x)|]; now rewrite IH.
Qed.

Lemma filter_idem {A} (f : A -> bool) (l : list A) : filter f (filter f l) = filter f l.
Proof.
  induction l as [|x l IH]; [reflexivity|].
  cbn [filter]. destruct (f x) eqn:E; [|exact IH].
  cbn [filter]. now rewrite E, IH.
Qed.

(** After the first comma the other commas go with the full stops. *)
Lemma keep_remove_filter s :
  keep_numeric (remove_dots s) = keep_numeric (filter significant s).
Proof.
  unfold keep_numeric, remove_dots, significant.
  induction s as [|c s IH]; [reflexivity|]. cbn [filter].
  destruct (N.eqb_spec c 46) as [->|Hd]; cbn [negb]; [exact IH|].
  destruct (is_digit c) eqn:D; cbn [orb filter].
  - rewrite D. cbn [orb]. now rewrite IH.
  - destruct (N.eqb_spec c 44) as [->|Hc]; cbn [orb filter]; [exact IH|].
    apply N.eqb_neq in Hd. rewrite Hd. cbn [orb].
    destruct (c =? 45)%N eqn:M; cbn [filter]; rewrite ?D, ?Hd, ?M; cbn [orb];
      [f_equal|]; exact IH.
Qed.

(** Removing the characters that are not significant commutes with the
    last three steps of the cleaning. *)
Lemma keep_replace_filter s :
  keep_numeric (replace_comma (remove_dots s)) =
  keep_numeric (replace_comma (filter significant s)).
Proof.
  induction s as [|c s IH]; [reflexivity|].
  unfold remove_dots in *. cbn [filter].
  destruct (N.eqb_spec c 46) as [->|Hd]; cbn [negb]; [exact IH|].
  destruct (N.eqb_spec c 44) as [->|Hc].
  - change (significant 44%N) with true. cbv iota.
    change (replace_comma (44%N :: ?r)) with (46%N :: r).
    change (keep_numeric (46%N :: ?r)) with (46%N :: keep_numeric r).
    f_equal. apply keep_remove_filter.
  - apply N.eqb_neq in Hc, Hd.
    unfold significant. rewrite Hc, orb_false_r.
    destruct (is_digit c || (c =? 45)%N) eqn:S.
    + cbn [replace_comma]. rewrite Hc. unfold keep_numeric in *. cbn [filter].
      now rewrite IH.
    + cbn [replace_comma]. rewrite Hc. unfold keep_numeric in *. cbn [filter].
      apply orb_false_iff in S as [D M]. rewrite D, Hd, M. exact IH.
Qed.

Lemma keep_significant s : keep_numeric (filter significant s) = digits_and_hyphens s.
Proof.
  unfold keep_numeric, digits_and_hyphens. rewrite filter_filter.
  apply filter_ext. intros c. unfold significant.
  destruct (is_digit c); [reflexivity|]. cbn [orb].
  destruct (N.eqb_spec c 45) as [->|]; [reflexivity|].
  destruct (N.eqb_spec c 44) as [->|]; reflexivity.
Qed.

Lemma replace_comma_app a b : ~ In 44%N a ->
  replace_comma (a ++ 44%N :: b) = a ++ 46%N :: b.
Proof.
  induction a as [|c a IH]; intros H; [reflexivity|].
  cbn [app replace_comma]. destruct (N.eqb_spec c 44) as [->|Hc].
  - exfalso. apply H. now left.
  - f_equal. apply IH. intros Hin. apply H. now right.
Qed.

Lemma replace_comma_none a : ~ In 44%N a -> replace_comma a = a.
Proof.
  induction a as [|c a IH]; intros H; [reflexivity|].
  cbn [replace_comma]. destruct (N.eqb_spec c 44) as [->|Hc].
  - exfalso. apply H. now left.
  - f_equal. apply IH. intros Hin. apply H. now right.
Qed.

Lemma cleaned_significant s :
  cleaned s = keep_numeric (replace_comma (filter significant s)).
Proof.
  unfold cleaned. now rewrite keep_replace_filter, filter_trim.
Qed.

Lemma cleaned_filter s : cleaned s = cleaned (filter significant s).
Proof. now rewrite !cleaned_significant, filter_idem. Qed.

Lemma parseNumberBR_finite Number value :
  is_finite (parseNumberBR Number value) = true.
Proof.
  unfold parseNumberBR, Number_isFinite. cbv zeta.
  destruct (is_finite (Number (cleaned value))) eqn:F; [exact F|reflexivity].
Qed.

(** X3. [parseNumberBR] reads the digits, the commas and the hyphens of a
    text and nothing else: full stops, spaces, letters and currency signs
    can be taken out of the text without changing the result.  The result
    is always finite. *)
Theorem parseNumberBR_significant Number value :
  parseNumberBR Number value = parseNumberBR Number (filter significant value) /\
  Number_isFinite (parseNumberBR Number value) = true.
Proof.
  split; [|apply parseNumberBR_finite].
  unfold parseNumberBR. now rewrite <- cleaned_filter.
Qed.

(** X4. The text handed to [Number] holds the digits and hyphens of the
    input, with one full stop where the first comma of the input stood:
    the full stops of the input and its later commas are dropped. *)
Theorem cleaned_shape a b :
  ~ In 44%N a ->
  cleaned a = digits_and_hyphens a /\
  cleaned (a ++ 44%N :: b) = digits_and_hyphens a ++ 46%N :: digits_and_hyphens b.
Proof.
  intros H.
  assert (H' : ~ In 44%N (filter significant a)).
  { intros Hin. apply filter_In in Hin as [Hin _]. auto. }
  rewrite !cleaned_significant. split.
  - rewrite replace_comma_none by exact H'. apply keep_significant.
  - rewrite filter_app. cbn [filter]. change (significant 44%N) with true. cbv iota.
    rewrite replace_comma_app by exact H'.
    unfold keep_numeric. rewrite filter_app. cbn [filter].
    change (is_digit 46%N || (46 =? 46)%N || (46 =? 45)%N) with true. cbv iota.
    fold (keep_numeric (filter significant a)) (keep_numeric (filter significant b)).
    now rewrite !keep_significant.
Qed.

Lemma cleaned_shape_witness :
  cleaned (text_reais ++ 44%N :: text_centavos) = [49; 50; 51; 52; 46; 53; 54]%N.
Proof.
  apply (cleaned_shape text_reais text_centavos).
  intros H. repeat (destruct H as [H|H]; [discriminate|]). exact H.
Defined.

(** X5. Every amount that [App] reads from a text field is a finite number
    that is not negative, whatever the text and the host's conversion. *)
Theorem amount_finite Number text :
  Number_isFinite (amount Number text) = true /\ (0 <=? amount Number text) = true.
Proof.
  unfold amount. pose proof (parseNumberBR_finite Number text) as F.
  set (x := parseNumberBR Number text) in *.
  assert (N : is_nan x = false) by (now apply is_nan_false, is_finite_not_nan).
  split; [|now apply Math_max_ge_l].
  destruct (Math_max_spec 0 x eq_refl N) as [N' V].
  apply F2R_finite; [now apply is_nan_false|].
  rewrite V. change (F2R 0) with 0%R.
  pose proof (finite_lt_bpow x F). pose proof (bpow_pos 1024).
  unfold Rmax. destruct (Rle_dec 0 (F2R x)); lra.
Qed.

(** * Rate conversion *)

(** With finite inputs and [1 + inflation] not zero, the rate before the
    clamp is a number. *)
Lemma real_of_gross_not_nan g tax infl :
  is_finite g = true -> is_finite tax = true -> is_finite infl = true ->
  (1 + infl =? 0) = false ->
  is_nan ((1 + g * (1 - clamp tax 0 1)) / (1 + infl) - 1) = false.
Proof.
  intros Fg Ft Fi Hz.
  assert (Ntax : is_nan tax = false) by (apply is_nan_false; now apply is_finite_not_nan).
  destruct (clamp_spec tax 0 1 Ntax eq_refl eq_refl) as [Nc Vc].
  set (c := clamp tax 0 1) in *.
  assert (E1 : F2R 1 = 1%R).
  { change (F2R 1) with (1 * IZR 4503599627370496 * bpow (-52))%R.
    change 4503599627370496%Z with (2 ^ 52)%Z. rewrite <- bpow_52.
    rewrite Rmult_1_l, <- bpow_add. change (52 + -52)%Z with 0%Z. apply bpow_0. }
  change (F2R 0) with 0%R in Vc. rewrite E1 in Vc.
  assert (Hc : (0 <= F2R c <= 1)%R).
  { rewrite Vc. split; [apply Rmin_glb; [lra|apply Rmax_l]|apply Rmin_l]. }
  assert (HB : (1 <= bpow 1022)%R) by (apply bpow_ge_1; lia).
  assert (HB' : (bpow 1022 < bpow 1024)%R) by (apply bpow_lt; lia).
  assert (Fc : is_finite c = true).
  { apply F2R_finite; [now apply is_nan_false|]. lra. }
  assert (Fs : is_finite (1 - c) = true).
  { rewrite is_finite_spec, sub_spec. rewrite is_finite_spec in Fc.
    apply rounded_small with (SF2R (Prim2SF 1) - SF2R (Prim2SF c))%R.
    - apply SFsub_rounded; auto using Prim2SF_valid'.
    - fold (F2R 1). fold (F2R c). rewrite E1, Rabs_pos_eq by lra. lra. }
  apply sub_finite_r_not_nan; [|reflexivity].
  apply div_nonzero_not_nan; auto.
  - apply add_finite_l_not_nan; [reflexivity|].
    apply is_nan_false. now apply mul_not_nan.
  - now apply add_one_finite.
Qed.

(** C7, as the code has it. The result is the clamp of the rate before
    clamping, [(1 + gross * (1 - tax')) / (1 + inflation) - 1] with [tax']
    the tax clamped to [0, 1]. It lies in [-0.99, 10] whenever that rate is
    a number, as it is for all finite inputs with [1 + inflation] not zero,
    and it is [NaN] when that rate is [NaN]. *)
Theorem realMonthlyRateFromGross_range g tax infl :
  let real := (1 + g * (1 - clamp tax 0 1)) / (1 + infl) - 1 in
  let rate := realMonthlyRateFromGross g tax infl in
  rate = clamp real (-0.99) 10 /\
  (is_nan real = false -> (-0.99 <=? rate) = true /\ (rate <=? 10) = true) /\
  (is_finite g = true -> is_finite tax = true -> is_finite infl = true ->
   (1 + infl =? 0) = false -> (-0.99 <=? rate) = true /\ (rate <=? 10) = true) /\
  (is_nan real = true -> is_nan rate = true).
Proof.
  intros real rate. split; [reflexivity|]. split; [|split].
  - intros N. apply clamp_range; auto.
  - intros Fg Ft Fi Hz. apply clamp_range; [|reflexivity].
    now apply real_of_gross_not_nan.
  - apply clamp_nan.
Qed.

(** C7 as stated fails: a gross rate of -100% with inflation of -100%
    makes the rate before clamping 0/0, and the clamp lets [NaN] through. *)
Lemma realMonthlyRateFromGross_counterexample :
  realMonthlyRateFromGross (-1) 0 (-1) = nan /\
  (-0.99 <=? realMonthlyRateFromGross (-1) 0 (-1)) = false /\
  (realMonthlyRateFromGross (-1) 0 (-1) <=? 10) = false.
Proof. repeat split. Qed.

(** ** Taxes, gross rates and annual rates *)

(** The tax rate is read as 0 from 0 down and as 1 from 1 up. *)
Lemma clamp_tax_low tax : (tax <=? 0) = true -> clamp tax 0 1 = 0.
Proof.
  intros H. unfold clamp, Math_max.
  assert (N : is_nan tax = false).
  { apply leb_F2R in H as (N & _). now apply is_nan_false. }
  rewrite N. change (is_nan 0 || false) with false. cbv iota.
  change (max_step neg_infinity 0) with 0. unfold max_step.
  change (is_neg_zero 0) with false. rewrite andb_false_r.
  destruct (0 <? tax) eqn:L.
  - apply ltb_true_leb_false in L. congruence.
  - reflexivity.
Qed.

Lemma clamp_tax_high tax : (1 <=? tax) = true -> clamp tax 0 1 = 1.
Proof.
  intros H. unfold clamp, Math_max.
  assert (N : is_nan tax = false).
  { apply leb_F2R in H as (_ & N & _). now apply is_nan_false. }
  rewrite N. change (is_nan 0 || false) with false. cbv iota.
  change (max_step neg_infinity 0) with 0. unfold max_step at 1.
  change (is_neg_zero 0) with false. rewrite andb_false_r.
  assert (L : (0 <? tax) = true).
  { apply ltb_leb_trans with (2 := H). reflexivity. }
  rewrite L. unfold Math_min. rewrite N.
  change (is_nan 1 || false) with false. cbv iota.
  change (min_step infinity 1) with 1. unfold min_step.
  change (is_pos_zero 1) with false. rewrite andb_false_r.
  destruct (tax <? 1) eqn:L'.
  - apply ltb_true_leb_false in L'. congruence.
  - reflexivity.
Qed.

Lemma one_plus_mul_zero g : is_finite g = true -> 1 + g * 0 = 1.
Proof.
  intros F. rewrite is_finite_spec in F.
  assert (E : g * 0 = 0 \/ g * 0 = -0).
  { rewrite <- (SF2Prim_Prim2SF (g * 0)), mul_spec. unfold SF64mul.
    change (Prim2SF 0) with (S754_zero false).
    destruct (Prim2SF g) as [s|s| |s m e]; try discriminate;
      destruct s; cbn [SFmul xorb]; auto. }
  destruct E as [-> | ->]; reflexivity.
Qed.

(** X6. [annualToMonthlyRate] gives -0.999999 for an annual rate of -100%
    or less.  For every annual rate that is a number the result is -1 or
    more, so that [1 + rate], the base of the inflation factor, is not
    negative, on a host whose [Math.pow] is not negative on a base that is
    not negative. *)
Theorem annualToMonthlyRate_floor Math_pow_frac a :
  (forall b e, (0 <=? b) = true -> (0 <=? Math_pow_frac b e) = true) ->
  is_nan a = false ->
  ((a <=? -1) = true -> annualToMonthlyRate Math_pow_frac a = -0.999999) /\
  (-1 <=? annualToMonthlyRate Math_pow_frac a) = true /\
  (0 <=? 1 + annualToMonthlyRate Math_pow_frac a) = true.
Proof.
  intros Hpow Na.
  assert (H : (-1 <=? annualToMonthlyRate Math_pow_frac a) = true).
  { unfold annualToMonthlyRate. destruct (a <=? -1) eqn:G; [reflexivity|].
    apply leb_false_ltb in G; auto. apply ltb_leb in G.
    apply add_one_mono in G. change (1 + -1) with 0 in G.
    apply (Hpow _ (1 / 12)) in G. apply sub_one_mono in G. exact G. }
  split; [|split; [exact H|]].
  - intros G. unfold annualToMonthlyRate. now rewrite G.
  - apply add_one_mono in H. exact H.
Qed.

Lemma annualToMonthlyRate_floor_witness :
  (-1 <=? annualToMonthlyRate pow_frac_ref 0.12) = true /\
  (0 <=? 1 + annualToMonthlyRate pow_frac_ref 0.12) = true.
Proof.
  exact (proj2 (annualToMonthlyRate_floor pow_frac_ref 0.12 pow_frac_ref_nonneg eq_refl)).
Defined.

(** X7. The tax rate is saturated: a tax of 0 or less is read as 0, a tax
    of 1 or more as 1, and with a tax of 1 or more the rate no longer
    depends on a finite gross rate. *)
Theorem realMonthlyRateFromGross_tax g tax infl :
  ((tax <=? 0) = true ->
   realMonthlyRateFromGross g tax infl = realMonthlyRateFromGross g 0 infl) /\
  ((1 <=? tax) = true ->
   realMonthlyRateFromGross g tax infl = realMonthlyRateFromGross g 1 infl) /\
  ((1 <=? tax) = true -> is_finite g = true ->
   realMonthlyRateFromGross g tax infl = clamp (1 / (1 + infl) - 1) (-0.99) 10).
Proof.
  unfold realMonthlyRateFromGross. repeat split.
  - intros H. rewrite (clamp_tax_low _ H). reflexivity.
  - intros H. rewrite (clamp_tax_high _ H). reflexivity.
  - intros H F. rewrite (clamp_tax_high _ H).
    change (1 - 1) with 0. now rewrite one_plus_mul_zero.
Qed.

Lemma realMonthlyRateFromGross_tax_witness :
  realMonthlyRateFromGross 0.01 (-0.5) 0.003 = realMonthlyRateFromGross 0.01 0 0.003 /\
  realMonthlyRateFromGross 0.01 1.5 0.003 = clamp (1 / (1 + 0.003) - 1) (-0.99) 10.
Proof.
  split.
  - apply (realMonthlyRateFromGross_tax 0.01 (-0.5) 0.003). reflexivity.
  - apply (realMonthlyRateFromGross_tax 0.01 1.5 0.003); reflexivity.
Defined.

(** X8. With an inflation above -100%, a higher gross rate never gives a
    lower real rate. *)
Theorem realMonthlyRateFromGross_monotone g1 g2 tax infl :
  is_finite g1 = true -> is_finite g2 = true -> is_nan tax = false ->
  is_finite (1 + infl) = true -> (0 <? 1 + infl) = true ->
  (g1 <=? g2) = true ->
  (realMonthlyRateFromGross g1 tax infl <=? realMonthlyRateFromGross g2 tax infl) = true.
Proof.
  intros F1 F2 Nt Fi Pi H. unfold realMonthlyRateFromGross.
  destruct (clamp_range tax 0 1 Nt eq_refl) as [C0 C1].
  destruct (sub_from_one _ C0 C1) as [Ft Pt].
  apply clamp_mono; try reflexivity.
  apply sub_one_mono. apply div_pos_mono; auto.
  apply add_one_mono. now apply mul_mono_l.
Qed.

Lemma realMonthlyRateFromGross_monotone_witness :
  (realMonthlyRateFromGross 0.004 0.15 0.003 <=?
   realMonthlyRateFromGross 0.01 0.15 0.003) = true.
Proof.
  apply (realMonthlyRateFromGross_monotone 0.004 0.01 0.15 0.003); reflexivity.
Defined.

(** * The projection simulator *)

Lemma nth_error_last {A} (l : list A) (d : A) :
  l <> [] -> nth_error l (length l - 1) = Some (last l d).
Proof.
  induction l as [|x l IH]; [congruence|]. intros _.
  destruct l as [|y l]; [reflexivity|].
  replace (length (x :: y :: l) - 1)%nat with (S (length (y :: l) - 1))
    by (cbn [length]; lia).
  cbn [nth_error]. rewrite IH by discriminate. reflexivity.
Qed.

Section Trajectory.
Variable Math_pow : num -> Z -> num.
Variable p : SimParams.

Let snap (k : nat) : SimulationPoint :=
  snapshot Math_pow p (Z.of_nat k) (balance_at Math_pow p k).

Lemma balance_at_succ k :
  balance_at Math_pow p (S k) =
  advance (timing p) (realMonthlyRate p) (balance_at Math_pow p k)
    (contributionReal (snap k)).
Proof. reflexivity. Qed.

(** The loop entered at month [j] with the balance of month [j] pushes the
    snapshots of the months from [j] on. *)
Lemma simulate_loop_nth n : forall j k pt,
  nth_error (simulate_loop Math_pow p n (Z.of_nat j) (balance_at Math_pow p j)) k = Some pt ->
  pt = snap (j + k).
Proof.
  induction n as [|n IH]; intros j k pt H.
  - destruct k; discriminate.
  - cbn [simulate_loop] in H.
    destruct (Z.of_nat j <=? months p)%Z; [|destruct k; discriminate].
    destruct (Z.of_nat j =? months p)%Z.
    { destruct k as [|[|k]]; try discriminate. injection H as <-.
      now rewrite Nat.add_0_r. }
    destruct (negb (Number_isFinite _)).
    { destruct k as [|[|k]]; try discriminate. injection H as <-.
      now rewrite Nat.add_0_r. }
    destruct k as [|k].
    + injection H as <-. now rewrite Nat.add_0_r.
    + cbn [nth_error] in H. fold (snap j) in H. rewrite <- balance_at_succ in H.
      replace (Z.of_nat j + 1)%Z with (Z.of_nat (S j)) in H by lia.
      apply IH in H. rewrite H. f_equal. lia.
Qed.

(** How far the loop gets: to the last month, or to the first update whose
    result is not finite. *)
Lemma simulate_loop_length n : forall j,
  (Z.of_nat j <= months p)%Z -> n = Z.to_nat (months p + 1 - Z.of_nat j) ->
  let l := simulate_loop Math_pow p n (Z.of_nat j) (balance_at Math_pow p j) in
  (forall k, (1 <= k < length l)%nat ->
     Number_isFinite (balance_at Math_pow p (j + k)) = true) /\
  (length l = n \/
   ((0 < length l < n)%nat /\
    Number_isFinite (balance_at Math_pow p (j + length l)) = false)).
Proof.
  induction n as [|n IH]; intros j Hj Hn l.
  - lia.
  - subst l. cbn [simulate_loop].
    destruct (Z.leb_spec (Z.of_nat j) (months p)) as [_|]; [|lia].
    destruct (Z.eqb_spec (Z.of_nat j) (months p)) as [E|E].
    { cbn [length]. split; [intros; lia|]. left. lia. }
    fold (snap j). rewrite <- balance_at_succ.
    destruct (Number_isFinite (balance_at Math_pow p (S j))) eqn:F; cbn [negb].
    + replace (Z.of_nat j + 1)%Z with (Z.of_nat (S j)) by lia.
      destruct (IH (S j) ltac:(lia) ltac:(lia)) as [IH1 IH2].
      cbn [length]. split.
      * intros k Hk. destruct (Nat.eq_dec k 1) as [->|Hk1].
        -- now rewrite Nat.add_1_r.
        -- replace (j + k)%nat with (S j + (k - 1))%nat by lia. apply IH1. lia.
      * destruct IH2 as [IH2|[IH2 IH3]].
        -- left. lia.
        -- right. split; [lia|].
           replace (j + S (length (simulate_loop Math_pow p n (Z.of_nat (S j))
                     (balance_at Math_pow p (S j)))))%nat
             with (S j + length (simulate_loop Math_pow p n (Z.of_nat (S j))
                     (balance_at Math_pow p (S j))))%nat by lia.
           exact IH3.
    + cbn [length]. split; [intros; lia|]. right. split; [lia|].
      now rewrite Nat.add_1_r.
Qed.

Lemma simulateProjection_nth k pt :
  nth_error (simulateProjection Math_pow p) k = Some pt -> pt = snap k.
Proof. intros H. now apply (simulate_loop_nth _ 0 k pt) in H. Qed.

Lemma simulateProjection_nil : simulateProjection Math_pow p = [] <-> (months p < 0)%Z.
Proof.
  unfold simulateProjection. split.
  - intros H. destruct (Z_lt_le_dec (months p) 0) as [|Hge]; auto. exfalso.
    destruct (Z.to_nat (months p + 1)) as [|n] eqn:En; [lia|].
    cbn [simulate_loop] in H.
    destruct (Z.leb_spec 0 (months p)); [|lia].
    destruct (0 =? months p)%Z; [discriminate|].
    destruct (negb _); discriminate.
  - intros H. replace (Z.to_nat (months p + 1)) with 0%nat by lia. reflexivity.
Qed.

Lemma simulateProjection_finite : (0 <= months p)%Z ->
  forall k, (1 <= k < length (simulateProjection Math_pow p))%nat ->
  Number_isFinite (balance_at Math_pow p k) = true.
Proof.
  intros Hm.
  exact (proj1 (simulate_loop_length (Z.to_nat (months p + 1)) 0
                  ltac:(simpl; lia) ltac:(simpl; f_equal; lia))).
Qed.

End Trajectory.

(** ** The first point, the length, the update *)

(** C10. For [months >= 0] the trajectory is not empty and starts with
    the snapshot of month 0: inflation factor 1 and balance
    [max (0, pvToday)], which is zero for a negative [pvToday]. The
    trajectory is empty exactly when [months < 0], the only case in which
    [finalBalanceReal] answers [NaN] for want of a point. *)
Theorem simulateProjection_first Math_pow p :
  (forall b, Math_pow b 0%Z = 1) ->
  ((0 <= months p)%Z ->
   exists pt rest, simulateProjection Math_pow p = pt :: rest /\
     month pt = 0%Z /\ inflFactor pt = 1 /\
     balanceReal pt = Math_max 0 (pvToday p) /\
     ((pvToday p <? 0) = true -> balanceReal pt = 0) /\
     finalBalanceReal Math_pow p = balanceReal (last rest pt)) /\
  (simulateProjection Math_pow p = [] <-> (months p < 0)%Z) /\
  ((months p < 0)%Z -> finalBalanceReal Math_pow p = nan).
Proof.
  intros Hpow. split; [|split].
  - intros Hm.
    destruct (simulateProjection Math_pow p) as [|pt rest] eqn:E.
    + apply simulateProjection_nil in E. lia.
    + exists pt, rest. split; [reflexivity|].
      assert (Hpt : nth_error (simulateProjection Math_pow p) 0 = Some pt)
        by (rewrite E; reflexivity).
      apply simulateProjection_nth in Hpt. subst pt.
      cbn [month inflFactor balanceReal snapshot balance_at Z.of_nat].
      rewrite Hpow. repeat split; auto.
      * apply Math_max_0_neg.
      * unfold finalBalanceReal. rewrite E. reflexivity.
  - apply simulateProjection_nil.
  - intros Hm. unfold finalBalanceReal.
    now rewrite (proj2 (simulateProjection_nil Math_pow p) Hm).
Qed.

Lemma simulateProjection_first_witness :
  exists pt rest, simulateProjection pow_ref scenario = pt :: rest /\
     month pt = 0%Z /\ inflFactor pt = 1 /\
     balanceReal pt = Math_max 0 (pvToday scenario) /\
     ((pvToday scenario <? 0) = true -> balanceReal pt = 0) /\
     finalBalanceReal pow_ref scenario = balanceReal (last rest pt).
Proof.
  apply (proj1 (simulateProjection_first pow_ref scenario pow_ref_0)). simpl. lia.
Defined.

(** C3. For [months >= 0] the trajectory is the list of the snapshots of
    the months [0, 1, ...] in order, and it has [months + 1] points unless an
    update of the running balance gives a number that is not finite: then
    it stops at the snapshot before that update, shorter and not padded. *)
Theorem simulateProjection_length Math_pow p :
  (0 <= months p)%Z ->
  let traj := simulateProjection Math_pow p in
  (forall k pt, nth_error traj k = Some pt ->
     pt = snapshot Math_pow p (Z.of_nat k) (balance_at Math_pow p k)) /\
  (forall k, (1 <= k < length traj)%nat ->
     Number_isFinite (balance_at Math_pow p k) = true) /\
  (Z.of_nat (length traj) = (months p + 1)%Z \/
   ((0 < length traj)%nat /\ (Z.of_nat (length traj) < months p + 1)%Z /\
    Number_isFinite (balance_at Math_pow p (length traj)) = false)).
Proof.
  intros Hm traj. split; [apply simulateProjection_nth|].
  destruct (simulate_loop_length Math_pow p (Z.to_nat (months p + 1)) 0
              ltac:(simpl; lia) ltac:(simpl; f_equal; lia)) as [H1 H2].
  change (simulate_loop Math_pow p (Z.to_nat (months p + 1)) (Z.of_nat 0)
            (balance_at Math_pow p 0)) with traj in H1, H2.
  clearbody traj. cbn [Nat.add] in H1, H2.
  split; [exact H1|].
  destruct H2 as [H2|[H2 H3]]; [left; lia|right].
  split; [lia|]. split; [lia|exact H3].
Qed.

Lemma simulateProjection_length_witness :
  length (simulateProjection pow_ref scenario) = 3%nat.
Proof.
  destruct (simulateProjection_length pow_ref scenario ltac:(simpl; lia))
    as (_ & _ & [H|(_ & _ & H)]).
  - apply Nat2Z.inj. exact H.
  - vm_compute in H. discriminate H.
Defined.

(** C2. In [simulateProjection], from the snapshot of a month that is not
    the last to the next one, the real balance advances by the timing: with
    [begin] the contribution is added and then the return applied,
    [(balance + contributionReal) * (1 + r)]; with [end] the return is
    applied and then the contribution added,
    [balance * (1 + r) + contributionReal]. *)
Theorem simulateProjection_advance Math_pow p k pt pt' :
  nth_error (simulateProjection Math_pow p) k = Some pt ->
  nth_error (simulateProjection Math_pow p) (S k) = Some pt' ->
  balanceReal pt' =
  match timing p with
  | timingBegin => (balanceReal pt + contributionReal pt) * (1 + realMonthlyRate p)
  | timingEnd => balanceReal pt * (1 + realMonthlyRate p) + contributionReal pt
  end.
Proof.
  intros H H'. apply simulateProjection_nth in H, H'. subst pt pt'.
  cbn [balanceReal snapshot]. rewrite balance_at_succ. unfold advance.
  destruct (timing p); reflexivity.
Qed.

Lemma simulateProjection_advance_witness :
  let a := snapshot pow_ref scenario 0 1000 in
  let b := snapshot pow_ref scenario 1 1510 in
  balanceReal b = balanceReal a * (1 + realMonthlyRate scenario) + contributionReal a.
Proof.
  intros a b. apply (simulateProjection_advance pow_ref scenario 0 a b); reflexivity.
Defined.

(** ** The inflation factor *)

(** C8, as the code has it. Along a trajectory the month goes up by one
    from each point to the next, and the inflation factor does not decrease
    when the monthly inflation is not negative, for a [Math.pow] that does
    not decrease in the exponent on bases from 1 up. *)
Theorem trajectory_invariant Math_pow p :
  (forall b m, (1 <=? b) = true -> (0 <= m)%Z ->
     (Math_pow b m <=? Math_pow b (m + 1)%Z) = true) ->
  forall k pt pt',
    nth_error (simulateProjection Math_pow p) k = Some pt ->
    nth_error (simulateProjection Math_pow p) (S k) = Some pt' ->
    month pt' = (month pt + 1)%Z /\
    ((0 <=? inflationMonthlyRate p) = true -> (inflFactor pt <=? inflFactor pt') = true).
Proof.
  intros Hpow k pt pt' H H'.
  apply simulateProjection_nth in H, H'. subst pt pt'.
  cbn [month inflFactor snapshot]. split; [lia|].
  intros Hi. replace (Z.of_nat (S k)) with (Z.of_nat k + 1)%Z by lia.
  apply Hpow; [now apply one_le_one_plus|lia].
Qed.

Lemma trajectory_invariant_witness :
  let a := snapshot pow_ref scenario 0 1000 in
  let b := snapshot pow_ref scenario 1 1510 in
  month b = (month a + 1)%Z /\
  ((0 <=? inflationMonthlyRate scenario) = true -> (inflFactor a <=? inflFactor b) = true).
Proof.
  intros a b.
  apply (trajectory_invariant pow_ref scenario pow_ref_mono 0 a b); reflexivity.
Defined.

(** C8 as stated fails: with an inflation of -50%, which is above -100%,
    the factor falls from 1 to 0.5. *)
Lemma trajectory_invariant_counterexample :
  (-1 <=? inflationMonthlyRate deflation) = true /\
  map inflFactor (simulateProjection pow_ref deflation) = [1; 0.5] /\
  (1 <=? 0.5) = false.
Proof. repeat split. Qed.

(** ** The scenario of the tests *)

(** C9, what the code computes. On the scenario of the test suite it
    gives three points, a final real balance of 1510 * 1.01 + 500, about
    2025.10, and a nominal contribution of about 501 at month 1. *)
Theorem scenario_projection Math_pow :
  Math_pow (1 + 0.002) 1%Z = 1 + 0.002 ->
  exists p0 p1 p2,
    simulateProjection Math_pow scenario = [p0; p1; p2] /\
    balanceReal p2 = 1510 * 1.01 + 500 /\
    closeTo (balanceReal p2) 2025.10 = true /\
    closeTo (contributionNominal p1) 501 = true.
Proof.
  intros H. do 3 eexists. split; [reflexivity|].
  cbn [balanceReal contributionNominal snapshot indexation scenario inflationMonthlyRate pmt0].
  vm_compute in H. vm_compute. rewrite H. repeat split.
Qed.

Lemma scenario_projection_witness :
  exists p0 p1 p2,
    simulateProjection pow_ref scenario = [p0; p1; p2] /\
    balanceReal p2 = 1510 * 1.01 + 500 /\
    closeTo (balanceReal p2) 2025.10 = true /\
    closeTo (contributionNominal p1) 501 = true.
Proof. apply (scenario_projection pow_ref). reflexivity. Defined.

(** C9, where the code diverges: the test suite asserts a final balance
    of 2025.05 to two decimals, and the code ends 0.05 above it. *)
Lemma scenario_projection_counterexample :
  length (simulateProjection pow_ref scenario) = 3%nat /\
  closeTo (finalBalanceReal pow_ref scenario) 2025.05 = false /\
  (0.0499 <? finalBalanceReal pow_ref scenario - 2025.05) = true.
Proof. repeat split. Qed.

(** ** The final balance grows with the contribution *)

Lemma advance_finite_inv t r b c : is_finite (advance t r b c) = true ->
  is_finite b = true /\ is_finite c = true /\ is_finite (1 + r) = true.
Proof.
  destruct t; cbn [advance]; intros H.
  - apply add_finite_inv in H as [H1 H2]. apply mul_finite_inv in H1 as [H1 H3]. auto.
  - apply mul_finite_inv in H as [H1 H2]. apply add_finite_inv in H1 as [H1 H3]. auto.
Qed.

Lemma advance_mono t r ba bb ca cb :
  (0 <=? 1 + r) = true ->
  is_finite (advance t r ba ca) = true -> is_finite (advance t r bb cb) = true ->
  (ba <=? bb) = true -> (ca <=? cb) = true ->
  (advance t r ba ca <=? advance t r bb cb) = true.
Proof.
  intros Hr Fa Fb Hb Hc.
  pose proof (advance_finite_inv _ _ _ _ Fa) as (Fba & Fca & Fk).
  pose proof (advance_finite_inv _ _ _ _ Fb) as (Fbb & Fcb & _).
  destruct t; cbn [advance] in *.
  - apply add_mono; auto.
    + now apply add_finite_inv in Fa.
    + now apply add_finite_inv in Fb.
    + now apply mul_mono_l.
  - apply mul_mono_l; auto.
    + now apply mul_finite_inv in Fa.
    + now apply mul_finite_inv in Fb.
    + now apply add_mono.
Qed.

Section Monotone.
Variable Math_pow : num -> Z -> num.
Variable p : SimParams.
Variables a b : num.

Let pa := set_pmt0 p a.
Let pb := set_pmt0 p b.

Hypothesis Hab : (a <=? b) = true.
Hypothesis Hr : (0 <=? 1 + realMonthlyRate p) = true.
Hypothesis Hidx :
  indexation p = inflationAdjusted \/
  forall m, (0 <= m < months p)%Z ->
    (0 <? Math_pow (1 + inflationMonthlyRate p) m) = true.

Lemma contribution_mono k ba bb :
  (Z.of_nat k < months p)%Z ->
  is_finite (contributionReal (snapshot Math_pow pa (Z.of_nat k) ba)) = true ->
  is_finite (contributionReal (snapshot Math_pow pb (Z.of_nat k) bb)) = true ->
  (contributionReal (snapshot Math_pow pa (Z.of_nat k) ba) <=?
   contributionReal (snapshot Math_pow pb (Z.of_nat k) bb)) = true.
Proof.
  intros Hk. cbn [contributionReal snapshot pa pb set_pmt0 indexation pmt0 inflationMonthlyRate].
  destruct Hidx as [Hi|Hpos].
  - rewrite Hi. auto.
  - destruct (indexation p); auto.
    intros Fa Fb. apply div_finite_inv in Fa as [Fa _]. apply div_finite_inv in Fb as [Fb _].
    apply div_mono; auto. apply Hpos. lia.
Qed.

Lemma balance_at_mono k :
  (Z.of_nat k <= months p)%Z ->
  (forall j, (j <= k)%nat -> is_finite (balance_at Math_pow pa j) = true) ->
  (forall j, (j <= k)%nat -> is_finite (balance_at Math_pow pb j) = true) ->
  (balance_at Math_pow pa k <=? balance_at Math_pow pb k) = true.
Proof.
  induction k as [|k IH]; intros Hk Fa Fb.
  - cbn [balance_at pa pb set_pmt0 pvToday]. apply leb_refl.
    apply is_nan_false, is_finite_not_nan. exact (Fa 0%nat ltac:(lia)).
  - pose proof (Fa (S k) ltac:(lia)) as Fa'. pose proof (Fb (S k) ltac:(lia)) as Fb'.
    cbn [balance_at] in *.
    change (timing pa) with (timing p) in *. change (timing pb) with (timing p) in *.
    change (realMonthlyRate pa) with (realMonthlyRate p) in *.
    change (realMonthlyRate pb) with (realMonthlyRate p) in *.
    apply advance_mono; auto.
    + apply IH; [lia|intros; apply Fa; lia|intros; apply Fb; lia].
    + apply contribution_mono; [lia| |].
      * now apply advance_finite_inv in Fa'.
      * now apply advance_finite_inv in Fb'.
Qed.

End Monotone.

(** A run that is not cut short, with a finite final balance, has finite
    balances throughout and ends on the balance of the last month. *)
Lemma full_run_finite Math_pow p :
  Z.of_nat (length (simulateProjection Math_pow p)) = (months p + 1)%Z ->
  Number_isFinite (finalBalanceReal Math_pow p) = true ->
  (0 <= months p)%Z /\
  finalBalanceReal Math_pow p = balance_at Math_pow p (Z.to_nat (months p)) /\
  forall j, (j <= Z.to_nat (months p))%nat -> is_finite (balance_at Math_pow p j) = true.
Proof.
  intros Hlen Hfin.
  assert (Hm : (0 <= months p)%Z).
  { destruct (Z_lt_le_dec (months p) 0) as [Hneg|]; auto.
    apply (proj2 (simulateProjection_nil Math_pow p)) in Hneg.
    unfold finalBalanceReal in Hfin. rewrite Hneg in Hfin. discriminate. }
  pose proof (simulateProjection_nth Math_pow p) as Hnth.
  pose proof (simulateProjection_finite Math_pow p Hm) as Hf.
  assert (Hfinal : finalBalanceReal Math_pow p = balance_at Math_pow p (Z.to_nat (months p))).
  { unfold finalBalanceReal.
    destruct (simulateProjection Math_pow p) as [|pt pts] eqn:E; [simpl in Hlen; lia|].
    pose proof (nth_error_last (pt :: pts) pt ltac:(discriminate)) as Hl.
    apply Hnth in Hl.
    replace (last (pt :: pts) pt) with (last pts pt) in Hl by (destruct pts; reflexivity).
    rewrite Hl.
    cbn [balanceReal snapshot]. f_equal. lia. }
  split; [exact Hm|]. split; [exact Hfinal|].
  intros j Hj. destruct j as [|j].
  - destruct (Z.to_nat (months p)) as [|n] eqn:En.
    + rewrite Hfinal in Hfin. exact Hfin.
    + assert (F1 : is_finite (balance_at Math_pow p 1) = true) by (apply Hf; lia).
      cbn [balance_at] in F1. now apply advance_finite_inv in F1.
  - apply Hf. lia.
Qed.

(** C1, as the code has it. For a horizon [months >= 0], a return with
    [1 + r >= 0] and, under [fixedNominal], positive inflation factors,
    two runs that differ only in the contribution, are not cut short and
    end on finite balances are ordered as their contributions are. *)
Theorem finalBalanceReal_monotone Math_pow p a b :
  (a <=? b) = true ->
  (0 <=? 1 + realMonthlyRate p) = true ->
  (indexation p = inflationAdjusted \/
   forall m, (0 <= m < months p)%Z ->
     (0 <? Math_pow (1 + inflationMonthlyRate p) m) = true) ->
  Z.of_nat (length (simulateProjection Math_pow (set_pmt0 p a))) = (months p + 1)%Z ->
  Z.of_nat (length (simulateProjection Math_pow (set_pmt0 p b))) = (months p + 1)%Z ->
  Number_isFinite (finalBalanceReal Math_pow (set_pmt0 p a)) = true ->
  Number_isFinite (finalBalanceReal Math_pow (set_pmt0 p b)) = true ->
  (finalBalanceReal Math_pow (set_pmt0 p a) <=? finalBalanceReal Math_pow (set_pmt0 p b)) = true.
Proof.
  intros Hab Hr Hidx La Lb Fa Fb.
  destruct (full_run_finite Math_pow (set_pmt0 p a) La Fa) as (Hm & Ea & Ha).
  destruct (full_run_finite Math_pow (set_pmt0 p b) Lb Fb) as (_ & Eb & Hb).
  rewrite Ea, Eb. cbn [months set_pmt0] in *.
  apply balance_at_mono; auto. lia.
Qed.

Lemma finalBalanceReal_monotone_witness :
  (finalBalanceReal pow_ref (set_pmt0 fixed_nominal_run 100) <=?
   finalBalanceReal pow_ref (set_pmt0 fixed_nominal_run 250)) = true.
Proof.
  apply (finalBalanceReal_monotone pow_ref fixed_nominal_run 100 250);
    try reflexivity.
  right. intros m Hm.
  assert (E : m = 0%Z \/ m = 1%Z \/ m = 2%Z) by (simpl in Hm; lia).
  destruct E as [->|[->| ->]]; reflexivity.
Defined.

(** C1 as stated fails: with a return of -300% the balance changes sign
    every month, and the larger contribution ends lower. *)
Lemma finalBalanceReal_counterexample :
  (1 <=? 2) = true /\
  finalBalanceReal pow_ref (set_pmt0 negative_return 1) = -1 /\
  finalBalanceReal pow_ref (set_pmt0 negative_return 2) = -2 /\
  (finalBalanceReal pow_ref (set_pmt0 negative_return 1) <=?
   finalBalanceReal pow_ref (set_pmt0 negative_return 2)) = false.
Proof. repeat split. Qed.

(** ** Runs of full length and the last point *)

(** A run of full length ends on the balance of the last month. *)
Lemma full_run_final Math_pow p :
  (0 <= months p)%Z ->
  Z.of_nat (length (simulateProjection Math_pow p)) = (months p + 1)%Z ->
  finalBalanceReal Math_pow p = balance_at Math_pow p (Z.to_nat (months p)).
Proof.
  intros Hm Hlen.
  pose proof (simulateProjection_nth Math_pow p) as Hnth.
  unfold finalBalanceReal.
  destruct (simulateProjection Math_pow p) as [|pt pts] eqn:E.
  - simpl in Hlen. lia.
  - pose proof (nth_error_last (pt :: pts) pt ltac:(discriminate)) as Hl.
    apply Hnth in Hl.
    replace (last (pt :: pts) pt) with (last pts pt) in Hl by (destruct pts; reflexivity).
    rewrite Hl. cbn [balanceReal snapshot]. f_equal. lia.
Qed.

(** A run whose balances are all finite is not cut short. *)
Lemma full_run_length Math_pow p :
  (0 <= months p)%Z ->
  (forall k, (1 <= k <= Z.to_nat (months p))%nat ->
     Number_isFinite (balance_at Math_pow p k) = true) ->
  Z.of_nat (length (simulateProjection Math_pow p)) = (months p + 1)%Z.
Proof.
  intros Hm Hf.
  assert (H0 : (Z.of_nat 0 <= months p)%Z) by (simpl; lia).
  assert (Hn : Z.to_nat (months p + 1) = Z.to_nat (months p + 1 - Z.of_nat 0))
    by (f_equal; simpl; lia).
  destruct (simulate_loop_length Math_pow p _ 0 H0 Hn) as [_ [H|[H1 H2]]].
  - unfold simulateProjection. cbn [Z.of_nat balance_at] in H. lia.
  - unfold simulateProjection in *. cbn [Z.of_nat balance_at Nat.add] in H1, H2.
    rewrite Hf in H2 by lia. discriminate.
Qed.

(** The final balance is the balance of the last month pushed, and every
    balance pushed after the first is finite. *)
Lemma final_balance_last Math_pow p : (0 <= months p)%Z ->
  let L := length (simulateProjection Math_pow p) in
  (1 <= L <= Z.to_nat (months p) + 1)%nat /\
  finalBalanceReal Math_pow p = balance_at Math_pow p (L - 1) /\
  (forall k, (1 <= k < L)%nat -> Number_isFinite (balance_at Math_pow p k) = true).
Proof.
  intros Hm L.
  assert (H0 : (Z.of_nat 0 <= months p)%Z) by (simpl; lia).
  assert (Hn : Z.to_nat (months p + 1) = Z.to_nat (months p + 1 - Z.of_nat 0))
    by (f_equal; simpl; lia).
  pose proof (simulate_loop_length Math_pow p _ 0 H0 Hn) as [Hf Hl].
  change (simulate_loop Math_pow p (Z.to_nat (months p + 1)) (Z.of_nat 0)
            (balance_at Math_pow p 0)) with (simulateProjection Math_pow p) in Hf, Hl.
  fold L in Hf, Hl.
  assert (HL : (1 <= L <= Z.to_nat (months p) + 1)%nat) by lia.
  split; [exact HL|]. split; [|exact Hf].
  pose proof (simulateProjection_nth Math_pow p) as Hnth.
  unfold finalBalanceReal. subst L.
  destruct (simulateProjection Math_pow p) as [|pt pts] eqn:E; [simpl in HL; lia|].
  pose proof (nth_error_last (pt :: pts) pt ltac:(discriminate)) as Hlast.
  apply Hnth in Hlast.
  replace (last (pt :: pts) pt) with (last pts pt) in Hlast by (destruct pts; reflexivity).
  rewrite Hlast. reflexivity.
Qed.

(** ** Balances that are not negative, balances that grow *)

Lemma advance_nonneg t r b c :
  is_finite (advance t r b c) = true ->
  (0 <=? 1 + r) = true -> (0 <=? b) = true -> (0 <=? c) = true ->
  (0 <=? advance t r b c) = true.
Proof.
  intros F Hr Hb Hc.
  pose proof (advance_finite_inv _ _ _ _ F) as (Fb & Fc & Fr).
  destruct t; cbn [advance] in *.
  - apply add_finite_inv in F as [F _].
    apply add_nonneg; auto. now apply mul_nonneg.
  - apply mul_finite_inv in F as [F _].
    apply mul_nonneg; auto. now apply add_nonneg.
Qed.

Lemma advance_ge t r b c :
  is_finite (advance t r b c) = true ->
  (1 <=? 1 + r) = true -> (0 <=? b) = true -> (0 <=? c) = true ->
  (b <=? advance t r b c) = true.
Proof.
  intros F Hr Hb Hc.
  pose proof (advance_finite_inv _ _ _ _ F) as (Fb & Fc & Fr).
  assert (Hr0 : (0 <=? 1 + r) = true).
  { apply leb_trans with (2 := Hr). reflexivity. }
  destruct t; cbn [advance] in *.
  - apply add_finite_inv in F as [F _].
    apply leb_trans with (b * (1 + r)).
    + now apply mul_ge_self.
    + apply add_ge_l; auto. now apply mul_nonneg.
  - apply mul_finite_inv in F as [F _].
    apply leb_trans with (b + c).
    + now apply add_ge_l.
    + apply mul_ge_self; auto. now apply add_nonneg.
Qed.

Section Wealth.
Variable Math_pow : num -> Z -> num.
Variable p : SimParams.

Hypothesis Hpv : is_nan (pvToday p) = false.
Hypothesis Hpmt : (0 <=? pmt0 p) = true.
Hypothesis Hr : (0 <=? 1 + realMonthlyRate p) = true.
Hypothesis Hidx :
  indexation p = inflationAdjusted \/
  forall m, (0 <= m < months p)%Z ->
    (0 <? Math_pow (1 + inflationMonthlyRate p) m) = true.

Lemma contribution_nonneg k b :
  (Z.of_nat k < months p)%Z ->
  is_finite (contributionReal (snapshot Math_pow p (Z.of_nat k) b)) = true ->
  (0 <=? contributionReal (snapshot Math_pow p (Z.of_nat k) b)) = true.
Proof.
  intros Hk. cbn [contributionReal snapshot].
  destruct Hidx as [Hi|Hpos].
  - rewrite Hi. auto.
  - destruct (indexation p); auto.
    intros F. apply div_finite_inv in F as [F _].
    apply div_nonneg; auto. apply Hpos. lia.
Qed.

Lemma balance_at_nonneg k :
  (k < length (simulateProjection Math_pow p))%nat ->
  (0 <=? balance_at Math_pow p k) = true.
Proof.
  intros Hk.
  assert (Hm : (0 <= months p)%Z).
  { destruct (Z_lt_le_dec (months p) 0) as [Hneg|]; auto.
    apply (proj2 (simulateProjection_nil Math_pow p)) in Hneg.
    rewrite Hneg in Hk. simpl in Hk. lia. }
  destruct (final_balance_last Math_pow p Hm) as (HL & _ & Hf).
  induction k as [|k IH].
  - cbn [balance_at].
    destruct (Math_max_spec 0 (pvToday p) eq_refl Hpv) as [N V].
    apply leb_F2R. split; [vm_compute; discriminate|].
    split; [now apply is_nan_false|]. rewrite V. apply Rmax_l.
  - pose proof (Hf (S k) ltac:(lia)) as F. unfold Number_isFinite in F.
    cbn [balance_at] in *.
    apply advance_nonneg; auto.
    + apply IH. lia.
    + apply contribution_nonneg; [lia|]. now apply advance_finite_inv in F.
Qed.

End Wealth.

(** X9. With a starting balance that is a number, a contribution that is
    not negative, a return of -100% or more and, under [fixedNominal],
    positive inflation factors, no point of a trajectory has a negative
    real balance. *)
Theorem balance_never_negative Math_pow p :
  is_nan (pvToday p) = false -> (0 <=? pmt0 p) = true ->
  (0 <=? 1 + realMonthlyRate p) = true ->
  (indexation p = inflationAdjusted \/
   forall m, (0 <= m < months p)%Z ->
     (0 <? Math_pow (1 + inflationMonthlyRate p) m) = true) ->
  forall k pt, nth_error (simulateProjection Math_pow p) k = Some pt ->
    (0 <=? balanceReal pt) = true.
Proof.
  intros Hpv Hpmt Hr Hidx k pt H.
  assert (Hk : (k < length (simulateProjection Math_pow p))%nat).
  { apply nth_error_Some. congruence. }
  apply simulateProjection_nth in H. subst pt. cbn [balanceReal snapshot].
  now apply balance_at_nonneg.
Qed.

Lemma balance_never_negative_witness :
  (0 <=? balanceReal (snapshot pow_ref scenario 2 (balance_at pow_ref scenario 2))) = true.
Proof.
  apply (balance_never_negative pow_ref scenario eq_refl eq_refl eq_refl
           (or_introl eq_refl) 2).
  reflexivity.
Defined.

(** X10. With a return that is not negative (and the same conditions on
    the other amounts) the real balance never falls from one point of a
    trajectory to the next. *)
Theorem balance_grows Math_pow p :
  is_nan (pvToday p) = false -> (0 <=? pmt0 p) = true ->
  (0 <=? realMonthlyRate p) = true ->
  (indexation p = inflationAdjusted \/
   forall m, (0 <= m < months p)%Z ->
     (0 <? Math_pow (1 + inflationMonthlyRate p) m) = true) ->
  forall k pt pt',
    nth_error (simulateProjection Math_pow p) k = Some pt ->
    nth_error (simulateProjection Math_pow p) (S k) = Some pt' ->
    (balanceReal pt <=? balanceReal pt') = true.
Proof.
  intros Hpv Hpmt Hr Hidx k pt pt' H H'.
  assert (Hr1 : (1 <=? 1 + realMonthlyRate p) = true) by now apply one_le_one_plus.
  assert (Hr0 : (0 <=? 1 + realMonthlyRate p) = true).
  { apply leb_trans with (2 := Hr1). reflexivity. }
  assert (Hk : (S k < length (simulateProjection Math_pow p))%nat).
  { apply nth_error_Some. congruence. }
  assert (Hm : (0 <= months p)%Z).
  { destruct (Z_lt_le_dec (months p) 0) as [Hneg|]; auto.
    apply (proj2 (simulateProjection_nil Math_pow p)) in Hneg.
    rewrite Hneg in Hk. simpl in Hk. lia. }
  destruct (final_balance_last Math_pow p Hm) as (HL & _ & Hf).
  pose proof (Hf (S k) ltac:(lia)) as F. unfold Number_isFinite in F.
  apply simulateProjection_nth in H, H'. subst pt pt'. cbn [balanceReal snapshot].
  cbn [balance_at] in *.
  apply advance_ge; auto.
  - apply balance_at_nonneg; auto. lia.
  - apply contribution_nonneg; auto; [lia|]. now apply advance_finite_inv in F.
Qed.

Lemma balance_grows_witness :
  (balanceReal (snapshot pow_ref scenario 1 (balance_at pow_ref scenario 1)) <=?
   balanceReal (snapshot pow_ref scenario 2 (balance_at pow_ref scenario 2))) = true.
Proof.
  apply (balance_grows pow_ref scenario eq_refl eq_refl eq_refl
           (or_introl eq_refl) 1); reflexivity.
Defined.

(** ** The final balance grows with the starting balance *)

Section MonotoneStart.
Variable Math_pow : num -> Z -> num.
Variable p : SimParams.
Variables a b : num.

Let pa := set_pvToday p a.
Let pb := set_pvToday p b.

Hypothesis Hab : (a <=? b) = true.
Hypothesis Hr : (0 <=? 1 + realMonthlyRate p) = true.

Lemma balance_at_mono_start k :
  (forall j, (j <= k)%nat -> is_finite (balance_at Math_pow pa j) = true) ->
  (forall j, (j <= k)%nat -> is_finite (balance_at Math_pow pb j) = true) ->
  (balance_at Math_pow pa k <=? balance_at Math_pow pb k) = true.
Proof.
  induction k as [|k IH]; intros Fa Fb.
  - cbn [balance_at pa pb set_pvToday pvToday]. now apply Math_max_mono.
  - pose proof (Fa (S k) ltac:(lia)) as Fa'. pose proof (Fb (S k) ltac:(lia)) as Fb'.
    cbn [balance_at] in *.
    change (timing pa) with (timing p) in *. change (timing pb) with (timing p) in *.
    change (realMonthlyRate pa) with (realMonthlyRate p) in *.
    change (realMonthlyRate pb) with (realMonthlyRate p) in *.
    apply advance_mono; [exact Hr|exact Fa'|exact Fb'| |].
    + apply IH; [intros; apply Fa; lia|intros; apply Fb; lia].
    + apply advance_finite_inv in Fb' as (_ & Fc & _).
      apply leb_refl. apply is_nan_false, is_finite_not_nan. exact Fc.
Qed.

End MonotoneStart.

(** X11. For a return with [1 + r >= 0], two runs that differ only in the
    starting balance, are not cut short and end on finite balances are
    ordered as their starting balances are. *)
Theorem finalBalanceReal_monotone_start Math_pow p a b :
  (a <=? b) = true ->
  (0 <=? 1 + realMonthlyRate p) = true ->
  Z.of_nat (length (simulateProjection Math_pow (set_pvToday p a))) = (months p + 1)%Z ->
  Z.of_nat (length (simulateProjection Math_pow (set_pvToday p b))) = (months p + 1)%Z ->
  Number_isFinite (finalBalanceReal Math_pow (set_pvToday p a)) = true ->
  Number_isFinite (finalBalanceReal Math_pow (set_pvToday p b)) = true ->
  (finalBalanceReal Math_pow (set_pvToday p a) <=?
   finalBalanceReal Math_pow (set_pvToday p b)) = true.
Proof.
  intros Hab Hr La Lb Fa Fb.
  destruct (full_run_finite Math_pow (set_pvToday p a) La Fa) as (Hm & Ea & Ha).
  destruct (full_run_finite Math_pow (set_pvToday p b) Lb Fb) as (_ & Eb & Hb).
  rewrite Ea, Eb. cbn [months set_pvToday] in *.
  apply balance_at_mono_start; auto.
Qed.

Lemma finalBalanceReal_monotone_start_witness :
  (finalBalanceReal pow_ref (set_pvToday fixed_nominal_run 0) <=?
   finalBalanceReal pow_ref (set_pvToday fixed_nominal_run 1000)) = true.
Proof.
  apply (finalBalanceReal_monotone_start pow_ref fixed_nominal_run 0 1000);
    reflexivity.
Defined.

(** ** Shorter and longer horizons *)

(** The loop over a shorter horizon pushes the first points of the loop
    over a longer one. *)
Lemma simulate_loop_prefix Math_pow p m m' n : forall n' j b,
  (j <= m <= m')%Z -> n = Z.to_nat (m + 1 - j) -> n' = Z.to_nat (m' + 1 - j) ->
  simulate_loop Math_pow (set_months p m) n j b =
  firstn n (simulate_loop Math_pow (set_months p m') n' j b).
Proof.
  induction n as [|n IH]; intros n' j b Hj Hn Hn'; [reflexivity|].
  destruct n' as [|n']; [lia|].
  cbn [simulate_loop set_months months timing realMonthlyRate].
  destruct (Z.leb_spec j m) as [_|]; [|lia].
  destruct (Z.leb_spec j m') as [_|]; [|lia].
  change (snapshot Math_pow (set_months p m') j b)
    with (snapshot Math_pow (set_months p m) j b).
  destruct (Z.eqb_spec j m) as [->|Hne].
  - replace n with 0%nat by lia.
    destruct (m =? m')%Z; [reflexivity|].
    destruct (negb _); reflexivity.
  - destruct (Z.eqb_spec j m') as [->|Hne']; [lia|].
    destruct (negb _); cbn [firstn]; [now destruct n|].
    f_equal. apply IH; lia.
Qed.

(** X12. The trajectory over a horizon of [m] months is the first
    [m + 1] points of the trajectory over any longer horizon: a longer
    horizon changes no earlier month. *)
Theorem simulateProjection_prefix Math_pow p m m' :
  (0 <= m <= m')%Z ->
  simulateProjection Math_pow (set_months p m) =
  firstn (Z.to_nat m + 1) (simulateProjection Math_pow (set_months p m')).
Proof.
  intros H. unfold simulateProjection. cbn [months set_months pvToday].
  replace (Z.to_nat m + 1)%nat with (Z.to_nat (m + 1)) by lia.
  apply simulate_loop_prefix; lia.
Qed.

Lemma simulateProjection_prefix_witness :
  simulateProjection pow_ref (set_months scenario 1) =
  firstn (Z.to_nat 1 + 1) (simulateProjection pow_ref (set_months scenario 2)).
Proof. apply (simulateProjection_prefix pow_ref scenario 1 2). lia. Defined.

(** ** Amounts and rates that are not finite *)

(** An update gives a finite balance only from a finite balance, a finite
    contribution and a finite rate. *)
Lemma advance_not_finite t r b c :
  is_finite b = false \/ is_finite c = false \/ is_finite r = false ->
  is_finite (advance t r b c) = false.
Proof.
  intros H. destruct (is_finite (advance t r b c)) eqn:F; [|reflexivity].
  apply advance_finite_inv in F as (Fb & Fc & Fr).
  apply add_finite_inv in Fr as [_ Fr].
  destruct H as [H|[H|H]]; congruence.
Qed.

Lemma advance_nan t r b c : is_nan b = true -> is_nan (advance t r b c) = true.
Proof.
  intros H. destruct t; cbn [advance].
  - now apply add_nan_l, mul_nan_l.
  - now apply mul_nan_l, add_nan_l.
Qed.

Lemma contribution_not_finite Math_pow p m b :
  is_finite (pmt0 p) = false ->
  is_finite (contributionReal (snapshot Math_pow p m b)) = false.
Proof.
  intros H. cbn [contributionReal snapshot]. destruct (indexation p); [exact H|].
  destruct (is_finite (pmt0 p / _)) eqn:F; [|reflexivity].
  apply div_finite_inv in F as [F _]. congruence.
Qed.

(** With a balance, a contribution or a rate that is not finite the first
    update stops the loop. *)
Lemma first_update_stops Math_pow p :
  (0 < months p)%Z ->
  Number_isFinite (Math_max 0 (pvToday p)) = false \/
  Number_isFinite (pmt0 p) = false \/
  Number_isFinite (realMonthlyRate p) = false ->
  simulateProjection Math_pow p = [snapshot Math_pow p 0 (Math_max 0 (pvToday p))].
Proof.
  intros Hm H. unfold simulateProjection.
  destruct (Z.to_nat (months p + 1)) as [|n] eqn:En; [lia|].
  cbn [simulate_loop].
  destruct (Z.leb_spec 0 (months p)); [|lia].
  destruct (Z.eqb_spec 0 (months p)); [lia|].
  unfold Number_isFinite in *. rewrite advance_not_finite; [reflexivity|].
  destruct H as [H|[H|H]]; auto.
  right. left. now apply contribution_not_finite.
Qed.

(** X13. With [months > 0] and a starting balance, a contribution or a
    return that is not finite (NaN or an infinity), the first update stops
    the loop: the trajectory is the single point of month 0 and the final
    balance is [Math.max (0, pvToday)]. *)
Theorem simulateProjection_invalid Math_pow p :
  (0 < months p)%Z ->
  Number_isFinite (Math_max 0 (pvToday p)) = false \/
  Number_isFinite (pmt0 p) = false \/
  Number_isFinite (realMonthlyRate p) = false ->
  simulateProjection Math_pow p = [snapshot Math_pow p 0 (Math_max 0 (pvToday p))] /\
  finalBalanceReal Math_pow p = Math_max 0 (pvToday p).
Proof.
  intros Hm H. pose proof (first_update_stops Math_pow p Hm H) as E.
  split; [exact E|]. unfold finalBalanceReal. rewrite E. reflexivity.
Qed.

Lemma simulateProjection_invalid_witness :
  finalBalanceReal pow_ref (with_pmt0 infinite_return 500) = Math_max 0 5000.
Proof.
  apply (simulateProjection_invalid pow_ref (with_pmt0 infinite_return 500)).
  - reflexivity.
  - right. right. reflexivity.
Defined.

(** * The horizon solver *)

(** C5, as the code has it. With [targetToday <= pvToday], [monthsToTarget]
    returns 0 whatever the other parameters are, and [solveRequiredPmt]
    returns 0 for every horizon [months > 0]; for a horizon [months <= 0]
    it returns [null], whatever the target and the starting balance. *)
Theorem target_already_met Math_pow q s :
  ((t_targetToday q <=? t_pvToday q) = true -> monthsToTarget Math_pow q = Some 0%Z) /\
  ((s_targetToday s <=? s_pvToday s) = true -> (0 < s_months s)%Z ->
   solveRequiredPmt Math_pow s = Some 0) /\
  ((s_months s <= 0)%Z -> solveRequiredPmt Math_pow s = None).
Proof.
  split; [|split].
  - intros H. unfold monthsToTarget. now rewrite H.
  - intros H Hm. unfold solveRequiredPmt.
    destruct (Z.leb_spec (s_months s) 0); [lia|]. now rewrite H.
  - intros Hm. unfold solveRequiredPmt.
    destruct (Z.leb_spec (s_months s) 0); [reflexivity|lia].
Qed.

Lemma target_already_met_witness :
  monthsToTarget pow_ref met_target = Some 0%Z /\
  solveRequiredPmt pow_ref met_solve = Some 0 /\
  solveRequiredPmt pow_ref met_no_horizon = None.
Proof.
  destruct (target_already_met pow_ref met_target met_solve) as (H1 & H2 & _).
  destruct (target_already_met pow_ref met_target met_no_horizon) as (_ & _ & H3).
  split; [apply H1; reflexivity|].
  split; [apply H2; [reflexivity|simpl; lia]|apply H3; simpl; lia].
Defined.

(** C5 as stated fails: the horizon is looked at first, and a horizon
    [months <= 0] gives [null] although the target is already met. *)
Lemma target_already_met_counterexample :
  (s_targetToday met_no_horizon <=? s_pvToday met_no_horizon) = true /\
  solveRequiredPmt pow_ref met_no_horizon = None.
Proof. split; reflexivity. Qed.

(** ** The month that is returned *)

Section Horizon.
Variable Math_pow : num -> Z -> num.
Variable q : TargetParams.

Let B := target_balance_at Math_pow q.

(** The loop entered at period [j + 1] with the balance of period [j]
    returns the first later period, up to the cap, whose balance is at the
    target, unless a balance before it is not finite. *)
Lemma target_loop_some cap n : forall j m,
  (n = Z.to_nat (cap - Z.of_nat j))%nat ->
  target_loop Math_pow q cap n (Z.of_nat j + 1) (B j) = Some m <->
  exists k, m = Z.of_nat k /\ (j < k)%nat /\ (Z.of_nat k <= cap)%Z /\
    (forall i, (j < i <= k)%nat -> Number_isFinite (B i) = true) /\
    (forall i, (j < i < k)%nat -> (t_targetToday q <=? B i) = false) /\
    (t_targetToday q <=? B k) = true.
Proof.
  induction n as [|n IH]; intros j m Hn.
  - cbn [target_loop]. split; [discriminate|].
    intros (k & _ & Hjk & Hk & _). lia.
  - cbn [target_loop].
    destruct (Z.leb_spec (Z.of_nat j + 1) cap) as [Hc|Hc]; [|lia].
    change (advance (t_timing q) (t_realMonthlyRate q) (B j)
              (target_contribution Math_pow q (Z.of_nat j + 1))) with (B (S j)).
    destruct (Number_isFinite (B (S j))) eqn:F; cbn [negb].
    + destruct (t_targetToday q <=? B (S j)) eqn:T.
      * split.
        { intros H. injection H as <-. exists (S j).
          repeat split; auto; try lia.
          intros i Hi. now replace i with (S j) by lia. }
        { intros (k & -> & Hjk & Hk & Hf & Hb & Ht).
          destruct (Nat.eq_dec k (S j)) as [->|Hne]; [f_equal; lia|].
          rewrite (Hb (S j)) in T by lia. discriminate. }
      * replace (Z.of_nat j + 1 + 1)%Z with (Z.of_nat (S j) + 1)%Z by lia.
        rewrite (IH (S j) m) by lia. split.
        { intros (k & -> & Hjk & Hk & Hf & Hb & Ht). exists k.
          repeat split; auto; try lia.
          - intros i Hi. destruct (Nat.eq_dec i (S j)) as [->|]; auto.
            apply Hf. lia.
          - intros i Hi. destruct (Nat.eq_dec i (S j)) as [->|]; auto.
            apply Hb. lia. }
        { intros (k & -> & Hjk & Hk & Hf & Hb & Ht).
          destruct (Nat.eq_dec k (S j)) as [->|Hne]; [congruence|].
          exists k. repeat split; auto; try lia.
          - intros i Hi. apply Hf. lia.
          - intros i Hi. apply Hb. lia. }
    + split; [discriminate|].
      intros (k & -> & Hjk & Hk & Hf & _).
      rewrite (Hf (S j)) in F by lia. discriminate.
Qed.

(** It returns [null] when the cap is reached with every balance finite and
    below the target, or at the first balance that is not finite. *)
Lemma target_loop_none cap n : forall j,
  (n = Z.to_nat (cap - Z.of_nat j))%nat ->
  target_loop Math_pow q cap n (Z.of_nat j + 1) (B j) = None <->
  (forall i, (j < i)%nat -> (Z.of_nat i <= cap)%Z ->
     Number_isFinite (B i) = true /\ (t_targetToday q <=? B i) = false) \/
  (exists k, (j < k)%nat /\ (Z.of_nat k <= cap)%Z /\
     Number_isFinite (B k) = false /\
     forall i, (j < i < k)%nat -> (t_targetToday q <=? B i) = false).
Proof.
  induction n as [|n IH]; intros j Hn.
  - cbn [target_loop]. split; auto. intros _. left. intros; lia.
  - cbn [target_loop].
    destruct (Z.leb_spec (Z.of_nat j + 1) cap) as [Hc|Hc]; [|lia].
    change (advance (t_timing q) (t_realMonthlyRate q) (B j)
              (target_contribution Math_pow q (Z.of_nat j + 1))) with (B (S j)).
    destruct (Number_isFinite (B (S j))) eqn:F; cbn [negb].
    + destruct (t_targetToday q <=? B (S j)) eqn:T.
      * split; [discriminate|]. intros [H|(k & Hjk & Hk & Hf & Hb)].
        { destruct (H (S j)) as [_ H']; try lia. congruence. }
        { destruct (Nat.eq_dec k (S j)) as [->|Hne]; [congruence|].
          rewrite (Hb (S j)) in T by lia. discriminate. }
      * replace (Z.of_nat j + 1 + 1)%Z with (Z.of_nat (S j) + 1)%Z by lia.
        rewrite (IH (S j)) by lia. split.
        { intros [H|(k & Hjk & Hk & Hf & Hb)].
          - left. intros i Hi Hic.
            destruct (Nat.eq_dec i (S j)) as [->|]; auto. apply H; lia.
          - right. exists k. repeat split; auto; try lia.
            intros i Hi. destruct (Nat.eq_dec i (S j)) as [->|]; auto.
            apply Hb. lia. }
        { intros [H|(k & Hjk & Hk & Hf & Hb)].
          - left. intros i Hi Hic. apply H; lia.
          - destruct (Nat.eq_dec k (S j)) as [->|Hne]; [congruence|].
            right. exists k. repeat split; auto; try lia.
            intros i Hi. apply Hb. lia. }
    + split; auto. intros _. right. exists (S j).
      repeat split; auto; try lia.
Qed.

End Horizon.

Lemma target_balance_at_cap Math_pow q c k :
  target_balance_at Math_pow (set_maxMonths q c) k = target_balance_at Math_pow q k.
Proof.
  induction k as [|k IH]; [reflexivity|].
  cbn [target_balance_at]. rewrite IH. reflexivity.
Qed.

Lemma monthsToTarget_loop Math_pow q :
  (t_targetToday q <=? t_pvToday q) = false ->
  monthsToTarget Math_pow q =
  target_loop Math_pow q (cap_of q) (Z.to_nat (cap_of q - Z.of_nat 0)) (Z.of_nat 0 + 1)
    (target_balance_at Math_pow q 0).
Proof.
  intros H. unfold monthsToTarget. rewrite H. fold (cap_of q).
  now replace (cap_of q - Z.of_nat 0)%Z with (cap_of q) by (simpl; lia).
Qed.

(** X14. When [targetToday <= pvToday] does not hold, [monthsToTarget]
    returns [m] exactly when [m], between 1 and the cap, is the first
    period whose balance is at or above the target, all the balances up to
    it being finite. *)
Theorem monthsToTarget_first_hit Math_pow q m :
  (t_targetToday q <=? t_pvToday q) = false ->
  monthsToTarget Math_pow q = Some m <->
  (1 <= m <= cap_of q)%Z /\
  (forall i, (1 <= i <= Z.to_nat m)%nat ->
     Number_isFinite (target_balance_at Math_pow q i) = true) /\
  (forall i, (1 <= i < Z.to_nat m)%nat ->
     (t_targetToday q <=? target_balance_at Math_pow q i) = false) /\
  (t_targetToday q <=? target_balance_at Math_pow q (Z.to_nat m)) = true.
Proof.
  intros H. rewrite (monthsToTarget_loop _ _ H).
  rewrite (target_loop_some Math_pow q (cap_of q) _ 0 m eq_refl). split.
  - intros (k & -> & Hk & Hc & Hf & Hb & Ht). rewrite Nat2Z.id.
    repeat split; auto; lia.
  - intros (Hm & Hf & Hb & Ht). exists (Z.to_nat m).
    repeat split; auto; lia.
Qed.

Lemma monthsToTarget_first_hit_witness :
  (1 <= 42 <= cap_of fixed_nominal_target)%Z /\
  (t_targetToday fixed_nominal_target <=?
   target_balance_at pow_ref fixed_nominal_target (Z.to_nat 42)) = true.
Proof.
  destruct (proj1 (monthsToTarget_first_hit pow_ref fixed_nominal_target 42 eq_refl))
    as (H1 & _ & _ & H2).
  - vm_compute. reflexivity.
  - split; [exact H1|exact H2].
Defined.

(** X15. When [targetToday <= pvToday] does not hold, [monthsToTarget]
    returns [null] exactly when every balance up to the cap is finite and
    short of the target, or when a balance within the cap is not finite
    with no balance before it at the target. *)
Theorem monthsToTarget_null Math_pow q :
  (t_targetToday q <=? t_pvToday q) = false ->
  monthsToTarget Math_pow q = None <->
  (forall i, (1 <= i)%nat -> (Z.of_nat i <= cap_of q)%Z ->
     Number_isFinite (target_balance_at Math_pow q i) = true /\
     (t_targetToday q <=? target_balance_at Math_pow q i) = false) \/
  (exists k, (1 <= k)%nat /\ (Z.of_nat k <= cap_of q)%Z /\
     Number_isFinite (target_balance_at Math_pow q k) = false /\
     forall i, (1 <= i < k)%nat ->
       (t_targetToday q <=? target_balance_at Math_pow q i) = false).
Proof.
  intros H. rewrite (monthsToTarget_loop _ _ H).
  exact (target_loop_none Math_pow q (cap_of q) _ 0 eq_refl).
Qed.

Lemma monthsToTarget_null_witness :
  monthsToTarget pow_ref impossible_target = None <->
  (forall i, (1 <= i)%nat -> (Z.of_nat i <= cap_of impossible_target)%Z ->
     Number_isFinite (target_balance_at pow_ref impossible_target i) = true /\
     (t_targetToday impossible_target <=?
      target_balance_at pow_ref impossible_target i) = false) \/
  (exists k, (1 <= k)%nat /\ (Z.of_nat k <= cap_of impossible_target)%Z /\
     Number_isFinite (target_balance_at pow_ref impossible_target k) = false /\
     forall i, (1 <= i < k)%nat ->
       (t_targetToday impossible_target <=?
        target_balance_at pow_ref impossible_target i) = false).
Proof. exact (monthsToTarget_null pow_ref impossible_target eq_refl). Defined.

(** X16. The cap only cuts the search: a month found under one cap is
    found under every cap from that month up, and under a lower cap
    nothing is found. *)
Theorem monthsToTarget_cap Math_pow q m cap :
  monthsToTarget Math_pow q = Some m ->
  ((m <= cap)%Z -> monthsToTarget Math_pow (set_maxMonths q (Some cap)) = Some m) /\
  ((cap < m)%Z -> (0 < m)%Z ->
   monthsToTarget Math_pow (set_maxMonths q (Some cap)) = None).
Proof.
  intros H.
  destruct (t_targetToday q <=? t_pvToday q) eqn:T.
  - unfold monthsToTarget in *. cbn [set_maxMonths t_targetToday t_pvToday].
    rewrite T in *. injection H as <-. split; auto. lia.
  - assert (T' : (t_targetToday (set_maxMonths q (Some cap)) <=?
                  t_pvToday (set_maxMonths q (Some cap))) = false) by exact T.
    rewrite (monthsToTarget_loop _ _ T) in H.
    apply (target_loop_some Math_pow q (cap_of q) _ 0 m eq_refl) in H
      as (k & -> & Hk & Hc & Hf & Hb & Ht).
    rewrite (monthsToTarget_loop _ _ T').
    change (cap_of (set_maxMonths q (Some cap))) with cap.
    split.
    + intros Hle.
      apply (target_loop_some Math_pow (set_maxMonths q (Some cap)) cap _ 0 _ eq_refl).
      change (t_targetToday (set_maxMonths q (Some cap))) with (t_targetToday q).
      exists k. repeat split; auto; intros; rewrite ?target_balance_at_cap; auto.
    + intros Hlt _.
      apply (target_loop_none Math_pow (set_maxMonths q (Some cap)) cap _ 0 eq_refl).
      change (t_targetToday (set_maxMonths q (Some cap))) with (t_targetToday q).
      left. intros i Hi Hic. rewrite target_balance_at_cap.
      split; [apply Hf|apply Hb]; lia.
Qed.

Lemma monthsToTarget_cap_witness :
  monthsToTarget pow_ref (set_maxMonths fixed_nominal_target (Some 42%Z)) = Some 42%Z /\
  monthsToTarget pow_ref (set_maxMonths fixed_nominal_target (Some 41%Z)) = None.
Proof.
  assert (H : monthsToTarget pow_ref fixed_nominal_target = Some 42%Z)
    by (vm_compute; reflexivity).
  split.
  - apply (monthsToTarget_cap pow_ref fixed_nominal_target 42 42 H). lia.
  - apply (monthsToTarget_cap pow_ref fixed_nominal_target 42 41 H); lia.
Defined.

(** ** The contribution of a period *)

Lemma offset_balance_eq Math_pow q k : t_indexation q = fixedNominal ->
  target_balance_at Math_pow q k = offset_balance Math_pow q k.
Proof.
  intros Hq. induction k as [|k IH]; [reflexivity|].
  cbn [target_balance_at offset_balance]. rewrite IH.
  unfold target_contribution. rewrite Hq. reflexivity.
Qed.

(** C4. Under [fixedNominal], [monthsToTarget] advances the balance of
    period [m >= 1] with [pmt0 / (1 + inflation)^(m - 1)], the factor of
    the period before: what it returns is the first period at which the
    balances so advanced are at the target, and [null] when there is none.
    The snapshot of month [m] in [simulateProjection] carries
    [pmt0 / (1 + inflation)^m]: with the same amounts, the snapshot of a
    month carries what [monthsToTarget] adds in the period after it. *)
Theorem contribution_offset Math_pow p q :
  indexation p = fixedNominal -> t_indexation q = fixedNominal ->
  ((t_targetToday q <=? t_pvToday q) = false ->
   (forall m, monthsToTarget Math_pow q = Some m <->
      (1 <= m <= cap_of q)%Z /\
      (forall i, (1 <= i <= Z.to_nat m)%nat ->
         Number_isFinite (offset_balance Math_pow q i) = true) /\
      (forall i, (1 <= i < Z.to_nat m)%nat ->
         (t_targetToday q <=? offset_balance Math_pow q i) = false) /\
      (t_targetToday q <=? offset_balance Math_pow q (Z.to_nat m)) = true) /\
   (monthsToTarget Math_pow q = None <->
      (forall i, (1 <= i)%nat -> (Z.of_nat i <= cap_of q)%Z ->
         Number_isFinite (offset_balance Math_pow q i) = true /\
         (t_targetToday q <=? offset_balance Math_pow q i) = false) \/
      (exists k, (1 <= k)%nat /\ (Z.of_nat k <= cap_of q)%Z /\
         Number_isFinite (offset_balance Math_pow q k) = false /\
         forall i, (1 <= i < k)%nat ->
           (t_targetToday q <=? offset_balance Math_pow q i) = false))) /\
  (forall k pt, nth_error (simulateProjection Math_pow p) k = Some pt ->
     month pt = Z.of_nat k /\
     contributionReal pt =
     pmt0 p / Math_pow (1 + inflationMonthlyRate p) (Z.of_nat k)) /\
  (t_pmt0 q = pmt0 p -> t_inflationMonthlyRate q = inflationMonthlyRate p ->
   forall k pt, nth_error (simulateProjection Math_pow p) k = Some pt ->
     offset_balance Math_pow q (S k) =
     advance (t_timing q) (t_realMonthlyRate q) (offset_balance Math_pow q k)
       (contributionReal pt)).
Proof.
  intros Hp Hq.
  pose proof (offset_balance_eq Math_pow q) as E.
  assert (Hsnap : forall k pt, nth_error (simulateProjection Math_pow p) k = Some pt ->
            month pt = Z.of_nat k /\
            contributionReal pt =
            pmt0 p / Math_pow (1 + inflationMonthlyRate p) (Z.of_nat k)).
  { intros k pt H. apply simulateProjection_nth in H. subst pt.
    cbn [month contributionReal snapshot]. rewrite Hp. auto. }
  split; [|split; [exact Hsnap|]].
  - intros T. rewrite (monthsToTarget_loop _ _ T). split.
    + intros m.
      rewrite (target_loop_some Math_pow q (cap_of q) _ 0 m eq_refl). split.
      * intros (k & -> & Hk & Hc & Hf & Hb & Ht). rewrite Nat2Z.id.
        split; [lia|]. split; [|split].
        -- intros i Hi. rewrite <- E by exact Hq. apply Hf. lia.
        -- intros i Hi. rewrite <- E by exact Hq. apply Hb. lia.
        -- rewrite <- E by exact Hq. exact Ht.
      * intros (Hm & Hf & Hb & Ht). exists (Z.to_nat m).
        split; [lia|]. split; [lia|]. split; [lia|]. split; [|split].
        -- intros i Hi. rewrite E by exact Hq. apply Hf. lia.
        -- intros i Hi. rewrite E by exact Hq. apply Hb. lia.
        -- rewrite E by exact Hq. exact Ht.
    + rewrite (target_loop_none Math_pow q (cap_of q) _ 0 eq_refl). split.
      * intros [H|(k & Hk & Hc & Hf & Hb)].
        -- left. intros i Hi Hic. rewrite <- E by exact Hq. apply H; lia.
        -- right. exists k. rewrite <- E by exact Hq. repeat split; auto.
           intros i Hi. rewrite <- E by exact Hq. apply Hb. lia.
      * intros [H|(k & Hk & Hc & Hf & Hb)].
        -- left. intros i Hi Hic. rewrite E by exact Hq. apply H; lia.
        -- right. exists k. rewrite E by exact Hq. repeat split; auto; try lia.
           intros i Hi. rewrite E by exact Hq. apply Hb. lia.
  - intros Epmt Einfl k pt H. destruct (Hsnap k pt H) as [_ Hc].
    cbn [offset_balance]. rewrite Hc, Epmt, Einfl.
    now replace (Z.of_nat k + 1 - 1)%Z with (Z.of_nat k) by lia.
Qed.

Lemma contribution_offset_witness :
  (t_targetToday fixed_nominal_target <=?
   offset_balance pow_ref fixed_nominal_target 42) = true /\
  (let pt := snapshot pow_ref fixed_nominal_run 1 (balance_at pow_ref fixed_nominal_run 1) in
   month pt = 1%Z /\ contributionReal pt = 100 / pow_ref (1 + 0.002) 1).
Proof.
  destruct (contribution_offset pow_ref fixed_nominal_run fixed_nominal_target
              eq_refl eq_refl) as (HA & HB & _).
  split.
  - destruct (HA eq_refl) as [Hsome _].
    apply (proj1 (Hsome 42%Z)). vm_compute. reflexivity.
  - intros pt. apply (HB 1%nat). reflexivity.
Defined.

(** ** The horizon solver and the simulator *)

(** Under [inflationAdjusted] both loops advance the balance with [pmt0]:
    they compute the same balances. *)
Lemma target_balance_sim Math_pow q m k :
  t_indexation q = inflationAdjusted ->
  target_balance_at Math_pow q k = balance_at Math_pow (projection_of q m) k.
Proof.
  intros Hi. induction k as [|k IH]; [reflexivity|].
  cbn [target_balance_at balance_at]. rewrite IH.
  unfold target_contribution.
  cbn [contributionReal snapshot projection_of indexation timing realMonthlyRate pmt0].
  rewrite Hi. reflexivity.
Qed.

(** X17. Under [inflationAdjusted] the simulator agrees with the horizon
    solver: over the number of months that [monthsToTarget] returns, the
    projection is not cut short, ends at or above the target, and is below
    the target at every month from 1 to the one before the last. *)
Theorem monthsToTarget_simulated Math_pow q m :
  t_indexation q = inflationAdjusted ->
  monthsToTarget Math_pow q = Some m ->
  let traj := simulateProjection Math_pow (projection_of q m) in
  let final := finalBalanceReal Math_pow (projection_of q m) in
  Z.of_nat (length traj) = (m + 1)%Z /\
  (t_targetToday q <=? final) = true /\
  ((1 <= m)%Z -> Number_isFinite final = true) /\
  (forall k pt, (1 <= k < Z.to_nat m)%nat -> nth_error traj k = Some pt ->
     (t_targetToday q <=? balanceReal pt) = false).
Proof.
  intros Hi H traj final.
  destruct (t_targetToday q <=? t_pvToday q) eqn:T.
  - unfold monthsToTarget in H. rewrite T in H. injection H as <-.
    subst traj final. split; [reflexivity|]. split; [|split; [lia|]].
    + change (finalBalanceReal Math_pow (projection_of q 0)) with (Math_max 0 (t_pvToday q)).
      apply leb_F2R in T as (N1 & N2 & V).
      destruct (Math_max_spec 0 (t_pvToday q) eq_refl) as [N V'].
      { now apply is_nan_false. }
      apply leb_F2R. split; auto. split; [now apply is_nan_false|].
      rewrite V'. eapply Rle_trans; [exact V|apply Rmax_r].
    + intros k pt Hk. simpl in Hk. lia.
  - rewrite (monthsToTarget_loop _ _ T) in H.
    apply (target_loop_some Math_pow q (cap_of q) _ 0 m eq_refl) in H
      as (k & -> & Hk & Hc & Hf & Hb & Ht).
    assert (Hlen : Z.of_nat (length traj) = (Z.of_nat k + 1)%Z).
    { apply (full_run_length Math_pow (projection_of q (Z.of_nat k))); [simpl; lia|].
      intros j Hj. cbn [months projection_of] in Hj. rewrite Nat2Z.id in Hj.
      rewrite <- target_balance_sim by auto. apply Hf. lia. }
    assert (Hfin : final = target_balance_at Math_pow q k).
    { subst final. rewrite full_run_final by (auto; simpl; lia).
      cbn [months projection_of]. rewrite Nat2Z.id. now rewrite <- target_balance_sim. }
    split; [exact Hlen|]. rewrite Hfin. split; [exact Ht|]. split.
    + intros _. apply Hf. lia.
    + intros j pt Hj Hpt. rewrite Nat2Z.id in Hj.
      apply simulateProjection_nth in Hpt. subst pt.
      cbn [balanceReal snapshot]. rewrite <- target_balance_sim by auto.
      apply Hb. lia.
Qed.

Lemma monthsToTarget_simulated_witness :
  Z.of_nat (length (simulateProjection pow_ref (projection_of adjusted_target 8))) = 9%Z /\
  (t_targetToday adjusted_target <=?
   finalBalanceReal pow_ref (projection_of adjusted_target 8)) = true.
Proof.
  destruct (monthsToTarget_simulated pow_ref adjusted_target 8 eq_refl)
    as (H1 & H2 & _).
  - vm_compute. reflexivity.
  - split; [exact H1|exact H2].
Defined.

(** ** A larger contribution *)

Section Faster.
Variable Math_pow : num -> Z -> num.
Variable q : TargetParams.
Variables a b : num.
Variable m : nat.

Let qa := set_t_pmt0 q a.
Let qb := set_t_pmt0 q b.

Hypothesis Hab : (a <=? b) = true.
Hypothesis Hr : (0 <=? 1 + t_realMonthlyRate q) = true.
Hypothesis Hidx :
  t_indexation q = inflationAdjusted \/
  forall j, (0 <= j < Z.of_nat m)%Z ->
    (0 <? Math_pow (1 + t_inflationMonthlyRate q) j) = true.

Lemma target_contribution_mono k :
  (1 <= k <= m)%nat ->
  is_finite (target_contribution Math_pow qa (Z.of_nat k)) = true ->
  is_finite (target_contribution Math_pow qb (Z.of_nat k)) = true ->
  (target_contribution Math_pow qa (Z.of_nat k) <=?
   target_contribution Math_pow qb (Z.of_nat k)) = true.
Proof.
  intros Hk. unfold target_contribution.
  cbn [qa qb set_t_pmt0 t_indexation t_pmt0 t_inflationMonthlyRate].
  destruct Hidx as [Hi|Hpos].
  - rewrite Hi. auto.
  - destruct (t_indexation q); auto.
    intros Fa Fb. apply div_finite_inv in Fa as [Fa _]. apply div_finite_inv in Fb as [Fb _].
    apply div_mono; auto. apply Hpos. lia.
Qed.

Lemma target_balance_mono k :
  (k <= m)%nat ->
  (forall j, (j <= k)%nat -> is_finite (target_balance_at Math_pow qa j) = true) ->
  (forall j, (j <= k)%nat -> is_finite (target_balance_at Math_pow qb j) = true) ->
  (target_balance_at Math_pow qa k <=? target_balance_at Math_pow qb k) = true.
Proof.
  induction k as [|k IH]; intros Hk Fa Fb.
  - cbn [target_balance_at qa qb set_t_pmt0 t_pvToday]. apply leb_refl.
    apply is_nan_false, is_finite_not_nan. exact (Fa 0%nat ltac:(lia)).
  - pose proof (Fa (S k) ltac:(lia)) as Fa'. pose proof (Fb (S k) ltac:(lia)) as Fb'.
    cbn [target_balance_at] in *.
    change (t_timing qa) with (t_timing q) in *. change (t_timing qb) with (t_timing q) in *.
    change (t_realMonthlyRate qa) with (t_realMonthlyRate q) in *.
    change (t_realMonthlyRate qb) with (t_realMonthlyRate q) in *.
    replace (Z.of_nat k + 1)%Z with (Z.of_nat (S k)) in * by lia.
    apply advance_mono; [exact Hr|exact Fa'|exact Fb'| |].
    + apply IH; [lia|intros; apply Fa; lia|intros; apply Fb; lia].
    + apply target_contribution_mono; [lia| |].
      * now apply advance_finite_inv in Fa'.
      * now apply advance_finite_inv in Fb'.
Qed.

End Faster.

(** X18. A larger contribution never delays the target: with
    [1 + r >= 0] and, under [fixedNominal], positive inflation factors, if
    [monthsToTarget] returns [m] for a contribution [a], then for every
    contribution [b >= a] whose balances stay finite up to period [m] it
    returns a month that is not later. *)
Theorem monthsToTarget_faster Math_pow q a b m :
  (a <=? b) = true ->
  (0 <=? 1 + t_realMonthlyRate q) = true ->
  (t_indexation q = inflationAdjusted \/
   forall j, (0 <= j < m)%Z ->
     (0 <? Math_pow (1 + t_inflationMonthlyRate q) j) = true) ->
  monthsToTarget Math_pow (set_t_pmt0 q a) = Some m ->
  (forall i, (1 <= i <= Z.to_nat m)%nat ->
     Number_isFinite (target_balance_at Math_pow (set_t_pmt0 q b) i) = true) ->
  exists m', monthsToTarget Math_pow (set_t_pmt0 q b) = Some m' /\ (m' <= m)%Z.
Proof.
  intros Hab Hr Hidx H Fb.
  destruct (t_targetToday q <=? t_pvToday q) eqn:T.
  - unfold monthsToTarget in *. cbn [set_t_pmt0 t_targetToday t_pvToday] in *.
    rewrite T in *. exists 0%Z. split; auto. injection H as <-. lia.
  - assert (Ta : (t_targetToday (set_t_pmt0 q a) <=? t_pvToday (set_t_pmt0 q a)) = false)
      by exact T.
    assert (Tb : (t_targetToday (set_t_pmt0 q b) <=? t_pvToday (set_t_pmt0 q b)) = false)
      by exact T.
    rewrite (monthsToTarget_loop _ _ Ta) in H.
    apply (target_loop_some Math_pow _ _ _ 0 m eq_refl) in H
      as (k & -> & Hk & Hc & Hf & Hb & Ht).
    rewrite Nat2Z.id in Fb.
    change (cap_of (set_t_pmt0 q a)) with (cap_of q) in Hc.
    change (t_targetToday (set_t_pmt0 q a)) with (t_targetToday q) in Ht.
    assert (F0 : is_finite (target_balance_at Math_pow (set_t_pmt0 q a) 0) = true).
    { pose proof (Hf 1%nat ltac:(lia)) as F1. unfold Number_isFinite in F1.
      cbn [target_balance_at] in F1. now apply advance_finite_inv in F1. }
    assert (Fa' : forall j, (j <= k)%nat ->
              is_finite (target_balance_at Math_pow (set_t_pmt0 q a) j) = true).
    { intros [|j] Hj; [exact F0|]. apply Hf. lia. }
    assert (Fb' : forall j, (j <= k)%nat ->
              is_finite (target_balance_at Math_pow (set_t_pmt0 q b) j) = true).
    { intros [|j] Hj; [exact F0|]. apply Fb. lia. }
    pose proof (target_balance_mono Math_pow q a b k Hab Hr Hidx k (le_n k) Fa' Fb') as Hmono.
    assert (Hhit : (t_targetToday q <=? target_balance_at Math_pow (set_t_pmt0 q b) k) = true)
      by (now apply leb_trans with (1 := Ht)).
    rewrite (monthsToTarget_loop _ _ Tb).
    change (cap_of (set_t_pmt0 q b)) with (cap_of q).
    destruct (target_loop Math_pow (set_t_pmt0 q b) (cap_of q) _ _ _) as [m'|] eqn:E.
    + exists m'. split; [reflexivity|].
      apply (target_loop_some Math_pow _ _ _ 0 m' eq_refl) in E
        as (k' & -> & Hk' & Hc' & Hf' & Hb' & Ht').
      destruct (Nat.le_gt_cases k' k) as [|Hgt]; [lia|].
      specialize (Hb' k ltac:(lia)).
      change (t_targetToday (set_t_pmt0 q b)) with (t_targetToday q) in Hb'.
      congruence.
    + exfalso.
      apply (target_loop_none Math_pow _ _ _ 0 eq_refl) in E
        as [E|(k' & Hk' & Hc' & Hnf & Hb')].
      * destruct (E k) as [_ E']; try lia.
        change (t_targetToday (set_t_pmt0 q b)) with (t_targetToday q) in E'.
        congruence.
      * destruct (Nat.le_gt_cases k' k) as [Hle|Hgt].
        -- rewrite Fb in Hnf by lia. discriminate.
        -- specialize (Hb' k ltac:(lia)).
           change (t_targetToday (set_t_pmt0 q b)) with (t_targetToday q) in Hb'.
           congruence.
Qed.

Lemma monthsToTarget_faster_witness :
  exists m', monthsToTarget pow_ref (set_t_pmt0 fixed_nominal_target 150) = Some m' /\
    (m' <= 42)%Z.
Proof.
  apply (monthsToTarget_faster pow_ref fixed_nominal_target 100 150 42).
  - reflexivity.
  - reflexivity.
  - right. intros j Hj.
    assert (E : (Z.to_nat j < 42)%nat /\ j = Z.of_nat (Z.to_nat j)) by lia.
    destruct E as [E ->]. revert E. generalize (Z.to_nat j). intros n E.
    do 42 (destruct n as [|n]; [vm_compute; reflexivity|]). lia.
  - vm_compute. reflexivity.
  - intros i Hi. change (Z.to_nat 42) with 42%nat in Hi.
    do 43 (destruct i as [|i]; [try lia; vm_compute; reflexivity|]). lia.
Defined.

(** ** Amounts and rates that are not finite *)

Lemma target_loop_miss Math_pow q cap n : forall m b,
  (forall b', (t_targetToday q <=? b') = false) ->
  target_loop Math_pow q cap n m b = None.
Proof.
  induction n as [|n IH]; intros m b H; [reflexivity|].
  cbn [target_loop]. destruct (m <=? cap)%Z; [|reflexivity].
  destruct (negb _); [reflexivity|]. rewrite H. now apply IH.
Qed.

(** X19. When [targetToday <= pvToday] does not hold, a target that is
    not a number, or a starting balance, a contribution or a return that
    is not finite, makes [monthsToTarget] return [null]. *)
Theorem monthsToTarget_invalid Math_pow q :
  (t_targetToday q <=? t_pvToday q) = false ->
  is_nan (t_targetToday q) = true \/
  Number_isFinite (Math_max 0 (t_pvToday q)) = false \/
  Number_isFinite (t_pmt0 q) = false \/
  Number_isFinite (t_realMonthlyRate q) = false ->
  monthsToTarget Math_pow q = None.
Proof.
  intros T H. unfold monthsToTarget. rewrite T.
  destruct H as [H|H].
  - apply target_loop_miss. intros b'. now apply leb_nan_l.
  - destruct (Z.to_nat _) as [|n]; [reflexivity|].
    cbn [target_loop]. destruct (1 <=? _)%Z; [|reflexivity].
    unfold Number_isFinite in *. rewrite advance_not_finite; [reflexivity|].
    destruct H as [H|[H|H]]; auto.
    right. left. unfold target_contribution.
    destruct (t_indexation q); [exact H|].
    destruct (is_finite (t_pmt0 q / _)) eqn:F; [|reflexivity].
    apply div_finite_inv in F as [F _]. congruence.
Qed.

Lemma monthsToTarget_invalid_witness : monthsToTarget pow_ref nan_target = None.
Proof.
  apply (monthsToTarget_invalid pow_ref nan_target); [reflexivity|].
  left. reflexivity.
Defined.

(** * The contribution solver *)

Lemma doubled_succ_r k h : doubled (S k) h = doubled k (h * 2).
Proof.
  induction k as [|k IH]; [reflexivity|].
  change (doubled (S (S k)) h) with (doubled (S k) h * 2).
  rewrite IH. reflexivity.
Qed.

Lemma doubled_succ k h : doubled (S k) h = doubled k h * 2.
Proof. reflexivity. Qed.

Lemma doubled_one_facts j : (j <= 30)%nat ->
  is_finite (doubled j 1) = true /\ (0 <=? doubled j 1) = true.
Proof.
  intros H. do 31 (destruct j as [|j]; [split; reflexivity|]). lia.
Qed.

Section Bracket.
Variable Math_pow : num -> Z -> num.
Variable s : SolveParams.

Let reach := reaches Math_pow s.
Let brk := bracket Math_pow s.

(** What the loop hands to the bisection is the first doubling that
    reaches the target, or the last one when the guard runs out. *)
Lemma bracket_some n : forall h h',
  brk n h = Some h' ->
  exists k, (k <= n)%nat /\ h' = doubled k h /\
    (forall j, (j < k)%nat -> reach (doubled j h) = false) /\
    (reach h' = true \/ k = n).
Proof.
  induction n as [|n IH]; intros h h' H.
  - injection H as <-. exists 0%nat. repeat split; auto. intros; lia.
  - cbn [brk bracket] in H. fold reach in H.
    destruct (reach h) eqn:R; cbn [negb] in H.
    + injection H as <-. exists 0%nat. repeat split; auto; [lia|intros; lia].
    + destruct (1e9 <? h * 2); [discriminate|].
      apply IH in H as (k & Hk & E & Hj & Hr).
      exists (S k). rewrite doubled_succ_r. repeat split; auto; [lia| |].
      * intros [|j] Hlt; [exact R|]. rewrite doubled_succ_r. apply Hj. lia.
      * destruct Hr; [now left|right; lia].
Qed.

(** It returns [null] only when a doubling passes 1e9 with no earlier
    [high] reaching the target. *)
Lemma bracket_none n : forall h,
  brk n h = None ->
  exists k, (k < n)%nat /\
    (forall j, (j <= k)%nat -> reach (doubled j h) = false) /\
    (1e9 <? doubled (S k) h) = true.
Proof.
  induction n as [|n IH]; intros h H.
  - discriminate.
  - cbn [brk bracket] in H. fold reach in H.
    destruct (reach h) eqn:R; cbn [negb] in H; [discriminate|].
    destruct (1e9 <? h * 2) eqn:C.
    + exists 0%nat. repeat split; auto; [lia|].
      intros j Hj. replace j with 0%nat by lia. exact R.
    + apply IH in H as (k & Hk & Hj & Hc).
      exists (S k). repeat split; [lia| |].
      * intros [|j] Hle; [exact R|]. rewrite doubled_succ_r. apply Hj. lia.
      * now rewrite doubled_succ_r.
Qed.

(** From a [high] of at least [2^j] the magnitude cap is met within
    [30 - j] doublings: the guard of 60 never runs out. *)
Lemma bracket_guard n : forall j h,
  (j <= 29)%nat -> (30 - j <= n)%nat -> (doubled j 1 <=? h) = true ->
  match brk n h with
  | None => True
  | Some h' => reach h' = true
  end.
Proof.
  induction n as [|n IH]; intros j h Hj Hn Hh; [lia|].
  cbn [brk bracket]. fold reach.
  destruct (reach h) eqn:R; cbn [negb]; [exact R|].
  destruct (doubled_one_facts j ltac:(lia)) as [Fj Pj].
  pose proof (double_mono _ _ Fj Pj Hh) as Hd. rewrite <- doubled_succ in Hd.
  destruct (1e9 <? h * 2) eqn:C; [exact I|].
  destruct (Nat.eq_dec j 29) as [->|Hne].
  - assert ((1e9 <? h * 2) = true)
      by (apply ltb_leb_trans with (2 := Hd); reflexivity).
    congruence.
  - apply (IH (S j)); auto; lia.
Qed.

Hypothesis Hmonths : (0 < s_months s < 2 ^ 53)%Z.
Hypothesis Htarget : (s_pvToday s <? s_targetToday s) = true.

Lemma initial_high_ge_1 : (1 <=? initial_high s) = true.
Proof.
  unfold initial_high.
  destruct (Z2num_pos (s_months s) ltac:(lia)) as [Fm Pm].
  assert (N : is_nan ((s_targetToday s - s_pvToday s) / Z2num (s_months s)) = false).
  { apply div_not_nan; auto. now apply sub_lt_not_nan. }
  destruct (Math_max_spec 1 _ eq_refl N) as [N' V].
  apply leb_F2R. split; [vm_compute; discriminate|]. split; [now apply is_nan_false|].
  rewrite V. apply Rmax_l.
Qed.

End Bracket.

(** The doubling that passes 1e9 ends the loop with [null], whatever a
    later [high] would do. *)
Lemma bracket_ceiling Math_pow s n : forall h k,
  (k < n)%nat ->
  (forall j, (j <= k)%nat -> reaches Math_pow s (doubled j h) = false) ->
  (1e9 <? doubled (S k) h) = true ->
  bracket Math_pow s n h = None.
Proof.
  induction n as [|n IH]; intros h k Hk Hj Hc; [lia|].
  cbn [bracket]. pose proof (Hj 0%nat ltac:(lia)) as R.
  change (doubled 0 h) with h in R. rewrite R. cbn [negb].
  destruct (1e9 <? h * 2) eqn:C; [reflexivity|].
  destruct k as [|k]; [change (doubled 1 h) with (h * 2) in Hc; congruence|].
  apply (IH (h * 2) k); [lia| |].
  - intros j Hle. rewrite <- doubled_succ_r. apply Hj. lia.
  - now rewrite <- doubled_succ_r.
Qed.

(** The first [high] that reaches the target, no doubling before it having
    passed 1e9, is what the loop hands to the bisection. *)
Lemma bracket_reach Math_pow s n : forall h k,
  (k <= n)%nat ->
  (forall j, (j < k)%nat -> reaches Math_pow s (doubled j h) = false /\
                            (1e9 <? doubled (S j) h) = false) ->
  reaches Math_pow s (doubled k h) = true ->
  bracket Math_pow s n h = Some (doubled k h).
Proof.
  induction n as [|n IH]; intros h k Hk Hj Hr.
  - replace k with 0%nat by lia. reflexivity.
  - cbn [bracket]. destruct k as [|k].
    + change (doubled 0 h) with h in Hr. rewrite Hr. reflexivity.
    + destruct (Hj 0%nat ltac:(lia)) as [R C].
      change (doubled 0 h) with h in R. change (doubled 1 h) with (h * 2) in C.
      rewrite R, C. cbn [negb].
      rewrite doubled_succ_r. apply IH; [lia| |now rewrite <- doubled_succ_r].
      intros j Hlt. rewrite <- !doubled_succ_r. apply Hj. lia.
Qed.

(** What the loop hands over was reached without passing 1e9. *)
Lemma bracket_some_ceiling Math_pow s n : forall h h',
  bracket Math_pow s n h = Some h' ->
  exists k, (k <= n)%nat /\ h' = doubled k h /\
    (forall j, (j < k)%nat -> reaches Math_pow s (doubled j h) = false /\
                              (1e9 <? doubled (S j) h) = false) /\
    (reaches Math_pow s h' = true \/ k = n).
Proof.
  induction n as [|n IH]; intros h h' H.
  - injection H as <-. exists 0%nat. repeat split; auto; intros; lia.
  - cbn [bracket] in H.
    destruct (reaches Math_pow s h) eqn:R; cbn [negb] in H.
    + injection H as <-. exists 0%nat. repeat split; auto; try lia; intros; lia.
    + destruct (1e9 <? h * 2) eqn:C; [discriminate|].
      apply IH in H as (k & Hk & E & Hj & Hr).
      exists (S k). rewrite doubled_succ_r. repeat split; auto; [lia| | |].
      * destruct j as [|j]; [exact R|]. rewrite doubled_succ_r. apply Hj. lia.
      * destruct j as [|j]; [exact C|]. rewrite doubled_succ_r. apply Hj. lia.
      * destruct Hr; [now left|right; lia].
Qed.

(** From a [high] of 1 or more, 30 doublings pass 1e9. *)
Lemma doubled_le j h : (j <= 30)%nat -> (1 <=? h) = true ->
  (doubled j 1 <=? doubled j h) = true.
Proof.
  intros Hj H. induction j as [|j IH]; [exact H|].
  destruct (doubled_one_facts j ltac:(lia)) as [F P].
  rewrite !doubled_succ. apply double_mono; auto. apply IH. lia.
Qed.

Lemma ceiling_within_30 h : (1 <=? h) = true -> (1e9 <? doubled 30 h) = true.
Proof.
  intros H. apply ltb_leb_trans with (2 := doubled_le 30 h (le_n 30) H). reflexivity.
Qed.

(** C6. With [months > 0] and [targetToday > pvToday], [high] starts at
    1 or more and is doubled while [reaches (high)] fails; the doubling
    that passes 1e9 returns [null], which happens within 30 rounds, so the
    guard of 60 never ends the loop: the bisection only ever starts from a
    [high] that reaches the target, and when no [high] does the function
    returns [null].  The result is [null] exactly when a doubling passes
    1e9 with no [high] before it reaching the target, whatever a later
    [high] would do; it is a contribution exactly when a [high] reaches the
    target before any doubling has passed 1e9, and then it is what the
    bisection makes of the first such [high]. *)
Theorem solveRequiredPmt_bracket Math_pow s :
  (0 < s_months s < 2 ^ 53)%Z -> (s_pvToday s <? s_targetToday s) = true ->
  let h0 := initial_high s in
  (1 <=? h0) = true /\
  match bracket Math_pow s 60 h0 with
  | None =>
    solveRequiredPmt Math_pow s = None /\
    exists k, (k < 60)%nat /\
      (forall j, (j <= k)%nat -> reaches Math_pow s (doubled j h0) = false) /\
      (1e9 <? doubled (S k) h0) = true
  | Some high =>
    solveRequiredPmt Math_pow s = Some (Math_max 0 (snd (bisect Math_pow s 70 0 high))) /\
    reaches Math_pow s high = true /\
    exists k, (k <= 60)%nat /\ high = doubled k h0 /\
      (forall j, (j < k)%nat -> reaches Math_pow s (doubled j h0) = false)
  end /\
  ((forall k, (k <= 60)%nat -> reaches Math_pow s (doubled k h0) = false) ->
   solveRequiredPmt Math_pow s = None) /\
  (solveRequiredPmt Math_pow s = None <->
   exists k,
     (forall j, (j <= k)%nat -> reaches Math_pow s (doubled j h0) = false) /\
     (1e9 <? doubled (S k) h0) = true) /\
  (forall c, solveRequiredPmt Math_pow s = Some c <->
   exists k, (k < 30)%nat /\
     (forall j, (j < k)%nat -> reaches Math_pow s (doubled j h0) = false /\
                               (1e9 <? doubled (S j) h0) = false) /\
     reaches Math_pow s (doubled k h0) = true /\
     c = Math_max 0 (snd (bisect Math_pow s 70 0 (doubled k h0)))).
Proof.
  intros Hm Ht h0.
  pose proof (initial_high_ge_1 s Hm Ht) as H1. fold h0 in H1.
  pose proof (bracket_guard Math_pow s 60 0 h0 ltac:(lia) ltac:(lia) H1) as Hg.
  pose proof (ceiling_within_30 h0 H1) as H30.
  assert (Hs : solveRequiredPmt Math_pow s =
               match bracket Math_pow s 60 h0 with
               | None => None
               | Some high => Some (Math_max 0 (snd (bisect Math_pow s 70 0 high)))
               end).
  { unfold solveRequiredPmt. destruct (Z.leb_spec (s_months s) 0); [lia|].
    now rewrite (ltb_true_leb_false _ _ Ht). }
  assert (Hsome : forall k,
            (forall j, (j < k)%nat -> reaches Math_pow s (doubled j h0) = false /\
                                      (1e9 <? doubled (S j) h0) = false) ->
            (k < 30)%nat).
  { intros k Hj. destruct (Nat.lt_ge_cases k 30) as [|Hge]; auto.
    destruct (Hj 29%nat ltac:(lia)) as [_ C]. congruence. }
  split; [exact H1|].
  destruct (bracket Math_pow s 60 h0) as [high|] eqn:E.
  - destruct (bracket_some_ceiling Math_pow s 60 h0 high E) as (k & Hk & Eh & Hj & _).
    split; [|split; [|split]].
    + split; [exact Hs|]. split; [exact Hg|]. exists k.
      repeat split; auto. intros j Hlt. now apply Hj.
    + intros Hno. rewrite Eh in Hg. rewrite Hno in Hg by lia. discriminate.
    + rewrite Hs. split; [discriminate|]. intros (k' & Hj' & Hc'). exfalso.
      destruct (Nat.lt_ge_cases k' k) as [Hlt|Hge].
      * destruct (Hj k' Hlt) as [_ C]. congruence.
      * rewrite Eh in Hg. rewrite (Hj' k Hge) in Hg. discriminate.
    + intros c. rewrite Hs. split.
      * intros Hc. assert (Ec : Math_max 0 (snd (bisect Math_pow s 70 0 high)) = c)
          by exact (f_equal (fun o => match o with Some x => x | None => c end) Hc).
        exists k. rewrite <- Eh. split; [now apply Hsome|].
        split; [exact Hj|]. split; [exact Hg|]. now rewrite Ec.
      * intros (k' & Hk' & Hj' & Hr' & ->).
        pose proof (bracket_reach Math_pow s 60 h0 k' ltac:(lia) Hj' Hr') as E'.
        rewrite E in E'. assert (Eh' : high = doubled k' h0)
          by exact (f_equal (fun o => match o with Some x => x | None => high end) E').
        rewrite Eh'. reflexivity.
  - destruct (bracket_none Math_pow s 60 h0 E) as (k & Hk & Hj & Hc).
    split; [|split; [|split]].
    + split; [exact Hs|]. exists k. auto.
    + intros _. exact Hs.
    + rewrite Hs. split; [|reflexivity]. intros _. exists k. auto.
    + intros c. rewrite Hs. split; [discriminate|].
      intros (k' & Hk' & Hj' & Hr' & _). exfalso.
      pose proof (bracket_reach Math_pow s 60 h0 k' ltac:(lia) Hj' Hr') as E'.
      rewrite E in E'. discriminate.
Qed.

Lemma solveRequiredPmt_bracket_witness :
  solveRequiredPmt pow_ref wipeout = None /\
  solveRequiredPmt pow_ref beyond_ceiling = None /\
  reaches pow_ref beyond_ceiling (doubled 1 (initial_high beyond_ceiling)) = true /\
  solveRequiredPmt pow_ref solve_case =
  Some (Math_max 0 (snd (bisect pow_ref solve_case 70 0
                           (doubled 0 (initial_high solve_case))))).
Proof.
  split; [|split; [|split]].
  - destruct (solveRequiredPmt_bracket pow_ref wipeout ltac:(simpl; lia) eq_refl)
      as (_ & _ & H & _).
    apply H. intros k Hk. do 61 (destruct k as [|k]; [reflexivity|]). lia.
  - destruct (solveRequiredPmt_bracket pow_ref beyond_ceiling ltac:(simpl; lia) eq_refl)
      as (_ & _ & _ & H & _).
    apply H. exists 0%nat. split; [|reflexivity].
    intros j Hj. replace j with 0%nat by lia. reflexivity.
  - reflexivity.
  - destruct (solveRequiredPmt_bracket pow_ref solve_case ltac:(simpl; lia) eq_refl)
      as (_ & _ & _ & _ & H).
    apply H. exists 0%nat. split; [lia|]. split; [intros j Hj; lia|].
    split; reflexivity.
Defined.

(** ** The bisection *)

Lemma halved_facts j : (j <= 70)%nat ->
  is_finite (halved j) = true /\ (0 <? halved j) = true /\
  (halved (S j) <=? halved j) = true.
Proof.
  intros H. do 71 (destruct j as [|j]; [repeat split; reflexivity|]). lia.
Qed.

(** Doubling does not lower a [high] that is 1 or more. *)
Lemma doubled_ge_1 k h : (1 <=? h) = true -> (1 <=? doubled k h) = true.
Proof.
  intros H. induction k as [|k IH]; [exact H|].
  rewrite doubled_succ. apply leb_trans with (1 := IH).
  apply mul_ge_l; auto.
Qed.

Section Bisect.
Variable Math_pow : num -> Z -> num.
Variable s : SolveParams.

Let reach := reaches Math_pow s.

(** The bisection keeps a [high] that reaches the target and that
    [k] halvings cannot bring below [2^-k]. *)
Lemma bisect_high n : forall k low high,
  (k + n <= 70)%nat ->
  (0 <=? low) = true -> (halved k <=? high) = true -> reach high = true ->
  (0 <=? fst (bisect Math_pow s n low high)) = true /\
  (halved (k + n) <=? snd (bisect Math_pow s n low high)) = true /\
  reach (snd (bisect Math_pow s n low high)) = true.
Proof.
  induction n as [|n IH]; intros k low high Hk Hl Hh Hr.
  - cbn [bisect fst snd]. rewrite Nat.add_0_r. auto.
  - cbn [bisect]. fold reach.
    destruct (halved_facts k ltac:(lia)) as (Fk & Pk & Sk).
    destruct (halved_facts (S k) ltac:(lia)) as (Fk' & Pk' & _).
    assert (Hh0 : (0 <=? high) = true).
    { apply leb_trans with (2 := Hh). now apply ltb_leb. }
    assert (Hm : (halved (S k) <=? (low + high) / 2) = true).
    { change (halved (S k)) with (halved k / 2). apply half_mono.
      apply leb_trans with (1 := Hh). now apply add_ge_r. }
    replace (k + S n)%nat with (S k + n)%nat by lia.
    destruct (reach ((low + high) / 2)) eqn:R.
    + apply IH; auto. lia.
    + apply IH; auto; [lia| |].
      * apply leb_trans with (2 := Hm). now apply ltb_leb.
      * now apply leb_trans with (1 := Sk).
Qed.

End Bisect.

(** With [months > 0] and [targetToday > pvToday], a contribution that the
    solver returns is positive and reaches the target. *)
Lemma solve_result Math_pow s c :
  (0 < s_months s < 2 ^ 53)%Z -> (s_pvToday s <? s_targetToday s) = true ->
  solveRequiredPmt Math_pow s = Some c ->
  (0 <? c) = true /\ reaches Math_pow s c = true.
Proof.
  intros Hm Ht H.
  pose proof (initial_high_ge_1 s Hm Ht) as H1.
  set (h0 := initial_high s) in *.
  pose proof (bracket_guard Math_pow s 60 0 h0 ltac:(lia) ltac:(lia) H1) as Hg.
  assert (Hs : solveRequiredPmt Math_pow s =
               match bracket Math_pow s 60 h0 with
               | None => None
               | Some high => Some (Math_max 0 (snd (bisect Math_pow s 70 0 high)))
               end).
  { unfold solveRequiredPmt. destruct (Z.leb_spec (s_months s) 0); [lia|].
    now rewrite (ltb_true_leb_false _ _ Ht). }
  rewrite Hs in H. clear Hs.
  destruct (bracket Math_pow s 60 h0) as [high|] eqn:E; [|discriminate].
  assert (Hc : Math_max 0 (snd (bisect Math_pow s 70 0 high)) = c)
    by exact (f_equal (fun o => match o with Some x => x | None => c end) H).
  clear H. subst c.
  destruct (bracket_some Math_pow s 60 _ _ E) as (k & _ & Eh & _).
  assert (Hh : (halved 0 <=? high) = true).
  { rewrite Eh. now apply doubled_ge_1. }
  destruct (bisect_high Math_pow s 70 0 0 high ltac:(lia) eq_refl Hh Hg)
    as (_ & Hb & Hr).
  assert (Hp : (0 <? snd (bisect Math_pow s 70 0 high)) = true).
  { apply ltb_leb_trans with (2 := Hb). reflexivity. }
  rewrite (Math_max_0_pos _ Hp). split; [exact Hp|exact Hr].
Qed.

(** X20. With [months > 0] and [targetToday > pvToday], a contribution
    that [solveRequiredPmt] returns is positive and does reach the target:
    the projection with it ends on a finite real balance at or above
    [targetToday]. *)
Theorem solveRequiredPmt_sound Math_pow s c :
  (0 < s_months s < 2 ^ 53)%Z -> (s_pvToday s <? s_targetToday s) = true ->
  solveRequiredPmt Math_pow s = Some c ->
  (0 <? c) = true /\
  Number_isFinite (finalBalanceReal Math_pow (with_pmt0 s c)) = true /\
  (s_targetToday s <=? finalBalanceReal Math_pow (with_pmt0 s c)) = true.
Proof.
  intros Hm Ht H.
  destruct (solve_result Math_pow s c Hm Ht H) as [Hp Hr].
  split; [exact Hp|].
  unfold reaches in Hr. now apply andb_true_iff in Hr.
Qed.

Lemma solveRequiredPmt_sound_witness :
  exists c, solveRequiredPmt pow_ref solve_case = Some c /\
    (0 <? c) = true /\
    (s_targetToday solve_case <=? finalBalanceReal pow_ref (with_pmt0 solve_case c)) = true.
Proof.
  eexists. split; [vm_compute; reflexivity|].
  destruct (solveRequiredPmt_sound pow_ref solve_case _ ltac:(simpl; lia) eq_refl
              ltac:(vm_compute; reflexivity)) as (H1 & _ & H2).
  split; [exact H1|exact H2].
Defined.

(** X21. Under [inflationAdjusted] and with a starting balance that is
    not negative, the two solvers agree: with the contribution that
    [solveRequiredPmt] returns for a horizon, [monthsToTarget] capped at
    that horizon finds a month, from 1 to the horizon. *)
Theorem solve_then_months Math_pow s c :
  s_indexation s = inflationAdjusted ->
  (0 < s_months s < 2 ^ 53)%Z ->
  (0 <=? s_pvToday s) = true -> (s_pvToday s <? s_targetToday s) = true ->
  solveRequiredPmt Math_pow s = Some c ->
  exists m, monthsToTarget Math_pow (horizon_query s c) = Some m /\
    (1 <= m <= s_months s)%Z.
Proof.
  intros Hi Hm Hpv Ht H.
  destruct (solve_result Math_pow s c Hm Ht H) as [_ Hr].
  unfold reaches in Hr. apply andb_true_iff in Hr as [Ff Tf].
  set (q := horizon_query s c).
  assert (T : (t_targetToday q <=? t_pvToday q) = false)
    by exact (ltb_true_leb_false _ _ Ht).
  destruct (final_balance_last Math_pow (with_pmt0 s c) ltac:(simpl; lia))
    as (HL & Hfin & Hf).
  set (L := length (simulateProjection Math_pow (with_pmt0 s c))) in *.
  cbn [months with_pmt0] in HL.
  assert (Hsim : forall k, target_balance_at Math_pow q k =
                           balance_at Math_pow (with_pmt0 s c) k).
  { intros k. exact (target_balance_sim Math_pow q (s_months s) k Hi). }
  assert (HL2 : (2 <= L)%nat).
  { destruct (Nat.eq_dec L 1) as [E|]; [|lia]. exfalso.
    rewrite Hfin, E in Tf. cbn [Nat.sub balance_at with_pmt0 pvToday] in Tf.
    apply leb_F2R in Hpv as (_ & Np & Vp). change (F2R 0) with 0%R in Vp.
    destruct (Math_max_spec 0 (s_pvToday s) eq_refl) as [_ V].
    { now apply is_nan_false. }
    apply leb_F2R in Tf as (_ & _ & Vt). rewrite V in Vt.
    change (F2R 0) with 0%R in Vt. rewrite Rmax_right in Vt by exact Vp.
    apply ltb_F2R in Ht as (_ & _ & Ht). lra. }
  rewrite Hfin in Tf, Ff.
  rewrite (monthsToTarget_loop _ _ T).
  change (cap_of q) with (s_months s).
  destruct (target_loop Math_pow q (s_months s) _ _ _) as [m|] eqn:E.
  - exists m. split; [reflexivity|].
    apply (target_loop_some Math_pow q (s_months s) _ 0 m eq_refl) in E
      as (k & -> & Hk & Hc & _). lia.
  - exfalso.
    apply (target_loop_none Math_pow q (s_months s) _ 0 eq_refl) in E
      as [E|(k & Hk & Hc & Hnf & Hb)].
    + destruct (E (L - 1)%nat) as [_ E']; try lia.
      rewrite Hsim in E'. change (t_targetToday q) with (s_targetToday s) in E'.
      congruence.
    + destruct (Nat.lt_ge_cases k L) as [Hlt|Hge].
      * rewrite Hsim, Hf in Hnf by lia. discriminate.
      * specialize (Hb (L - 1)%nat ltac:(lia)). rewrite Hsim in Hb.
        change (t_targetToday q) with (s_targetToday s) in Hb. congruence.
Qed.

Lemma solve_then_months_witness :
  exists c m, solveRequiredPmt pow_ref solve_case = Some c /\
    monthsToTarget pow_ref (horizon_query solve_case c) = Some m /\
    (1 <= m <= 120)%Z.
Proof.
  eexists.
  destruct (solve_then_months pow_ref solve_case _ eq_refl ltac:(simpl; lia)
              eq_refl eq_refl ltac:(vm_compute; reflexivity)) as (m & Hm & Hr).
  exists m. split; [vm_compute; reflexivity|]. split; [exact Hm|exact Hr].
Defined.

(** ** Amounts and rates that are not finite *)

Section NaNSolve.
Variable Math_pow : num -> Z -> num.
Variable s : SolveParams.
Hypothesis Hm : (0 < s_months s)%Z.
Hypothesis Hnan : is_nan (s_targetToday s) = true \/ is_nan (s_pvToday s) = true.

Lemma reaches_nan c : reaches Math_pow s c = false.
Proof.
  unfold reaches.
  destruct (is_nan (s_targetToday s)) eqn:N.
  - rewrite leb_nan_l by auto. apply andb_false_r.
  - destruct Hnan as [H|H]; [discriminate|].
    assert (E : finalBalanceReal Math_pow (with_pmt0 s c) = nan).
    { unfold finalBalanceReal, simulateProjection.
      cbn [months with_pmt0 pvToday]. rewrite Math_max_nan_r by auto.
      destruct (Z.to_nat (s_months s + 1)) as [|n] eqn:En; [lia|].
      cbn [simulate_loop with_pmt0 months].
      destruct (Z.leb_spec 0 (s_months s)); [|lia].
      destruct (Z.eqb_spec 0 (s_months s)); [lia|].
      unfold Number_isFinite. rewrite nan_not_finite by (now apply advance_nan).
      reflexivity. }
    rewrite E. reflexivity.
Qed.

Lemma bracket_nan n : bracket Math_pow s n nan = Some nan.
Proof.
  induction n as [|n IH]; [reflexivity|].
  cbn [bracket]. rewrite reaches_nan. cbn [negb].
  change (nan * 2) with nan. change (1e9 <? nan) with false. exact IH.
Qed.

Lemma bisect_nan n : forall low, snd (bisect Math_pow s n low nan) = nan.
Proof.
  induction n as [|n IH]; intros low; [reflexivity|].
  cbn [bisect]. rewrite reaches_nan. apply IH.
Qed.

Lemma initial_high_nan : initial_high s = nan.
Proof.
  unfold initial_high. apply Math_max_nan_r. apply div_nan_l.
  destruct Hnan; [now apply sub_nan_l|now apply sub_nan_r].
Qed.

End NaNSolve.

(** X22. With [months > 0] and a target or a starting balance that is not
    a number, [solveRequiredPmt] returns NaN, not [null]: no [high] reaches
    the target, the doubling never passes 1e9, the guard of 60 ends the
    loop and the bisection works on NaN. *)
Theorem solveRequiredPmt_nan Math_pow s :
  (0 < s_months s)%Z ->
  is_nan (s_targetToday s) = true \/ is_nan (s_pvToday s) = true ->
  solveRequiredPmt Math_pow s = Some nan.
Proof.
  intros Hm H. unfold solveRequiredPmt.
  destruct (Z.leb_spec (s_months s) 0); [lia|].
  assert (T : (s_targetToday s <=? s_pvToday s) = false).
  { destruct H; [now apply leb_nan_l|now apply leb_nan_r]. }
  rewrite T, initial_high_nan, bracket_nan, bisect_nan by auto.
  reflexivity.
Qed.

Lemma solveRequiredPmt_nan_witness : solveRequiredPmt pow_ref nan_solve = Some nan.
Proof.
  apply (solveRequiredPmt_nan pow_ref nan_solve); [simpl; lia|].
  left. reflexivity.
Defined.

(** X23. With [months > 0], [targetToday > pvToday >= 0] and a return that
    is not finite, no contribution reaches the target and
    [solveRequiredPmt] returns [null]. *)
Theorem solveRequiredPmt_invalid Math_pow s :
  (0 < s_months s < 2 ^ 53)%Z ->
  (0 <=? s_pvToday s) = true -> (s_pvToday s <? s_targetToday s) = true ->
  Number_isFinite (s_realMonthlyRate s) = false ->
  solveRequiredPmt Math_pow s = None.
Proof.
  intros Hm Hpv Ht Hr.
  assert (R : forall c, reaches Math_pow s c = false).
  { intros c. unfold reaches, finalBalanceReal.
    rewrite (first_update_stops Math_pow (with_pmt0 s c)) by (simpl; auto; lia).
    cbn [last balanceReal snapshot with_pmt0 pvToday].
    apply andb_false_iff. right.
    destruct (s_targetToday s <=? Math_max 0 (s_pvToday s)) eqn:E; [|reflexivity].
    exfalso. apply leb_F2R in E as (_ & _ & E).
    apply leb_F2R in Hpv as (_ & Np & Vp). change (F2R 0) with 0%R in Vp.
    destruct (Math_max_spec 0 (s_pvToday s) eq_refl) as [_ V].
    { now apply is_nan_false. }
    rewrite V in E. change (F2R 0) with 0%R in E. rewrite Rmax_right in E by exact Vp.
    apply ltb_F2R in Ht as (_ & _ & Ht). lra. }
  pose proof (initial_high_ge_1 s ltac:(lia) Ht) as H1.
  set (h0 := initial_high s) in *.
  pose proof (bracket_guard Math_pow s 60 0 h0 ltac:(lia) ltac:(lia) H1) as Hg.
  unfold solveRequiredPmt. destruct (Z.leb_spec (s_months s) 0); [lia|].
  rewrite (ltb_true_leb_false _ _ Ht). fold h0.
  destruct (bracket Math_pow s 60 h0) as [high|]; [|reflexivity].
  rewrite R in Hg. discriminate.
Qed.

Lemma solveRequiredPmt_invalid_witness : solveRequiredPmt pow_ref infinite_return = None.
Proof.
  apply (solveRequiredPmt_invalid pow_ref infinite_return);
    [simpl; lia|reflexivity..].
Defined.
